(** * A shallow embedding of the FTP client [gonutz/ftp-client]

    The development follows [ftp/ftp.go]: first the byte-string helpers of
    Go's [strings] package that the client relies on, then the reply framer
    and the reply extractors (pure functions), then the command/reply engine
    and the per-verb operations as programs of a small state monad over an
    explicit model of the control and data connections.

    [ftp/ftp.go] is present in two revisions.  The definitions at top level
    follow the later one (the one with [ConnectOn], [statusTypeOfCode] and
    [responseCode.ok]); the operations that are written differently in the
    earlier revision ([Abort], [Download], [upload], [StatusOf]) are
    embedded a second time in [Module Rev0]. *)

From Stdlib Require Import List Ascii ZArith Lia Bool Arith.
From Stdlib Require String DecimalString.
Import ListNotations.
Import String.StringSyntax.

Set Implicit Arguments.
Local Open Scope list_scope.

(* ===================================================================== *)
(** * Bytes and Go strings *)
(* ===================================================================== *)

(** A Go [string] and a Go [[]byte] are both sequences of bytes; the
    conversions [string(b)] and [[]byte(s)] copy the bytes unchanged. *)
Definition bytes := list ascii.

Bind Scope string_scope with String.string.

(** [B "abc"] is the byte sequence of an ASCII literal. *)
Definition B (s : String.string) : bytes := String.list_ascii_of_string s.

Definition CR : ascii := ascii_of_nat 13.
Definition LF : ascii := ascii_of_nat 10.
Definition CRLF : bytes := [CR; LF].
Definition SP : ascii := " "%char.
Definition HYPHEN : ascii := "-"%char.

Definition byte_eqb (a b : ascii) : bool := Ascii.eqb a b.

Fixpoint bytes_eqb (s t : bytes) : bool :=
  match s, t with
  | [], [] => true
  | a :: s', b :: t' => byte_eqb a b && bytes_eqb s' t'
  | _, _ => false
  end.

(** Go's slice expressions [s[:hi]], [s[lo:]] and the index expression
    [s[i]] panic when out of range; [None] stands for the panic. *)
Definition slice_to (s : bytes) (hi : Z) : option bytes :=
  if ((0 <=? hi) && (hi <=? Z.of_nat (length s)))%Z
  then Some (firstn (Z.to_nat hi) s) else None.

Definition slice_from (s : bytes) (lo : Z) : option bytes :=
  if ((0 <=? lo) && (lo <=? Z.of_nat (length s)))%Z
  then Some (skipn (Z.to_nat lo) s) else None.

Module strings.

(** [strings.HasPrefix] *)
Fixpoint HasPrefix (s prefix : bytes) : bool :=
  match prefix, s with
  | [], _ => true
  | p :: prefix', c :: s' => byte_eqb c p && HasPrefix s' prefix'
  | _ :: _, [] => false
  end.

(** [strings.HasSuffix] *)
Definition HasSuffix (s suffix : bytes) : bool :=
  (length suffix <=? length s) &&
  bytes_eqb (skipn (length s - length suffix) s) suffix.

(** [strings.TrimSuffix]: [s] without the trailing [suffix], or [s]
    itself when it does not end with [suffix]. *)
Definition TrimSuffix (s suffix : bytes) : bytes :=
  if HasSuffix s suffix then firstn (length s - length suffix) s else s.

(** Position of the first occurrence of [sep] in [s]. *)
Fixpoint index (s sep : bytes) : option nat :=
  if HasPrefix s sep then Some 0
  else match s with
       | [] => None
       | _ :: s' => option_map S (index s' sep)
       end.

(** Position of the last occurrence of [sep] in [s]. *)
Fixpoint lastIndex (s sep : bytes) : option nat :=
  match s with
  | [] => if HasPrefix [] sep then Some 0 else None
  | _ :: s' =>
      match lastIndex s' sep with
      | Some i => Some (S i)
      | None => if HasPrefix s sep then Some 0 else None
      end
  end.

(** [strings.Index] and [strings.LastIndex] return [-1] when there is
    no occurrence. *)
Definition Index (s sep : bytes) : Z :=
  match index s sep with Some i => Z.of_nat i | None => (-1)%Z end.

Definition LastIndex (s sep : bytes) : Z :=
  match lastIndex s sep with Some i => Z.of_nat i | None => (-1)%Z end.

(** [strings.Split] for a non-empty separator: cut at every occurrence
    found by [Index], left to right; the remainder is the last segment.
    Every cut removes at least one byte, so [length s] rounds suffice. *)
Fixpoint genSplit (rounds : nat) (s sep : bytes) : list bytes :=
  match rounds with
  | O => [s]
  | S n =>
      match index s sep with
      | None => [s]
      | Some m => firstn m s :: genSplit n (skipn (m + length sep) s) sep
      end
  end.

Definition Split (s sep : bytes) : list bytes := genSplit (length s) s sep.

(** [strings.Join] *)
Fixpoint Join (elems : list bytes) (sep : bytes) : bytes :=
  match elems with
  | [] => []
  | [e] => e
  | e :: rest => e ++ sep ++ Join rest sep
  end.

(** [strings.Replace(s, old, new, -1)] for a non-empty [old]. *)
Definition ReplaceAll (s old new : bytes) : bytes := Join (Split s old) new.

End strings.

(* ===================================================================== *)
(** * Response codes *)
(* ===================================================================== *)

Definition responseCode := bytes.

Definition commandOk : responseCode := B "200".
Definition systemStatusOrHelpReply : responseCode := B "211".
Definition directoryStatus : responseCode := B "212".
Definition fileStatus : responseCode := B "213".
Definition helpMessage : responseCode := B "214".
Definition systemName : responseCode := B "215".
Definition serviceReadyForNewUser : responseCode := B "220".
Definition serviceClosingControlConnection : responseCode := B "221".
Definition noTransferInProgress : responseCode := B "225".
Definition closingDataConnection : responseCode := B "226".
Definition enteringPassiveMode : responseCode := B "227".
Definition userLoggedIn_Proceed : responseCode := B "230".
Definition fileActionCompleted : responseCode := B "250".
Definition pathNameCreated : responseCode := B "257".
Definition userNameOK_NeedPassword : responseCode := B "331".
Definition needAccountForLogin : responseCode := B "332".
Definition fileActionPending : responseCode := B "350".
Definition connectionClosed_TransferAborter : responseCode := B "426".

(** [func (c responseCode) ok() bool] *)
Definition ok (c : responseCode) : bool :=
  if negb (length c =? 3) then false
  else match c with
       | c0 :: _ => byte_eqb c0 "1"%char || byte_eqb c0 "2"%char
       | [] => false
       end.

(* ===================================================================== *)
(** * Reply framer *)
(* ===================================================================== *)

(** [msg[i] == ch], reached only behind a length guard. *)
Definition byte_at_is (msg : bytes) (i : nat) (ch : ascii) : bool :=
  match nth_error msg i with
  | Some c => byte_eqb c ch
  | None => false
  end.

Definition isSingleLineResponse (msg : bytes) : bool :=
  (4 <=? length msg) && byte_at_is msg 3 SP.

Definition endsInNewLine (msg : bytes) : bool :=
  let l := length msg in
  if l <? 2 then false
  else byte_at_is msg (l - 2) CR && byte_at_is msg (l - 1) LF.

Definition isCompleteSingleLineResponse (msg : bytes) : bool :=
  isSingleLineResponse msg && endsInNewLine msg.

Definition isMultiLineResponse (msg : bytes) : bool :=
  (4 <=? length msg) && byte_at_is msg 3 HYPHEN.

Definition lastLineEndsInSameCodeAsFirstLine (msg : bytes) : bool :=
  let lines := strings.Split msg CRLF in
  if length lines <? 3 then false
  else
    let first := nth 0 lines [] in
    let last := nth (length lines - 2) lines [] in
    if (length first <? 3) || (length last <? 4) then false
    else
      let codePlusSpace := firstn 3 first ++ [SP] in
      bytes_eqb (firstn 4 last) codePlusSpace.

Definition isCompleteMultiLineResponse (msg : bytes) : bool :=
  isMultiLineResponse msg && lastLineEndsInSameCodeAsFirstLine msg.

Definition isCompleteResponse (msg : bytes) : bool :=
  isCompleteSingleLineResponse msg || isCompleteMultiLineResponse msg.

Definition extractCode (msg : bytes) : responseCode :=
  if length msg <=? 3 then msg else firstn 3 msg.

(* ===================================================================== *)
(** * Reply extractors *)
(* ===================================================================== *)

(** [removeControlSymbols]; [None] when one of its slice expressions is
    out of range (the Go program panics). *)
Definition removeControlSymbols (resp : bytes) : option bytes :=
  match slice_from resp 4 with
  | None => None
  | Some tail =>
      let noCodeOrNewLine := strings.TrimSuffix tail CRLF in
      if isSingleLineResponse resp then Some noCodeOrNewLine
      else
        let lastLineStart := strings.LastIndex noCodeOrNewLine CRLF in
        match slice_to noCodeOrNewLine (lastLineStart + 2) with
        | None => None
        | Some start =>
            match slice_from noCodeOrNewLine (lastLineStart + 6) with
            | None => None
            | Some end_ =>
                let all := start ++ end_ in
                Some (strings.TrimSuffix all CRLF)
            end
        end
  end.

(* ===================================================================== *)
(** * Errors *)
(* ===================================================================== *)

(** A Go [error] value.  [errorString] is what [errors.New] builds; the
    other constructors are errors handed over by the standard library:
    [strconv]'s two sentinel errors and an error of the network stack,
    identified by a number. *)
Inductive error :=
| errorString (msg : bytes)
| ErrSyntax
| ErrRange
| NetError (n : nat).

(** [io.EOF], reported by [Read] once the peer has closed the stream. *)
Definition EOF : error := NetError 0.

Definition errorMessage (command : bytes) (response : bytes) : error :=
  errorString (B "FTP server responded to " ++ command ++
               B " with error: " ++ response).

(* ===================================================================== *)
(** * Regular expressions (the fragment of Go's [regexp] in use) *)
(* ===================================================================== *)

(** Go's [regexp] returns the match that starts leftmost and, among
    those, the one a backtracking search finds first; [run] is that
    backtracking search, [search] tries the start positions from the left.
    Repetition is needed over single bytes only.  The engine of Go walks
    UTF-8 runes, the one here bytes: for the two patterns below, whose
    only non-ASCII-matching atom is [.], both accept the same inputs with
    the same submatches. *)
Module regexp.

Inductive regex :=
| Lit (c : ascii)
| Class (p : ascii -> bool)
| StarClass (p : ascii -> bool)
| PlusClass (p : ascii -> bool)
| Cat (r1 r2 : regex)
| Group (i : nat) (r : regex).

(** Submatches found so far, most recent first. *)
Definition captures := list (nat * bytes).

Fixpoint submatch (caps : captures) (i : nat) : bytes :=
  match caps with
  | [] => []
  | (j, w) :: rest => if j =? i then w else submatch rest i
  end.

Section Run.
Variable R : Type.

(** Greedy [x*]: take the byte when possible, give it back when the
    rest of the pattern fails. *)
Fixpoint star_greedy (p : ascii -> bool) (s : bytes)
         (k : bytes -> option R) : option R :=
  match s with
  | c :: s' =>
      if p c then
        match star_greedy p s' k with
        | Some r => Some r
        | None => k s
        end
      else k s
  | [] => k []
  end.

Fixpoint run (r : regex) (s : bytes) (caps : captures)
         (k : bytes -> captures -> option R) : option R :=
  match r with
  | Lit c =>
      match s with
      | x :: s' => if byte_eqb x c then k s' caps else None
      | [] => None
      end
  | Class p =>
      match s with
      | x :: s' => if p x then k s' caps else None
      | [] => None
      end
  | StarClass p => star_greedy p s (fun s' => k s' caps)
  | PlusClass p =>
      match s with
      | x :: s' =>
          if p x then star_greedy p s' (fun s'' => k s'' caps) else None
      | [] => None
      end
  | Cat r1 r2 => run r1 s caps (fun s1 c1 => run r2 s1 c1 k)
  | Group i r =>
      run r s caps
          (fun s' c' => k s' ((i, firstn (length s - length s') s) :: c'))
  end.
End Run.

(** Leftmost match: the first start position from which [run] succeeds. *)
Fixpoint search (r : regex) (s : bytes) : option captures :=
  match run r s [] (fun _ c => Some c) with
  | Some c => Some c
  | None =>
      match s with
      | [] => None
      | _ :: s' => search r s'
      end
  end.

(** [Regexp.Match] *)
Definition Match (r : regex) (b : bytes) : bool :=
  match search r b with Some _ => true | None => false end.

(** [Regexp.FindSubmatch]; [matches[i]] is [submatch matches i]. *)
Definition FindSubmatch (r : regex) (b : bytes) : captures :=
  match search r b with Some c => c | None => [] end.

(** The atoms of the two patterns. *)
Definition digit (c : ascii) : bool :=
  (48 <=? nat_of_ascii c) && (nat_of_ascii c <=? 57).

(** [.] matches every byte but the line feed. *)
Definition dot (c : ascii) : bool := negb (byte_eqb c LF).

Fixpoint cat (rs : list regex) : regex :=
  match rs with
  | [] => StarClass (fun _ => false)
  | [r] => r
  | r :: rest => Cat r (cat rest)
  end.

End regexp.

Module strconv.

Definition maxInt : Z := (2 ^ 63 - 1)%Z.

Definition digit_val (c : ascii) : option Z :=
  if regexp.digit c then Some (Z.of_nat (nat_of_ascii c - 48)) else None.

Fixpoint parse_digits (acc : Z) (s : bytes) : option Z :=
  match s with
  | [] => Some acc
  | c :: s' =>
      match digit_val c with
      | Some d => parse_digits (10 * acc + d)%Z s'
      | None => None
      end
  end.

(** [strconv.Atoi] on an unsigned decimal numeral, the only input the
    client passes: the value, or the largest [int] together with
    [ErrRange] when the numeral does not fit 64 bits; [0] and
    [ErrSyntax] for anything that is not a numeral. *)
Definition Atoi (s : bytes) : Z * option error :=
  match s with
  | [] => (0%Z, Some ErrSyntax)
  | _ =>
      match parse_digits 0 s with
      | None => (0%Z, Some ErrSyntax)
      | Some v =>
          if (v <=? maxInt)%Z then (v, None) else (maxInt, Some ErrRange)
      end
  end.

(** [strconv.Itoa] *)
Definition Itoa (i : Z) : bytes :=
  String.list_ascii_of_string (DecimalString.NilZero.string_of_int (Z.to_int i)).

End strconv.

(** Go's [int] (64 bits): sums and products wrap around. *)
Definition int_wrap (z : Z) : Z := ((z + 2 ^ 63) mod 2 ^ 64 - 2 ^ 63)%Z.
Definition int_add (a b : Z) : Z := int_wrap (a + b).
Definition int_mul (a b : Z) : Z := int_wrap (a * b).

(** The pattern of [pathMatcher]: three digits, one of space, bar and
    hyphen, a double quote, the group [(.+)], a double quote, [.*], CR, LF. *)
Definition pathMatcher : regexp.regex :=
  let quote := ascii_of_nat 34 in
  regexp.cat
    [ regexp.Class regexp.digit; regexp.Class regexp.digit;
      regexp.Class regexp.digit;
      regexp.Class (fun c => byte_eqb c SP || byte_eqb c "|"%char
                             || byte_eqb c HYPHEN);
      regexp.Lit quote;
      regexp.Group 1 (regexp.PlusClass regexp.dot);
      regexp.Lit quote;
      regexp.StarClass regexp.dot;
      regexp.Lit CR; regexp.Lit LF ].

Definition getPathFromResponse (resp : bytes) : bytes * option error :=
  if negb (regexp.Match pathMatcher resp)
  then ([], Some (errorMessage (B "path extraction") resp))
  else
    let matches := regexp.FindSubmatch pathMatcher resp in
    (regexp.submatch matches 1, None).

(** The pattern of [addrMatcher]: [.*], an opening parenthesis, group 1
    (four numerals separated by commas), a comma, group 2 (a numeral), a
    comma, group 3 (a numeral), a closing parenthesis, [.*]. *)
Definition addrMatcher : regexp.regex :=
  let digits := regexp.PlusClass regexp.digit in
  let comma := regexp.Lit ","%char in
  regexp.cat
    [ regexp.StarClass regexp.dot;
      regexp.Lit "("%char;
      regexp.Group 1
        (regexp.cat [digits; comma; digits; comma; digits; comma; digits]);
      comma;
      regexp.Group 2 digits;
      comma;
      regexp.Group 3 digits;
      regexp.Lit ")"%char;
      regexp.StarClass regexp.dot ].

Definition getAddressOfPasvResponse (msg : bytes) : bytes * option error :=
  if negb (regexp.Match addrMatcher msg)
  then ([], Some (errorMessage (B "address extraction") msg))
  else
    let matches := regexp.FindSubmatch addrMatcher msg in
    let ip := strings.ReplaceAll (regexp.submatch matches 1) (B ",") (B ".") in
    let highPort := fst (strconv.Atoi (regexp.submatch matches 2)) in
    let lowPort := fst (strconv.Atoi (regexp.submatch matches 3)) in
    let port := strconv.Itoa (int_add (int_mul 256 highPort) lowPort) in
    (ip ++ B ":" ++ port, None).

(** [parseNLST] *)
Definition parseNLST (data : bytes) : list bytes :=
  let onlyNewLines := strings.ReplaceAll data CRLF [LF] in
  let lines := strings.Split onlyNewLines [LF] in
  if (0 <? length lines) && bytes_eqb (nth (length lines - 1) lines []) []
  then firstn (length lines - 1) lines
  else lines.

(* ===================================================================== *)
(** * The connections and the session *)
(* ===================================================================== *)

Inductive transferType := transferASCII | transferBinary.

Definition transferType_eqb (a b : transferType) : bool :=
  match a, b with
  | transferASCII, transferASCII => true
  | transferBinary, transferBinary => true
  | _, _ => false
  end.

(** [type Connection struct].  The control connection [conn] is the one
    stream of the [World] below; [logger] records whether a [Logger] is
    installed ([false] is Go's [nil]). *)
Record Connection := mkConnection {
  logger : bool;
  transferType_of : transferType
}.

(** A stream a caller hands to [Download] or [upload], or a data
    connection obtained from [net.Dial]. *)
Inductive endpoint :=
| DataConn (id : nat)
| Caller (h : nat).

(** What the program does to its environment; a history lists the most
    recent event first. *)
Inductive event :=
| EvWrite (msg : bytes) (err : option error)
| EvReply (msg : bytes) (err : option error)
| EvDial (addr : bytes) (res : nat + error)
| EvCopy (dst src : endpoint) (data : bytes) (err : option error)
| EvReadAll (src : endpoint) (data : bytes) (err : option error)
| EvClose (id : nat) (err : option error)
| EvCloseControl.

(** Calls received by the [Logger]; what a [Logger] does with them is
    outside the model. *)
Inductive logEntry :=
| SentFTP (msg : bytes) (err : option error)
| ReceivedFTP (response : bytes) (err : option error).

(** The environment: what the successive calls of [Read] and [Write] on
    the control connection, of [net.Dial], of the bulk copies over a data
    connection and of [Close] on a data connection answer, together with
    the data connections that are open and the history so far.  A script
    that has run out answers with success, except for [Read], which then
    reports the end of the stream. *)
Record World := mkWorld {
  ctl_in : list (bytes + error);
  ctl_out : list (option error);
  dial_res : list (option error);
  xfer_res : list (bytes * option error);
  close_res : list (option error);
  next_id : nat;
  open_data : list nat;
  events : list event;
  logged : list logEntry
}.

Record St := mkSt {
  conn : Connection;
  world : World
}.

(** A run either returns, or panics (a slice or index out of range). *)
Inductive outcome (A : Type) :=
| Done (a : A) (s : St)
| Panicked (s : St).
Arguments Panicked {A} s.

Definition M (A : Type) := St -> outcome A.

Definition ret {A} (a : A) : M A := fun s => Done a s.

Definition bind {A B} (m : M A) (f : A -> M B) : M B :=
  fun s => match m s with
           | Done a s' => f a s'
           | Panicked s' => Panicked s'
           end.

Definition panic {A} : M A := fun s => Panicked s.

Declare Scope ftp_scope.
Delimit Scope ftp_scope with ftp.
Notation "x <- m ;; k" := (bind m (fun x => k))
  (at level 61, m at next level, right associativity) : ftp_scope.
Notation "' pat <- m ;; k" := (bind m (fun x => match x with pat => k end))
  (at level 61, pat pattern, m at next level, right associativity) : ftp_scope.
Notation "m ;; k" := (bind m (fun _ => k))
  (at level 61, right associativity) : ftp_scope.
Local Open Scope ftp_scope.

(** [defer d]: [d] runs when [body] returns and also when it panics. *)
Definition with_defer {A B} (d : M B) (body : M A) : M A :=
  fun s => match body s with
           | Done a s' =>
               match d s' with
               | Done _ s'' => Done a s''
               | Panicked s'' => Panicked s''
               end
           | Panicked s' =>
               match d s' with
               | Done _ s'' => Panicked s''
               | Panicked s'' => Panicked s''
               end
           end.

Definition get_conn : M Connection := fun s => Done (conn s) s.
Definition set_conn (c : Connection) : M unit :=
  fun s => Done tt (mkSt c (world s)).
Definition get_world : M World := fun s => Done (world s) s.
Definition set_world (w : World) : M unit :=
  fun s => Done tt (mkSt (conn s) w).

Definition emit (e : event) (w : World) : World :=
  mkWorld (ctl_in w) (ctl_out w) (dial_res w) (xfer_res w) (close_res w)
          (next_id w) (open_data w) (e :: events w) (logged w).

Definition log (l : logEntry) (w : World) : World :=
  mkWorld (ctl_in w) (ctl_out w) (dial_res w) (xfer_res w) (close_res w)
          (next_id w) (open_data w) (events w) (l :: logged w).

(** ** The primitives of [net] and [io] *)

(** The answer a script gives next; [default] once it has run out. *)
Definition answer {A} (default : A) (script : list A) : A :=
  match script with
  | [] => default
  | a :: _ => a
  end.

(** [c.conn.Write(msg)] *)
Definition conn_Write (msg : bytes) : M (option error) :=
  w <- get_world ;;
  let err := answer None (ctl_out w) in
  set_world (emit (EvWrite msg err)
    (mkWorld (ctl_in w) (tl (ctl_out w)) (dial_res w) (xfer_res w)
             (close_res w) (next_id w) (open_data w) (events w) (logged w))) ;;
  ret err.

(** [net.Dial("tcp", addr)]: a fresh data connection, or an error. *)
Definition net_Dial (addr : bytes) : M (option nat * option error) :=
  w <- get_world ;;
  match answer None (dial_res w) with
  | Some e =>
      set_world (emit (EvDial addr (inr e))
        (mkWorld (ctl_in w) (ctl_out w) (tl (dial_res w)) (xfer_res w)
                 (close_res w) (next_id w) (open_data w) (events w)
                 (logged w))) ;;
      ret (None, Some e)
  | None =>
      let id := next_id w in
      set_world (emit (EvDial addr (inl id))
        (mkWorld (ctl_in w) (ctl_out w) (tl (dial_res w)) (xfer_res w)
                 (close_res w) (S id) (id :: open_data w) (events w)
                 (logged w))) ;;
      ret (Some id, None)
  end.

(** [dataConn.Close()]: the connection is released whatever is answered. *)
Definition data_Close (id : nat) : M (option error) :=
  w <- get_world ;;
  let err := answer None (close_res w) in
  set_world (emit (EvClose id err)
    (mkWorld (ctl_in w) (ctl_out w) (dial_res w) (xfer_res w)
             (tl (close_res w)) (next_id w)
             (filter (fun j => negb (j =? id)) (open_data w))
             (events w) (logged w))) ;;
  ret err.

(** [io.Copy(dst, src)] *)
Definition io_Copy (dst src : endpoint) : M (option error) :=
  w <- get_world ;;
  let '(data, err) := answer ([], None) (xfer_res w) in
  set_world (emit (EvCopy dst src data err)
    (mkWorld (ctl_in w) (ctl_out w) (dial_res w) (tl (xfer_res w))
             (close_res w) (next_id w) (open_data w) (events w)
             (logged w))) ;;
  ret err.

(** [ioutil.ReadAll(src)] *)
Definition ioutil_ReadAll (src : endpoint) : M (bytes * option error) :=
  w <- get_world ;;
  let '(data, err) := answer ([], None) (xfer_res w) in
  set_world (emit (EvReadAll src data err)
    (mkWorld (ctl_in w) (ctl_out w) (dial_res w) (tl (xfer_res w))
             (close_res w) (next_id w) (open_data w) (events w)
             (logged w))) ;;
  ret (data, err).

(** ** Sending and receiving on the control connection *)

Definition send (words : list bytes) : M (option error) :=
  let msg := strings.Join words (B " ") ++ CRLF in
  err <- conn_Write msg ;;
  c <- get_conn ;;
  (if logger c
   then w <- get_world ;; set_world (log (SentFTP msg err) w)
   else ret tt) ;;
  ret err.

Definition sendWithoutEmptyString (cmd arg : bytes) : M (option error) :=
  if bytes_eqb arg [] then send [cmd] else send [cmd; arg].

(** [readResponse] with its loop over [readResponseInto]: [all] is the
    accumulator, [input] the answers of the coming calls of [conn.Read]
    (each at most as long as the 1024-byte buffer).  It returns the bytes
    gathered, the error, and the answers not consumed. *)
Fixpoint readResponseLoop (all : bytes) (input : list (bytes + error))
  : bytes * option error * list (bytes + error) :=
  match input with
  | [] => (all, Some EOF, [])
  | inr e :: rest => (all, Some e, rest)
  | inl chunk :: rest =>
      let all' := all ++ chunk in
      if isCompleteResponse all' then (all', None, rest)
      else readResponseLoop all' rest
  end.

Definition readResponse : M (bytes * option error) :=
  w <- get_world ;;
  let '(msg, err, rest) := readResponseLoop [] (ctl_in w) in
  set_world (emit (EvReply msg err)
    (mkWorld rest (ctl_out w) (dial_res w) (xfer_res w) (close_res w)
             (next_id w) (open_data w) (events w) (logged w))) ;;
  ret (msg, err).

Definition receive : M (bytes * responseCode * option error) :=
  '(msg, err) <- readResponse ;;
  c <- get_conn ;;
  (if logger c
   then w <- get_world ;; set_world (log (ReceivedFTP msg err) w)
   else ret tt) ;;
  ret (msg, extractCode msg, err).

Definition sendAndReceive (words : list bytes)
  : M (bytes * responseCode * option error) :=
  err <- send words ;;
  match err with
  | Some e => ret ([], [], Some e)
  | None => receive
  end.

(** [newConnection(conn, logger)]; the session it returns is also the
    one of the state. *)
Definition newConnection (lg : bool) : M (option Connection * option error) :=
  set_conn (mkConnection lg transferASCII) ;;
  '(resp, code, err) <- receive ;;
  match err with
  | Some e => ret (None, Some e)
  | None =>
      if negb (bytes_eqb code serviceReadyForNewUser)
      then ret (None, Some (errorMessage (B "connect") resp))
      else c <- get_conn ;; ret (Some c, None)
  end.

(** ** The command/reply engine *)

Definition executeGetResponse (expectedCode : responseCode)
           (args : list bytes) : M (bytes * option error) :=
  err <- send args ;;
  match err with
  | Some e => ret ([], Some e)
  | None =>
      '(resp, code, err) <- receive ;;
      match err with
      | Some e => ret ([], Some e)
      | None =>
          if bytes_eqb code expectedCode then ret (resp, None)
          else
            match args with
            | arg0 :: _ => ret ([], Some (errorMessage arg0 resp))
            | [] => panic
            end
      end
  end.

Definition execute (success : responseCode) (args : list bytes)
  : M (option error) :=
  '(_, err) <- executeGetResponse success args ;;
  ret err.

(** ** The operations, one per verb *)

(** [Close]: closes the control connection; the value that
    [c.conn.Close()] returns is dropped. *)
Definition Close : M unit :=
  w <- get_world ;; set_world (emit EvCloseControl w).

(** [ConnectOn] and [ConnectLoggingOn] take the control connection from
    the caller. ([Connect] and [ConnectLogging] dial it first; dialling
    the control connection is left to the environment here.) *)
Definition ConnectOn : M (option Connection * option error) :=
  newConnection false.

Definition ConnectLoggingOn (lg : bool)
  : M (option Connection * option error) :=
  newConnection lg.

Definition Login (user password : bytes) : M (option error) :=
  err <- send [B "USER"; user] ;;
  match err with
  | Some e => ret (Some e)
  | None =>
      '(resp, code, err) <- receive ;;
      match err with
      | Some e => ret (Some e)
      | None =>
          if bytes_eqb code userLoggedIn_Proceed then ret None
          else if bytes_eqb code userNameOK_NeedPassword
          then execute userLoggedIn_Proceed [B "PASS"; password]
          else ret (Some (errorMessage (B "USER") resp))
      end
  end.

Definition ChangeWorkingDirTo (path : bytes) : M (option error) :=
  execute fileActionCompleted [B "CWD"; path].

Definition ChangeDirUp : M (option error) :=
  execute commandOk [B "CDUP"].

Definition StructureMount (path : bytes) : M (option error) :=
  execute fileActionCompleted [B "SMNT"; path].

Definition Reinitialize : M (option error) :=
  execute serviceReadyForNewUser [B "REIN"].

Definition Quit : M (option error) :=
  execute serviceClosingControlConnection [B "QUIT"].

Definition RenameFromTo (from to : bytes) : M (option error) :=
  err <- execute fileActionPending [B "RNFR"; from] ;;
  match err with
  | Some e => ret (Some e)
  | None => execute fileActionCompleted [B "RNTO"; to]
  end.

Definition Delete (path : bytes) : M (option error) :=
  execute fileActionCompleted [B "DELE"; path].

Definition MakeDirectory (path : bytes) : M (bytes * option error) :=
  '(resp, err) <- executeGetResponse pathNameCreated [B "MKD"; path] ;;
  match err with
  | Some e => ret ([], Some e)
  | None => ret (getPathFromResponse resp)
  end.

Definition RemoveDirectory (path : bytes) : M (option error) :=
  execute fileActionCompleted [B "RMD"; path].

Definition NoOperation : M (option error) :=
  execute commandOk [B "NOOP"].

(** The call [removeControlSymbols(resp)] inside an operation. *)
Definition call_removeControlSymbols (resp : bytes) : M bytes :=
  match removeControlSymbols resp with
  | Some text => ret text
  | None => panic
  end.

Definition HelpAbout (topic : bytes) : M (bytes * option error) :=
  err <- sendWithoutEmptyString (B "HELP") topic ;;
  match err with
  | Some e => ret ([], Some e)
  | None =>
      '(resp, code, err) <- receive ;;
      match err with
      | Some e => ret ([], Some e)
      | None =>
          if bytes_eqb code systemStatusOrHelpReply
             || bytes_eqb code helpMessage
          then text <- call_removeControlSymbols resp ;; ret (text, None)
          else ret ([], Some (errorMessage (B "HELP") resp))
      end
  end.

Definition Help : M (bytes * option error) := HelpAbout [].

(** [type StatusType string]; the empty string accompanies an error. *)
Definition StatusType := bytes.
Definition GeneralStatus : StatusType := B "status".
Definition FileStatus : StatusType := B "file status".
Definition DirectoryStatus : StatusType := B "directory status".

Definition statusTypeOfCode (code : responseCode) : StatusType * bool :=
  if bytes_eqb code systemStatusOrHelpReply then (GeneralStatus, true)
  else if bytes_eqb code directoryStatus then (DirectoryStatus, true)
  else if bytes_eqb code fileStatus then (FileStatus, true)
  else ([], false).

Definition StatusOf (path : bytes) : M (StatusType * bytes * option error) :=
  err <- sendWithoutEmptyString (B "STAT") path ;;
  match err with
  | Some e => ret ([], [], Some e)
  | None =>
      '(resp, code, err) <- receive ;;
      match err with
      | Some e => ret ([], [], Some e)
      | None =>
          let '(typ, ok_) := statusTypeOfCode code in
          if ok_
          then text <- call_removeControlSymbols resp ;; ret (typ, text, None)
          else ret ([], [], Some (errorMessage (B "STAT") resp))
      end
  end.

Definition Status : M (StatusType * bytes * option error) := StatusOf [].

Definition System : M (bytes * option error) :=
  '(resp, err) <- executeGetResponse systemName [B "SYST"] ;;
  match err with
  | Some e => ret ([], Some e)
  | None => text <- call_removeControlSymbols resp ;; ret (text, None)
  end.

Definition PrintWorkingDirectory : M (bytes * option error) :=
  '(resp, err) <- executeGetResponse pathNameCreated [B "PWD"] ;;
  match err with
  | Some e => ret ([], Some e)
  | None => ret (getPathFromResponse resp)
  end.

Definition Abort : M (option error) :=
  '(resp, code, err) <- sendAndReceive [B "ABOR"] ;;
  match err with
  | Some e => ret (Some e)
  | None =>
      if bytes_eqb code noTransferInProgress
         || bytes_eqb code closingDataConnection
      then ret None
      else if bytes_eqb code connectionClosed_TransferAborter
      then
        '(resp, code, err) <- receive ;;
        match err with
        | Some e => ret (Some e)
        | None =>
            if bytes_eqb code closingDataConnection then ret None
            else ret (Some (errorMessage (B "ABOR") resp))
        end
      else ret (Some (errorMessage (B "ABOR") resp))
  end.

(** The symbol A is for ASCII and I is for binary data. *)
Definition setTransferTypeTo (t : transferType) (symbol : bytes)
  : M (option error) :=
  c <- get_conn ;;
  if transferType_eqb (transferType_of c) t then ret None
  else
    err <- execute commandOk [B "TYPE"; symbol] ;;
    match err with
    | None =>
        c <- get_conn ;;
        set_conn (mkConnection (logger c) t) ;;
        ret err
    | Some _ => ret err
    end.

Definition setASCIITransfer : M (option error) :=
  setTransferTypeTo transferASCII (B "A").

Definition setBinaryTransfer : M (option error) :=
  setTransferTypeTo transferBinary (B "I").

Definition enterPassiveMode : M (option nat * option error) :=
  '(resp, err) <- executeGetResponse enteringPassiveMode [B "PASV"] ;;
  match err with
  | Some e => ret (None, Some e)
  | None =>
      let '(addr, err) := getAddressOfPasvResponse resp in
      match err with
      | Some e => ret (None, Some e)
      | None => net_Dial addr
      end
  end.

Definition readListCommandData (cmd path : bytes)
  : M (bytes * option error) :=
  err <- setASCIITransfer ;;
  match err with
  | Some e => ret ([], Some e)
  | None =>
      '(dataConn, err) <- enterPassiveMode ;;
      match dataConn, err with
      | _, Some e => ret ([], Some e)
      | None, None => panic
      | Some dataConn, None =>
          with_defer (data_Close dataConn)
            (err <- sendWithoutEmptyString cmd path ;;
             match err with
             | Some e => ret ([], Some e)
             | None =>
                 '(resp, code, err) <- receive ;;
                 match err with
                 | Some e => ret ([], Some e)
                 | None =>
                     if negb (ok code)
                     then ret ([], Some (errorMessage cmd resp))
                     else
                       '(data, err) <- ioutil_ReadAll (DataConn dataConn) ;;
                       match err with
                       | Some e => ret ([], Some e)
                       | None =>
                           '(resp, code, err) <- receive ;;
                           match err with
                           | Some e => ret ([], Some e)
                           | None =>
                               if negb (ok code)
                               then ret ([], Some (errorMessage cmd resp))
                               else ret (data, None)
                           end
                       end
                 end
             end)
      end
  end.

Definition ListFilesIn (path : bytes) : M (bytes * option error) :=
  readListCommandData (B "LIST") path.

Definition ListFiles : M (bytes * option error) := ListFilesIn [].

Definition ListFileNamesIn (path : bytes) : M (list bytes * option error) :=
  '(data, err) <- readListCommandData (B "NLST") path ;;
  match err with
  | Some e => ret ([], Some e)
  | None => ret (parseNLST data, None)
  end.

Definition ListFileNames : M (list bytes * option error) :=
  ListFileNamesIn [].

Definition Download (path : bytes) (dest : endpoint) : M (option error) :=
  err <- setBinaryTransfer ;;
  match err with
  | Some e => ret (Some e)
  | None =>
      '(dataConn, err) <- enterPassiveMode ;;
      match dataConn, err with
      | _, Some e => ret (Some e)
      | None, None => panic
      | Some dataConn, None =>
          err <- send [B "RETR"; path] ;;
          match err with
          | Some e => data_Close dataConn ;; ret (Some e)
          | None =>
              '(resp, code, err) <- receive ;;
              match err with
              | Some e => data_Close dataConn ;; ret (Some e)
              | None =>
                  if negb (ok code)
                  then data_Close dataConn ;;
                       ret (Some (errorMessage (B "RETR") resp))
                  else
                    err <- io_Copy dest (DataConn dataConn) ;;
                    match err with
                    | Some e => data_Close dataConn ;; ret (Some e)
                    | None =>
                        err <- data_Close dataConn ;;
                        match err with
                        | Some e => ret (Some e)
                        | None =>
                            '(resp, code, err) <- receive ;;
                            match err with
                            | Some e => ret (Some e)
                            | None =>
                                if negb (ok code)
                                then ret (Some (errorMessage (B "RETR") resp))
                                else ret None
                            end
                        end
                    end
              end
          end
      end
  end.

Definition upload (cmd path : bytes) (source : endpoint)
  : M (option error) :=
  err <- setBinaryTransfer ;;
  match err with
  | Some e => ret (Some e)
  | None =>
      '(dataConn, err) <- enterPassiveMode ;;
      match dataConn, err with
      | _, Some e => ret (Some e)
      | None, None => panic
      | Some dataConn, None =>
          err <- sendWithoutEmptyString cmd path ;;
          match err with
          | Some e => data_Close dataConn ;; ret (Some e)
          | None =>
              '(resp, code, err) <- receive ;;
              match err with
              | Some e => data_Close dataConn ;; ret (Some e)
              | None =>
                  if negb (ok code)
                  then data_Close dataConn ;;
                       ret (Some (errorMessage cmd resp))
                  else
                    err <- io_Copy (DataConn dataConn) source ;;
                    match err with
                    | Some e => data_Close dataConn ;; ret (Some e)
                    | None =>
                        err <- data_Close dataConn ;;
                        match err with
                        | Some e => ret (Some e)
                        | None =>
                            '(resp, code, err) <- receive ;;
                            match err with
                            | Some e => ret (Some e)
                            | None =>
                                if negb (ok code)
                                then ret (Some (errorMessage cmd resp))
                                else ret None
                            end
                        end
                    end
              end
          end
      end
  end.

Definition Upload (source : endpoint) (path : bytes) : M (option error) :=
  upload (B "STOR") path source.

Definition UploadUnique (source : endpoint) : M (option error) :=
  upload (B "STOU") [] source.

Definition Append (source : endpoint) (path : bytes) : M (option error) :=
  upload (B "APPE") path source.

(* ===================================================================== *)
(** * The earlier revision of [ftp.go] *)
(* ===================================================================== *)

(** What the earlier revision writes differently is repeated here:
    [Abort] without the second reply, and [Download] and [upload], which
    close the data connection on the success path only; and with them the
    listing, the same as later but for the name of the success test, and
    [StatusOf], which compares the codes in place. *)
Module Rev0.

(** Modelled from the spec: the method [responseCode.success] that the
    earlier revision calls is declared in a file that is not part of the
    sources; only its test is.  The spec words it as: a code whose first
    character is 1 or 2 and whose length is exactly 3 is classified
    success, all others (including short codes) are not. *)
Definition success (c : responseCode) : bool :=
  (length c =? 3) &&
  match c with
  | c0 :: _ => byte_eqb c0 "1"%char || byte_eqb c0 "2"%char
  | [] => false
  end.

Definition Abort : M (option error) :=
  '(resp, code, err) <- sendAndReceive [B "ABOR"] ;;
  match err with
  | Some e => ret (Some e)
  | None =>
      if bytes_eqb code noTransferInProgress
         || bytes_eqb code closingDataConnection
      then ret None
      else ret (Some (errorMessage (B "ABOR") resp))
  end.

Definition Download (path : bytes) (dest : endpoint) : M (option error) :=
  err <- setBinaryTransfer ;;
  match err with
  | Some e => ret (Some e)
  | None =>
      '(dataConn, err) <- enterPassiveMode ;;
      match dataConn, err with
      | _, Some e => ret (Some e)
      | None, None => panic
      | Some dataConn, None =>
          err <- send [B "RETR"; path] ;;
          match err with
          | Some e => ret (Some e)
          | None =>
              '(resp, code, err) <- receive ;;
              match err with
              | Some e => ret (Some e)
              | None =>
                  if negb (success code)
                  then ret (Some (errorMessage (B "RETR") resp))
                  else
                    err <- io_Copy dest (DataConn dataConn) ;;
                    match err with
                    | Some e => ret (Some e)
                    | None =>
                        err <- data_Close dataConn ;;
                        match err with
                        | Some e => ret (Some e)
                        | None =>
                            '(resp, code, err) <- receive ;;
                            match err with
                            | Some e => ret (Some e)
                            | None =>
                                if negb (success code)
                                then ret (Some (errorMessage (B "RETR") resp))
                                else ret None
                            end
                        end
                    end
              end
          end
      end
  end.

Definition upload (cmd path : bytes) (source : endpoint)
  : M (option error) :=
  err <- setBinaryTransfer ;;
  match err with
  | Some e => ret (Some e)
  | None =>
      '(dataConn, err) <- enterPassiveMode ;;
      match dataConn, err with
      | _, Some e => ret (Some e)
      | None, None => panic
      | Some dataConn, None =>
          err <- sendWithoutEmptyString cmd path ;;
          match err with
          | Some e => ret (Some e)
          | None =>
              '(resp, code, err) <- receive ;;
              match err with
              | Some e => ret (Some e)
              | None =>
                  if negb (success code)
                  then ret (Some (errorMessage cmd resp))
                  else
                    err <- io_Copy (DataConn dataConn) source ;;
                    match err with
                    | Some e => ret (Some e)
                    | None =>
                        err <- data_Close dataConn ;;
                        match err with
                        | Some e => ret (Some e)
                        | None =>
                            '(resp, code, err) <- receive ;;
                            match err with
                            | Some e => ret (Some e)
                            | None =>
                                if negb (success code)
                                then ret (Some (errorMessage cmd resp))
                                else ret None
                            end
                        end
                    end
              end
          end
      end
  end.

(** The listing of the earlier revision: the one of the later revision
    with [success] for [ok]. *)
Definition readListCommandData (cmd path : bytes)
  : M (bytes * option error) :=
  err <- setASCIITransfer ;;
  match err with
  | Some e => ret ([], Some e)
  | None =>
      '(dataConn, err) <- enterPassiveMode ;;
      match dataConn, err with
      | _, Some e => ret ([], Some e)
      | None, None => panic
      | Some dataConn, None =>
          with_defer (data_Close dataConn)
            (err <- sendWithoutEmptyString cmd path ;;
             match err with
             | Some e => ret ([], Some e)
             | None =>
                 '(resp, code, err) <- receive ;;
                 match err with
                 | Some e => ret ([], Some e)
                 | None =>
                     if negb (success code)
                     then ret ([], Some (errorMessage cmd resp))
                     else
                       '(data, err) <- ioutil_ReadAll (DataConn dataConn) ;;
                       match err with
                       | Some e => ret ([], Some e)
                       | None =>
                           '(resp, code, err) <- receive ;;
                           match err with
                           | Some e => ret ([], Some e)
                           | None =>
                               if negb (success code)
                               then ret ([], Some (errorMessage cmd resp))
                               else ret (data, None)
                           end
                       end
                 end
             end)
      end
  end.

(** [StatusOf] of the earlier revision compares the code with the three
    status codes in place; the later revision has [statusTypeOfCode]. *)
Definition StatusOf (path : bytes) : M (StatusType * bytes * option error) :=
  err <- sendWithoutEmptyString (B "STAT") path ;;
  match err with
  | Some e => ret ([], [], Some e)
  | None =>
      '(resp, code, err) <- receive ;;
      match err with
      | Some e => ret ([], [], Some e)
      | None =>
          if bytes_eqb code systemStatusOrHelpReply
          then text <- call_removeControlSymbols resp ;;
               ret (GeneralStatus, text, None)
          else if bytes_eqb code directoryStatus
          then text <- call_removeControlSymbols resp ;;
               ret (DirectoryStatus, text, None)
          else if bytes_eqb code fileStatus
          then text <- call_removeControlSymbols resp ;;
               ret (FileStatus, text, None)
          else ret ([], [], Some (errorMessage (B "STAT") resp))
      end
  end.

End Rev0.

(** An initial state: a session in representation [t] without logger,
    a control connection that will deliver [input], nothing else
    scripted, no data connection open, empty history. *)
Definition world0 (input : list (bytes + error)) : World :=
  mkWorld input [] [] [] [] 0 [] [] [].

Definition st0 (t : transferType) (input : list (bytes + error)) : St :=
  mkSt (mkConnection false t) (world0 input).

Unset Implicit Arguments.

(* ===================================================================== *)
(** * The vocabulary of the specification *)
(* ===================================================================== *)

(** [contains s sub]: [sub] occurs in [s]. *)
Definition contains (s sub : bytes) : Prop :=
  exists pre post, s = pre ++ sub ++ post.

Definition ends_with (s suffix : bytes) : Prop :=
  exists p, s = p ++ suffix.

Definition starts_with (s prefix : bytes) : Prop :=
  exists t, s = prefix ++ t.

(** [free_of sep u]: the separator [sep] does not occur in [u]. *)
Definition free_of (sep u : bytes) : Prop := ~ contains u sep.

Definition crlf_free (u : bytes) : Prop := ~ contains u CRLF.

(** A single-line reply: at least four bytes, a space at index 3, CR-LF
    at the end. *)
Definition single_line_rule (b : bytes) : Prop :=
  4 <= length b /\ nth_error b 3 = Some SP /\ ends_with b CRLF.

(** A multi-line reply of a buffer that ends with CR-LF: a hyphen at index
    3, and the line just before the closing CR-LF starts with the first
    three bytes of the buffer and a space. *)
Definition multi_line_rule (b : bytes) : Prop :=
  nth_error b 3 = Some HYPHEN /\
  exists head last,
    b = head ++ CRLF ++ last ++ CRLF /\
    crlf_free last /\
    starts_with last (firstn 3 b ++ [SP]).

(** The multi-line rule in terms of the CR-LF segments: a hyphen at index
    3, at least three segments, and the next-to-last segment starts with
    the three-byte code of the first segment and a space. *)
Definition multi_line_rule_segments (b : bytes) : Prop :=
  nth_error b 3 = Some HYPHEN /\
  3 <= length (strings.Split b CRLF) /\
  3 <= length (nth 0 (strings.Split b CRLF) []) /\
  starts_with
    (nth (length (strings.Split b CRLF) - 2) (strings.Split b CRLF) [])
    (firstn 3 (nth 0 (strings.Split b CRLF) []) ++ [SP]).

(** The last segment that is not empty. *)
Definition last_nonempty (segs : list bytes) : option bytes :=
  find (fun l => negb (bytes_eqb l [])) (rev segs).

(** The multi-line rule read with the last non-empty line in the place
    of the line before the closing CR-LF: a hyphen at index 3, at least
    three CR-LF segments, and the last non-empty one starts with the
    three-byte code of the first line and a space. *)
Definition multi_line_rule_last_nonempty (b : bytes) : Prop :=
  nth_error b 3 = Some HYPHEN /\
  3 <= length (strings.Split b CRLF) /\
  exists first last,
    hd_error (strings.Split b CRLF) = Some first /\
    last_nonempty (strings.Split b CRLF) = Some last /\
    3 <= length first /\
    starts_with last (firstn 3 first ++ [SP]).

(** The buffer on which the rule worded with the last non-empty line and
    the code part ways: the closing line is followed by an empty line. *)
Definition reply_with_trailing_empty_line : bytes :=
  B "123-a" ++ CRLF ++ B "123 " ++ CRLF ++ CRLF.

(** The payload of a multi-line reply by the recipe of the specification.
    The reply is the first line, code and hyphen and [body], a CR-LF, and
    the closing line, code and space and [last], with its CR-LF.  Without
    the leading four bytes and without the closing CR-LF, and with the
    code-and-space marker of the closing line taken out, what was before
    the marker ([body] and its CR-LF) and what was behind it ([last])
    are joined. *)
Definition payload_by_recipe (body last : bytes) : bytes :=
  body ++ CRLF ++ last.

(** A multi-line reply whose closing line has no text. *)
Definition reply_with_empty_closing_text : bytes :=
  B "214-a" ++ CRLF ++ B "214 " ++ CRLF.

(** [returns m s P]: from [s], the program [m] returns (it does not
    panic), with a value and in a state that satisfy [P]. *)
Definition returns {A} (m : M A) (s : St) (P : A -> St -> Prop) : Prop :=
  match m s with
  | Done a s' => P a s'
  | Panicked _ => False
  end.

(** The command lines written, oldest first, among the events [evs]. *)
Definition written (evs : list event) : list bytes :=
  rev (flat_map (fun e => match e with
                          | EvWrite msg _ => [msg]
                          | _ => []
                          end) evs).

(** The replies awaited, oldest first, among the events [evs]. *)
Definition replies (evs : list event) : list bytes :=
  rev (flat_map (fun e => match e with
                          | EvReply msg _ => [msg]
                          | _ => []
                          end) evs).

(** The answer the next [Write] on the control connection will get, and
    the outcome of the next [readResponse]. *)
Definition next_write (s : St) : option error :=
  answer None (ctl_out (world s)).

Definition next_reply (s : St) : bytes * option error :=
  fst (readResponseLoop [] (ctl_in (world s))).

Module regexp_spec.
Import regexp.

Definition all_in (p : ascii -> bool) (w : bytes) : Prop :=
  Forall (fun c => p c = true) w.

(** [matches r w c0 c1]: the pattern [r] matches exactly the text [w],
    and the submatches [c0] known before become [c1]. *)
Fixpoint matches (r : regex) (w : bytes) (c0 c1 : captures) : Prop :=
  match r with
  | Lit c => w = [c] /\ c1 = c0
  | Class p => (exists c, w = [c] /\ p c = true) /\ c1 = c0
  | StarClass p => all_in p w /\ c1 = c0
  | PlusClass p => w <> [] /\ all_in p w /\ c1 = c0
  | Cat r1 r2 =>
      exists w1 w2 cm,
        w = w1 ++ w2 /\ matches r1 w1 c0 cm /\ matches r2 w2 cm c1
  | Group i r => exists cm, matches r w c0 cm /\ c1 = (i, w) :: cm
  end.

End regexp_spec.

(** A decimal numeral: one or more digits. *)
Definition numeral (w : bytes) : Prop :=
  w <> [] /\ regexp_spec.all_in regexp.digit w.

(** The number a numeral denotes. *)
Definition numeral_value (w : bytes) : Z :=
  fold_left (fun acc ch => (10 * acc + (Z.of_nat (nat_of_ascii ch) - 48))%Z) w 0%Z.

(** The text [(a,b,c,d,hi,lo)]. *)
Definition tuple_text (a b c d hi lo : bytes) : bytes :=
  B "(" ++ a ++ B "," ++ b ++ B "," ++ c ++ B "," ++ d ++ B ","
    ++ hi ++ B "," ++ lo ++ B ")".

Definition has_tuple (msg : bytes) : Prop :=
  exists pre a b c d hi lo post,
    numeral a /\ numeral b /\ numeral c /\ numeral d /\
    numeral hi /\ numeral lo /\
    msg = pre ++ tuple_text a b c d hi lo ++ post.

(** The address [a.b.c.d:port]. *)
Definition address_text (a b c d : bytes) (port : Z) : bytes :=
  a ++ B "." ++ b ++ B "." ++ c ++ B "." ++ d ++ B ":" ++ strconv.Itoa port.

(** The port the code computes from the two numerals: each is read by
    [Atoi], which stops at the largest [int], and the sum and the product
    are those of the 64-bit [int]. *)
Definition port_of (hi lo : bytes) : Z :=
  int_add (int_mul 256 (Z.min (numeral_value hi) strconv.maxInt))
          (Z.min (numeral_value lo) strconv.maxInt).

(** The reply on which the port leaves the range of [int]:
    the high byte of the port is 2^55. *)
Definition reply_with_huge_port : bytes :=
  B "227 Entering Passive Mode (0,0,0,0,36028797018963968,0)" ++ CRLF.

(** The contract of a transfer with the verb [verb]: it reports success
    only if its last three steps were a copy without error, the closing
    of the data connection without error and a final reply with a success
    code; and when these were its last three steps but the final reply
    carried no success code, it reports the protocol error for [verb]. *)
Definition confirmed_transfer (verb : bytes) (dst src : nat -> endpoint)
           (s : St) (err : option error) (s' : St) : Prop :=
  (err = None ->
   exists id data resp rest,
     events (world s')
     = EvReply resp None :: EvClose id None
         :: EvCopy (dst id) (src id) data None :: rest /\
     ok (extractCode resp) = true) /\
  (forall id data resp rest,
     events (world s')
     = EvReply resp None :: EvClose id None
         :: EvCopy (dst id) (src id) data None :: rest ->
     ok (extractCode resp) = false ->
     err = Some (errorMessage verb resp)).

(** The identifiers of the open data connections are below the next
    identifier that [net.Dial] hands out. *)
Definition ids_fresh (s : St) : Prop :=
  forall j, In j (open_data (world s)) -> j < next_id (world s).

(** A server that enters passive mode and then refuses the file. *)
Definition refusing_server : list (bytes + error) :=
  [inl (B "227 Entering Passive Mode (127,0,0,1,4,1)" ++ CRLF);
   inl (B "550 No such file" ++ CRLF)].

(** A server that enters passive mode and then drops the control
    connection. *)
Definition vanishing_server : list (bytes + error) :=
  [inl (B "227 Entering Passive Mode (127,0,0,1,4,1)" ++ CRLF)].

(** The outcome of the second [readResponse] from [s] on. *)
Definition second_reply (s : St) : bytes * option error :=
  let '(_, _, rest) := readResponseLoop [] (ctl_in (world s)) in
  fst (readResponseLoop [] rest).

Definition ABOR_line : bytes := B "ABOR" ++ CRLF.

(** A server that interrupts the transfer in progress: first the
    intermediate reply 426, then the closing reply 226. *)
Definition aborting_server : list (bytes + error) :=
  [inl (B "426 Connection closed; transfer aborted" ++ CRLF);
   inl (B "226 Abort successful" ++ CRLF)].

(** The representation the session has stored. *)
Definition representation (s : St) : transferType := transferType_of (conn s).

(** The line of a command: its words joined by single spaces, CR-LF. *)
Definition command_line (words : list bytes) : bytes :=
  strings.Join words (B " ") ++ CRLF.

(** [m] never touches the stored representation. *)
Definition keeps_representation {A} (m : M A) : Prop :=
  forall s,
    match m s with
    | Done _ s' | Panicked s' => representation s' = representation s
    end.

(** [m] leaves the stored representation as it is, or it has set it to
    [t] after a [TYPE] command, the first command it wrote, was answered
    with the code 200. *)
Definition switches_by_TYPE_only {A} (m : M A) (t : transferType)
           (symbol : bytes) : Prop :=
  forall s,
    match m s with
    | Done _ s' | Panicked s' =>
        representation s' = representation s \/
        (representation s' = t /\ representation s <> t /\
         next_write s = None /\ snd (next_reply s) = None /\
         extractCode (fst (next_reply s)) = commandOk /\
         exists more,
           written (events (world s'))
           = written (events (world s)) ++ command_line [B "TYPE"; symbol] :: more)
    end.

(** The line of a command whose argument is left out when empty. *)
Definition optional_line (cmd arg : bytes) : bytes :=
  if bytes_eqb arg [] then command_line [cmd] else command_line [cmd; arg].

Definition PASV_line : bytes := command_line [B "PASV"].

Definition TYPE_line (symbol : bytes) : bytes := command_line [B "TYPE"; symbol].

(** The commands of a listing: [PASV] first, then the listing command. *)
Definition listing_commands (cmd path : bytes) (s s' : St) : Prop :=
  written (events (world s')) = written (events (world s)) ++ [PASV_line] \/
  written (events (world s'))
  = written (events (world s)) ++ [PASV_line; optional_line cmd path].

(** The commands of a transfer that has to switch the representation:
    [TYPE I] once, then [PASV], then the transfer command [line]. *)
Definition switching_transfer_commands (line : bytes) (s s' : St) : Prop :=
  written (events (world s')) = written (events (world s)) ++ [TYPE_line (B "I")] \/
  written (events (world s'))
  = written (events (world s)) ++ [TYPE_line (B "I"); PASV_line] \/
  written (events (world s'))
  = written (events (world s)) ++ [TYPE_line (B "I"); PASV_line; line].

(** A help reply behind which the first byte of a further reply has
    arrived in the same read. *)
Definition help_reply_with_trailing_byte : bytes :=
  B "214-Commands" ++ CRLF ++ B "214 Help OK" ++ CRLF ++ B "4".

Definition status_reply_with_trailing_byte : bytes :=
  B "211-Status" ++ CRLF ++ B "211 End" ++ CRLF ++ B "4".

Definition system_reply_with_trailing_byte : bytes :=
  B "215-UNIX" ++ CRLF ++ B "215 Type: L8" ++ CRLF ++ B "4".

(** [panics m s]: from [s], the program [m] panics. *)
Definition panics {A} (m : M A) (s : St) : Prop :=
  match m s with
  | Panicked _ => True
  | Done _ _ => False
  end.

(** ** Further vocabulary *)

(** The bytes that the chunks of successive reads add up to. *)
Definition gathered (chunks : list bytes) : bytes := concat chunks.

(** The text of [names], each closed by the line terminator [eol]. *)
Definition terminated (eol : bytes) (names : list bytes) : bytes :=
  concat (map (fun n => n ++ eol) names).

Definition QUOTE : ascii := ascii_of_nat 34.

(** The separators that [pathMatcher] admits between code and quote. *)
Definition path_separator (c : ascii) : bool :=
  byte_eqb c SP || byte_eqb c "|"%char || byte_eqb c HYPHEN.

(** A reply line with a quoted path: three digits, a separator, the path
    between double quotes, the rest of the line, CR-LF. *)
Definition quoted_path_text (d1 d2 d3 sp : ascii) (path rest : bytes) : bytes :=
  [d1; d2; d3; sp] ++ [QUOTE] ++ path ++ [QUOTE] ++ rest ++ CRLF.

(** The command lines written between the states [s] and [s']. *)
Definition new_written (s s' : St) : list bytes :=
  skipn (length (written (events (world s)))) (written (events (world s'))).

(** What a logger is told of a history: every write and every reply of
    the control connection, with its error. *)
Definition log_view (evs : list event) : list logEntry :=
  flat_map (fun e => match e with
                     | EvWrite msg err => [SentFTP msg err]
                     | EvReply msg err => [ReceivedFTP msg err]
                     | _ => []
                     end) evs.

(** With a logger installed, [m] keeps the record of the logger equal to
    the view of the history. *)
Definition keeps_log {A} (m : M A) : Prop :=
  forall s,
    logger (conn s) = true ->
    logged (world s) = log_view (events (world s)) ->
    match m s with
    | Done _ s' | Panicked s' =>
        logger (conn s') = true /\
        logged (world s') = log_view (events (world s'))
    end.

(** Every bulk transfer of the history comes right after a reply with a
    success code. *)
Fixpoint transfers_guarded (evs : list event) : Prop :=
  match evs with
  | [] => True
  | EvCopy _ _ _ _ :: rest | EvReadAll _ _ _ :: rest =>
      match rest with
      | EvReply resp None :: _ => ok (extractCode resp) = true
      | _ => False
      end /\ transfers_guarded rest
  | _ :: rest => transfers_guarded rest
  end.

Definition USER_line (user : bytes) : bytes := command_line [B "USER"; user].
Definition PASS_line (password : bytes) : bytes := command_line [B "PASS"; password].

(** A reply with a quoted path on one of its lines. *)
Definition has_quoted_path (msg : bytes) : Prop :=
  exists pre d1 d2 d3 sp path rest post,
    regexp.digit d1 = true /\ regexp.digit d2 = true /\
    regexp.digit d3 = true /\ path_separator sp = true /\
    path <> [] /\ ~ In LF path /\ ~ In LF rest /\
    msg = pre ++ quoted_path_text d1 d2 d3 sp path rest ++ post.

(** The replies read between the states [s] and [s']. *)
Definition new_replies (s s' : St) : list bytes :=
  skipn (length (replies (events (world s)))) (replies (events (world s'))).

(** A server that enters passive mode, announces the transfer and
    confirms it. *)
Definition serving_server : list (bytes + error) :=
  [inl (B "227 Entering Passive Mode (127,0,0,1,4,1)" ++ CRLF);
   inl (B "150 Opening data connection" ++ CRLF);
   inl (B "226 Transfer complete" ++ CRLF)].

(** A server that greets with the code 220. *)
Definition greeting_server : list (bytes + error) :=
  [inl (B "220 Service ready" ++ CRLF)].

(** A server that answers with a single-line help text. *)
Definition helping_server : list (bytes + error) :=
  [inl (B "214 Help OK" ++ CRLF)].

(* ===================================================================== *)
(** * Facts about the byte-string helpers *)
(* ===================================================================== *)

Lemma byte_eqb_eq a b : byte_eqb a b = true <-> a = b.
Proof. apply Ascii.eqb_eq. Qed.

Lemma byte_eqb_refl a : byte_eqb a a = true.
Proof. apply byte_eqb_eq; reflexivity. Qed.

Lemma byte_eqb_neq a b : byte_eqb a b = false <-> a <> b.
Proof. apply Ascii.eqb_neq. Qed.

Lemma bytes_eqb_eq s t : bytes_eqb s t = true <-> s = t.
Proof.
  revert t; induction s as [|a s IH]; intros [|b t]; simpl;
    try (split; [discriminate | congruence || discriminate]);
    try (split; congruence).
  rewrite andb_true_iff, byte_eqb_eq, IH. split.
  - intros [-> ->]; reflexivity.
  - intros H; inversion H; auto.
Qed.

Lemma bytes_eqb_refl s : bytes_eqb s s = true.
Proof. apply bytes_eqb_eq; reflexivity. Qed.

Lemma bytes_eqb_neq s t : bytes_eqb s t = false <-> s <> t.
Proof.
  split.
  - intros H E. apply bytes_eqb_eq in E. congruence.
  - intros H. destruct (bytes_eqb s t) eqn:E; auto.
    apply bytes_eqb_eq in E. contradiction.
Qed.

Module strings_facts.
Import strings.

Lemma HasPrefix_iff s p : HasPrefix s p = true <-> starts_with s p.
Proof.
  unfold starts_with. revert s; induction p as [|a p IH]; intros s; simpl.
  - split; [eauto | intros _; destruct s; reflexivity].
  - destruct s as [|c s]; simpl.
    + split; [discriminate | intros [t H]; discriminate].
    + rewrite andb_true_iff, byte_eqb_eq, IH. split.
      * intros [-> [t ->]]. eauto.
      * intros [t H]. inversion H; subst. eauto.
Qed.

Lemma HasPrefix_app p t : HasPrefix (p ++ t) p = true.
Proof. apply HasPrefix_iff. exists t; reflexivity. Qed.

Lemma HasPrefix_nil s : HasPrefix s [] = true.
Proof. destruct s; reflexivity. Qed.

Lemma HasSuffix_iff s suf : HasSuffix s suf = true <-> ends_with s suf.
Proof.
  unfold HasSuffix, ends_with. rewrite andb_true_iff, Nat.leb_le, bytes_eqb_eq.
  split.
  - intros [Hl He]. exists (firstn (length s - length suf) s).
    rewrite <- He at 2. symmetry. apply firstn_skipn.
  - intros [p ->]. rewrite length_app. split; [lia|].
    replace (length p + length suf - length suf) with (length p + 0) by lia.
    rewrite skipn_app, Nat.add_0_r, skipn_all.
    replace (length p - length p) with 0 by lia. reflexivity.
Qed.

Lemma TrimSuffix_app p suf : TrimSuffix (p ++ suf) suf = p.
Proof.
  unfold TrimSuffix.
  assert (H : HasSuffix (p ++ suf) suf = true)
    by (apply HasSuffix_iff; exists p; reflexivity).
  rewrite H, length_app.
  replace (length p + length suf - length suf) with (length p + 0) by lia.
  rewrite firstn_app_2. simpl. apply app_nil_r.
Qed.

Lemma TrimSuffix_id s suf : ~ ends_with s suf -> TrimSuffix s suf = s.
Proof.
  intros H. unfold TrimSuffix.
  destruct (HasSuffix s suf) eqn:E; auto.
  apply HasSuffix_iff in E. contradiction.
Qed.

Lemma index_nil sep :
  index [] sep = if HasPrefix [] sep then Some 0 else None.
Proof. reflexivity. Qed.

Lemma index_cons c s sep :
  index (c :: s) sep =
  if HasPrefix (c :: s) sep then Some 0 else option_map S (index s sep).
Proof. reflexivity. Qed.

Lemma index_cons_app sep t : index (sep ++ t) sep = Some 0.
Proof.
  destruct (sep ++ t) eqn:E.
  - rewrite index_nil. rewrite <- E, HasPrefix_app. reflexivity.
  - rewrite index_cons. rewrite <- E, HasPrefix_app. reflexivity.
Qed.

Lemma HasPrefix_nil_l sep : HasPrefix [] sep = true -> sep = [].
Proof. destruct sep; [reflexivity | discriminate]. Qed.

(** [index] finds an occurrence, and the leftmost one. *)
Lemma index_Some s sep i :
  index s sep = Some i ->
  s = firstn i s ++ sep ++ skipn (i + length sep) s /\ i + length sep <= length s.
Proof.
  revert i; induction s as [|c s IH]; intros i.
  - rewrite index_nil. destruct (HasPrefix [] sep) eqn:E; [|discriminate].
    intros [= <-]. apply HasPrefix_nil_l in E. subst. simpl; auto.
  - rewrite index_cons. destruct (HasPrefix (c :: s) sep) eqn:E.
    + intros [= <-]. apply HasPrefix_iff in E as [t Ht].
      rewrite Ht at 1 3. rewrite Ht.
      change (0 + length sep) with (length sep).
      rewrite skipn_app, skipn_all, Nat.sub_diag.
      simpl. rewrite length_app. split; [reflexivity | lia].
    + destruct (index s sep) as [j|] eqn:Ej; simpl; [|discriminate].
      intros [= <-]. destruct (IH j eq_refl) as [H1 H2].
      split; [simpl; f_equal; exact H1 | simpl; lia].
Qed.

Lemma index_None s sep : index s sep = None <-> ~ contains s sep.
Proof.
  unfold contains. induction s as [|c s IH].
  - rewrite index_nil. destruct (HasPrefix [] sep) eqn:E.
    + split; [discriminate|]. intros H. exfalso. apply H.
      apply HasPrefix_nil_l in E. subst. exists [], []. reflexivity.
    + split; auto. intros _ (pre & post & H).
      destruct pre; [|discriminate]. destruct sep; discriminate.
  - rewrite index_cons. destruct (HasPrefix (c :: s) sep) eqn:E.
    + split; [discriminate|]. intros H. exfalso. apply H.
      apply HasPrefix_iff in E as [t Ht]. exists [], t. exact Ht.
    + destruct (index s sep) as [j|] eqn:Ej; simpl.
      * split; [discriminate|]. intros H. exfalso. apply H.
        apply index_Some in Ej as [Ej _].
        exists (c :: firstn j s), (skipn (j + length sep) s).
        simpl. f_equal. exact Ej.
      * split; auto. intros _ (pre & post & H).
        destruct pre as [|x pre].
        -- simpl in H. assert (HasPrefix (c :: s) sep = true)
             by (apply HasPrefix_iff; exists post; exact H). congruence.
        -- inversion H; subst. apply (proj1 IH eq_refl). eauto.
Qed.

Lemma contains_app_l s t sub : contains s sub -> contains (s ++ t) sub.
Proof.
  intros (pre & post & ->). exists pre, (post ++ t).
  rewrite <- !app_assoc. reflexivity.
Qed.

Lemma contains_app_r s t sub : contains t sub -> contains (s ++ t) sub.
Proof.
  intros (pre & post & ->). exists (s ++ pre), post.
  rewrite <- !app_assoc. reflexivity.
Qed.

Lemma contains_cons c s sub : contains s sub -> contains (c :: s) sub.
Proof. apply (contains_app_r [c]). Qed.

Lemma firstn_index_free s sep i :
  sep <> [] -> index s sep = Some i -> ~ contains (firstn i s) sep.
Proof.
  intros Hsep. revert i; induction s as [|c s IH]; intros i.
  - rewrite index_nil. destruct (HasPrefix [] sep) eqn:E; [|discriminate].
    apply HasPrefix_nil_l in E. congruence.
  - rewrite index_cons. destruct (HasPrefix (c :: s) sep) eqn:E.
    + intros [= <-]. simpl. intros (pre & post & H).
      destruct pre; destruct sep; try discriminate; congruence.
    + destruct (index s sep) as [j|] eqn:Ej; simpl; [|discriminate].
      intros [= <-]. simpl. intros (pre & post & H).
      destruct pre as [|x pre].
      * simpl in H.
        assert (HasPrefix (c :: s) sep = true); [|congruence].
        apply HasPrefix_iff. exists (post ++ skipn j s).
        rewrite <- (firstn_skipn j s) at 1.
        rewrite app_comm_cons, H, <- !app_assoc. reflexivity.
      * inversion H; subst. apply (IH j eq_refl). exists pre, post. assumption.
Qed.

End strings_facts.

(** ** [Split] and [Join] for a separator that does not overlap itself *)
Section SplitJoin.
Import strings strings_facts.

Variable sep : bytes.
Hypothesis sep_nonempty : sep <> [].
(** Behind a text free of the separator, the first occurrence of the
    separator is the one that was appended. *)
Hypothesis sep_first :
  forall u t, ~ contains u sep -> index (u ++ sep ++ t) sep = Some (length u).

Local Abbreviation sep_free := (free_of sep).

Lemma index_nil_sep : index [] sep = None.
Proof.
  rewrite index_nil. destruct (HasPrefix [] sep) eqn:E; auto.
  apply HasPrefix_nil_l in E. contradiction.
Qed.

Lemma sep_length : 1 <= length sep.
Proof. destruct sep; [contradiction | simpl; lia]. Qed.

Lemma genSplit_rounds n m s :
  length s <= n -> length s <= m -> genSplit n s sep = genSplit m s sep.
Proof.
  revert m s; induction n as [|n IH]; intros m s Hn Hm.
  - destruct s; [|simpl in Hn; lia].
    destruct m; cbn [genSplit]; [reflexivity | rewrite index_nil_sep; reflexivity].
  - destruct m as [|m].
    + destruct s; [|simpl in Hm; lia].
      cbn [genSplit]. rewrite index_nil_sep. reflexivity.
    + cbn [genSplit]. destruct (index s sep) as [i|] eqn:E; [|reflexivity].
      f_equal. apply index_Some in E as [_ E]. pose proof sep_length.
      apply IH; rewrite length_skipn; lia.
Qed.

Lemma Split_eq s :
  Split s sep =
  match index s sep with
  | None => [s]
  | Some m => firstn m s :: Split (skipn (m + length sep) s) sep
  end.
Proof.
  unfold Split. destruct s as [|c s].
  - rewrite index_nil_sep. reflexivity.
  - change (genSplit (length (c :: s)) (c :: s) sep)
      with (match index (c :: s) sep with
            | None => [c :: s]
            | Some m => firstn m (c :: s)
                        :: genSplit (length s) (skipn (m + length sep) (c :: s)) sep
            end).
    destruct (index (c :: s) sep) as [i|] eqn:E; [|reflexivity].
    f_equal. apply index_Some in E as [_ E]. pose proof sep_length.
    apply genSplit_rounds; [rewrite length_skipn; cbn [length]; lia | lia].
Qed.

Lemma Split_free u : sep_free u -> Split u sep = [u].
Proof.
  intros H. rewrite Split_eq. apply index_None in H. rewrite H. reflexivity.
Qed.

Lemma Split_cons u t :
  sep_free u -> Split (u ++ sep ++ t) sep = u :: Split t sep.
Proof.
  intros H. rewrite Split_eq, (sep_first _ t H).
  rewrite firstn_app, firstn_all, Nat.sub_diag. simpl firstn. rewrite app_nil_r.
  rewrite app_assoc, <- length_app, skipn_app, skipn_all, Nat.sub_diag.
  reflexivity.
Qed.

Lemma Split_not_nil s : Split s sep <> [].
Proof. rewrite Split_eq. destruct (index s sep); discriminate. Qed.

Lemma Join_cons u segs :
  segs <> [] -> Join (u :: segs) sep = u ++ sep ++ Join segs sep.
Proof. destruct segs; [contradiction | reflexivity]. Qed.

Lemma Split_Join segs :
  segs <> [] -> Forall sep_free segs -> Split (Join segs sep) sep = segs.
Proof.
  induction segs as [|u segs IH]; [contradiction|]. intros _ H.
  inversion H as [|? ? Hu Hs]; subst. destruct segs as [|v segs].
  - simpl. apply Split_free. exact Hu.
  - rewrite Join_cons by discriminate. rewrite Split_cons by exact Hu.
    f_equal. apply IH; [discriminate | exact Hs].
Qed.

Lemma Join_Split_bounded n s : length s <= n -> Join (Split s sep) sep = s.
Proof.
  revert s; induction n as [|n IH]; intros s Hn; rewrite Split_eq.
  - destruct s; [|simpl in Hn; lia]. rewrite index_nil_sep. reflexivity.
  - destruct (index s sep) as [i|] eqn:E; [|reflexivity].
    rewrite Join_cons by apply Split_not_nil.
    pose proof (index_Some _ _ _ E) as [E1 E2]. pose proof sep_length.
    rewrite IH by (rewrite length_skipn; lia). symmetry. exact E1.
Qed.

Lemma Join_Split s : Join (Split s sep) sep = s.
Proof. apply (Join_Split_bounded (length s)). lia. Qed.

Lemma Split_sep_free_bounded n s :
  length s <= n -> Forall sep_free (Split s sep).
Proof.
  revert s; induction n as [|n IH]; intros s Hn; rewrite Split_eq.
  - destruct s; [|simpl in Hn; lia]. rewrite index_nil_sep.
    constructor; [|constructor]. apply index_None, index_nil_sep.
  - destruct (index s sep) as [i|] eqn:E.
    + constructor.
      * apply firstn_index_free; assumption.
      * pose proof (index_Some _ _ _ E) as [E1 E2]. pose proof sep_length.
        apply IH. rewrite length_skipn. lia.
    + constructor; [|constructor]. apply index_None. exact E.
Qed.

Lemma Split_sep_free s : Forall sep_free (Split s sep).
Proof. apply (Split_sep_free_bounded (length s)). lia. Qed.

Lemma Join_app hs ts :
  hs <> [] -> ts <> [] ->
  Join (hs ++ ts) sep = Join hs sep ++ sep ++ Join ts sep.
Proof.
  intros Hh Ht. induction hs as [|h hs IH]; [contradiction|].
  destruct hs as [|h' hs].
  - simpl app. apply Join_cons. exact Ht.
  - change ((h :: h' :: hs) ++ ts) with (h :: (h' :: hs) ++ ts).
    rewrite Join_cons by discriminate.
    rewrite IH by discriminate. rewrite (Join_cons h) by discriminate.
    rewrite <- !app_assoc. reflexivity.
Qed.

(** Splitting distributes over a separator put between two texts. *)
Lemma Split_app h t :
  Split (h ++ sep ++ t) sep = Split h sep ++ Split t sep.
Proof.
  rewrite <- (Join_Split h) at 1. rewrite <- (Join_Split t) at 1.
  rewrite <- Join_app by apply Split_not_nil.
  apply Split_Join.
  - intros H. apply app_eq_nil in H as [H _]. exact (Split_not_nil _ H).
  - apply Forall_app. split; apply Split_sep_free.
Qed.

End SplitJoin.

(** ** The separators of the client: CR-LF, the comma and the line feed *)

Lemma CR_neq_LF : CR <> LF.
Proof. discriminate. Qed.

Lemma CRLF_nonempty : CRLF <> [].
Proof. discriminate. Qed.

Lemma crlf_free_tail c u : crlf_free (c :: u) -> crlf_free u.
Proof. intros H Hc. apply H. apply strings_facts.contains_cons. exact Hc. Qed.

Lemma crlf_free_not_head u t : ~ crlf_free (CR :: LF :: u ++ t) .
Proof. intros H. apply H. exists [], (u ++ t). reflexivity. Qed.

Lemma CRLF_first u t :
  crlf_free u -> strings.index (u ++ CRLF ++ t) CRLF = Some (length u).
Proof.
  induction u as [|x u IH]; intros Hu.
  - change ([] ++ CRLF ++ t) with (CRLF ++ t).
    rewrite strings_facts.index_cons_app. reflexivity.
  - change ((x :: u) ++ CRLF ++ t) with (x :: (u ++ CRLF ++ t)).
    rewrite strings_facts.index_cons.
    destruct (strings.HasPrefix (x :: u ++ CRLF ++ t) CRLF) eqn:E.
    + exfalso. apply strings_facts.HasPrefix_iff in E as [r Hr].
      destruct u as [|y u]; simpl in Hr; inversion Hr; subst.
      apply Hu. exists [], u. reflexivity.
    + rewrite IH by (eapply crlf_free_tail; eassumption). reflexivity.
Qed.

Lemma single_byte_first (c : ascii) u t :
  ~ contains u [c] -> strings.index (u ++ [c] ++ t) [c] = Some (length u).
Proof.
  induction u as [|x u IH]; intros Hu.
  - change ([] ++ [c] ++ t) with ([c] ++ t).
    rewrite strings_facts.index_cons_app. reflexivity.
  - change ((x :: u) ++ [c] ++ t) with (x :: (u ++ [c] ++ t)).
    rewrite strings_facts.index_cons.
    destruct (strings.HasPrefix (x :: u ++ [c] ++ t) [c]) eqn:E.
    + exfalso. apply strings_facts.HasPrefix_iff in E as [r Hr].
      inversion Hr; subst. apply Hu. exists [], u. reflexivity.
    + rewrite IH; [reflexivity|].
      intros Hc. apply Hu. apply strings_facts.contains_cons. exact Hc.
Qed.

Lemma contains_single (c : ascii) u : contains u [c] <-> In c u.
Proof.
  split.
  - intros (pre & post & ->). apply in_or_app. right. left. reflexivity.
  - intros H. apply in_split in H as (l1 & l2 & ->). exists l1, l2. reflexivity.
Qed.

(** The last occurrence of CR-LF in front of a text free of it. *)
Lemma lastIndex_crlf_free w :
  crlf_free w -> strings.lastIndex w CRLF = None.
Proof.
  induction w as [|x w IH]; intros Hw; [reflexivity|].
  cbn [strings.lastIndex]. rewrite IH by (eapply crlf_free_tail; eassumption).
  destruct (strings.HasPrefix (x :: w) CRLF) eqn:E; [|reflexivity].
  exfalso. apply strings_facts.HasPrefix_iff in E as [r Hr].
  apply Hw. exists [], r. exact Hr.
Qed.

Lemma lastIndex_app_crlf body w :
  crlf_free w -> strings.lastIndex (body ++ CRLF ++ w) CRLF = Some (length body).
Proof.
  intros Hw. induction body as [|x body IH].
  - change ([] ++ CRLF ++ w) with (CR :: LF :: w).
    cbn [strings.lastIndex]. rewrite (lastIndex_crlf_free _ Hw).
    destruct (strings.HasPrefix (LF :: w) CRLF) eqn:E.
    + apply strings_facts.HasPrefix_iff in E as [r Hr]. discriminate.
    + assert (H : strings.HasPrefix (CR :: LF :: w) CRLF = true)
        by (apply (strings_facts.HasPrefix_app CRLF w)).
      rewrite H. reflexivity.
  - change ((x :: body) ++ CRLF ++ w) with (x :: (body ++ CRLF ++ w)).
    cbn [strings.lastIndex]. rewrite IH. reflexivity.
Qed.

(** A text free of CR-LF that does not end in CR stays free of CR-LF
    when anything is appended; what matters below is the weaker fact
    that a free text does not end with CR-LF. *)
Lemma crlf_free_not_ends_with w : crlf_free w -> ~ ends_with w CRLF.
Proof. intros H [p ->]. apply H. exists p, []. reflexivity. Qed.

Lemma Split_crlf_app h t :
  strings.Split (h ++ CRLF ++ t) CRLF = strings.Split h CRLF ++ strings.Split t CRLF.
Proof. apply Split_app; [exact CRLF_nonempty | exact CRLF_first]. Qed.

Lemma Split_crlf_free u : crlf_free u -> strings.Split u CRLF = [u].
Proof. apply Split_free; [exact CRLF_nonempty | exact CRLF_first]. Qed.

Lemma Split_crlf_cons u t :
  crlf_free u -> strings.Split (u ++ CRLF ++ t) CRLF = u :: strings.Split t CRLF.
Proof. apply Split_cons; [exact CRLF_nonempty | exact CRLF_first]. Qed.

Lemma Split_crlf_all_free s : Forall crlf_free (strings.Split s CRLF).
Proof. apply Split_sep_free; [exact CRLF_nonempty | exact CRLF_first]. Qed.

Lemma Join_Split_crlf s : strings.Join (strings.Split s CRLF) CRLF = s.
Proof. apply Join_Split; [exact CRLF_nonempty | exact CRLF_first]. Qed.

Lemma Split_crlf_not_nil s : strings.Split s CRLF <> [].
Proof. apply Split_not_nil; [exact CRLF_nonempty | exact CRLF_first]. Qed.

Lemma Split_crlf_nil : strings.Split [] CRLF = [[]].
Proof. reflexivity. Qed.

(** The first segment is a prefix of the text, followed by CR-LF when
    there is a further segment. *)
Lemma Split_crlf_first s :
  exists first rest,
    strings.Split s CRLF = first :: rest /\
    (rest = [] /\ s = first \/ exists tail, s = first ++ CRLF ++ tail).
Proof.
  pose proof (Join_Split_crlf s) as HJ.
  destruct (strings.Split s CRLF) as [|first rest] eqn:E.
  - exfalso. exact (Split_crlf_not_nil _ E).
  - exists first, rest. split; [reflexivity|].
    destruct rest as [|r rest].
    + left. split; [reflexivity|]. symmetry. exact HJ.
    + right. exists (strings.Join (r :: rest) CRLF). symmetry. exact HJ.
Qed.

(* ===================================================================== *)
(** * The reply framer *)
(* ===================================================================== *)

Lemma byte_at_is_iff msg i ch :
  byte_at_is msg i ch = true <-> nth_error msg i = Some ch.
Proof.
  unfold byte_at_is. destruct (nth_error msg i) as [c|].
  - rewrite byte_eqb_eq. split; congruence.
  - split; discriminate.
Qed.

Lemma isSingleLineResponse_iff msg :
  isSingleLineResponse msg = true <->
  4 <= length msg /\ nth_error msg 3 = Some SP.
Proof.
  unfold isSingleLineResponse.
  rewrite andb_true_iff, Nat.leb_le, byte_at_is_iff. reflexivity.
Qed.

Lemma isMultiLineResponse_iff msg :
  isMultiLineResponse msg = true <-> nth_error msg 3 = Some HYPHEN.
Proof.
  unfold isMultiLineResponse.
  rewrite andb_true_iff, Nat.leb_le, byte_at_is_iff. split.
  - intros [_ H]; exact H.
  - intros H. split; [|exact H].
    assert (3 < length msg) by (apply nth_error_Some; congruence). lia.
Qed.

Lemma endsInNewLine_iff msg :
  endsInNewLine msg = true <-> ends_with msg CRLF.
Proof.
  unfold endsInNewLine, ends_with. split.
  - destruct (length msg <? 2) eqn:El; [discriminate|].
    apply Nat.ltb_ge in El.
    rewrite andb_true_iff, !byte_at_is_iff. intros [H1 H2].
    assert (Hd : exists p r, msg = p ++ r /\ length r = 2).
    { exists (firstn (length msg - 2) msg), (skipn (length msg - 2) msg).
      split; [symmetry; apply firstn_skipn | rewrite length_skipn; lia]. }
    destruct Hd as (p & r & -> & Hr). exists p. f_equal.
    rewrite length_app, Hr in H1, H2.
    rewrite nth_error_app2 in H1, H2 by lia.
    replace (length p + 2 - 2 - length p) with 0 in H1 by lia.
    replace (length p + 2 - 1 - length p) with 1 in H2 by lia.
    destruct r as [|x [|y [|z r]]]; simpl in Hr; try lia.
    simpl in H1, H2. unfold CRLF. congruence.
  - intros [p ->]. rewrite length_app. simpl length.
    destruct (length p + 2 <? 2) eqn:El; [apply Nat.ltb_lt in El; lia|].
    rewrite andb_true_iff, !byte_at_is_iff.
    rewrite !nth_error_app2 by lia.
    replace (length p + 2 - 2 - length p) with 0 by lia.
    replace (length p + 2 - 1 - length p) with 1 by lia.
    split; reflexivity.
Qed.

(** ** The rules of the reply framer, in words *)

Lemma isCompleteSingleLineResponse_iff b :
  isCompleteSingleLineResponse b = true <-> single_line_rule b.
Proof.
  unfold isCompleteSingleLineResponse, single_line_rule.
  rewrite andb_true_iff, isSingleLineResponse_iff, endsInNewLine_iff. tauto.
Qed.

Lemma Join_crlf_snoc init last :
  init <> [] ->
  strings.Join (init ++ [last]) CRLF = strings.Join init CRLF ++ CRLF ++ last.
Proof.
  intros H. induction init as [|h init IH]; [contradiction|].
  destruct init as [|h' init].
  - reflexivity.
  - change ((h :: h' :: init) ++ [last]) with (h :: (h' :: init) ++ [last]).
    change (strings.Join (h :: (h' :: init) ++ [last]) CRLF)
      with (h ++ CRLF ++ strings.Join ((h' :: init) ++ [last]) CRLF).
    rewrite IH by discriminate.
    change (strings.Join (h :: h' :: init) CRLF)
      with (h ++ CRLF ++ strings.Join (h' :: init) CRLF).
    rewrite <- !app_assoc. reflexivity.
Qed.

Lemma Join_crlf_head first rest :
  exists x, strings.Join (first :: rest) CRLF = first ++ x.
Proof.
  destruct rest as [|r rest].
  - exists []. simpl. symmetry. apply app_nil_r.
  - exists (CRLF ++ strings.Join (r :: rest) CRLF). reflexivity.
Qed.

Lemma nth_length_app (A : Type) (l : list A) x r d :
  nth (length l) (l ++ x :: r) d = x.
Proof.
  rewrite app_nth2 by lia. rewrite Nat.sub_diag. reflexivity.
Qed.

Lemma lastLine_of_multi_line_rule b :
  multi_line_rule b -> lastLineEndsInSameCodeAsFirstLine b = true.
Proof.
  intros [H3 (head & last & Hb & Hfree & [t Ht])].
  assert (Hlen : 3 < length b) by (apply nth_error_Some; congruence).
  assert (Hsplit : strings.Split b CRLF = strings.Split head CRLF ++ [last; []]).
  { rewrite Hb, Split_crlf_app. f_equal.
    rewrite <- (app_nil_r (last ++ CRLF)), <- app_assoc.
    rewrite Split_crlf_cons by exact Hfree. reflexivity. }
  destruct (Split_crlf_first head) as (first & rest & E & Hcase).
  assert (Hfirst : exists tl, b = first ++ CRLF ++ tl).
  { destruct Hcase as [[_ Hh] | [tail Hh]]; rewrite Hb, Hh.
    - eauto.
    - exists (tail ++ CRLF ++ last ++ CRLF). rewrite <- !app_assoc. reflexivity. }
  destruct Hfirst as [tl Htl].
  unfold lastLineEndsInSameCodeAsFirstLine. cbv zeta.
  rewrite Hsplit, E.
  assert (Hl : length ((first :: rest) ++ [last; []]) = length (first :: rest) + 2)
    by (rewrite length_app; reflexivity).
  rewrite Hl.
  replace (length (first :: rest) + 2 - 2) with (length (first :: rest)) by lia.
  rewrite nth_length_app.
  destruct (length (first :: rest) + 2 <? 3) eqn:E3;
    [apply Nat.ltb_lt in E3; simpl in E3; lia|].
  change (nth 0 ((first :: rest) ++ [last; []]) []) with first.
  destruct first as [|f1 [|f2 [|f3 first']]]; rewrite Htl in Ht, H3.
  - exfalso. apply Hfree. rewrite Ht. exists [], (firstn 1 tl ++ [SP] ++ t).
    simpl. rewrite <- !app_assoc. reflexivity.
  - exfalso. apply Hfree. rewrite Ht. exists [f1], ([SP] ++ t). reflexivity.
  - simpl in H3. discriminate.
  - simpl in Ht. rewrite Ht. simpl.
    rewrite !byte_eqb_refl. reflexivity.
Qed.

Lemma multi_line_rule_of_lastLine b :
  ends_with b CRLF -> nth_error b 3 = Some HYPHEN ->
  lastLineEndsInSameCodeAsFirstLine b = true -> multi_line_rule b.
Proof.
  intros [p ->] H3 H. split; [exact H3|].
  assert (Hsplit : strings.Split (p ++ CRLF) CRLF = strings.Split p CRLF ++ [[]]).
  { rewrite <- (app_nil_r (p ++ CRLF)), <- app_assoc.
    rewrite Split_crlf_app. reflexivity. }
  destruct (exists_last (Split_crlf_not_nil p)) as (init & last & E).
  pose proof (Split_crlf_all_free p) as Hall. rewrite E in Hall.
  apply Forall_app in Hall as [_ Hlast]. inversion Hlast as [|? ? Hfree _]; subst.
  pose proof (Join_Split_crlf p) as HJ. rewrite E in HJ.
  unfold lastLineEndsInSameCodeAsFirstLine in H. cbv zeta in H.
  rewrite Hsplit, E in H. rewrite <- app_assoc in H.
  assert (Hl : length (init ++ [last] ++ [[]]) = length init + 2)
    by (rewrite length_app; simpl; lia).
  rewrite Hl in H.
  destruct (length init + 2 <? 3) eqn:E3; [discriminate|].
  apply Nat.ltb_ge in E3.
  replace (length init + 2 - 2) with (length init) in H by lia.
  change ([last] ++ [[]]) with (last :: [[]]) in H.
  rewrite nth_length_app in H.
  destruct init as [|first init]; [simpl in E3; lia|].
  change (nth 0 ((first :: init) ++ last :: [[]]) []) with first in H.
  destruct ((length first <? 3) || (length last <? 4)) eqn:E4; [discriminate|].
  apply orb_false_iff in E4 as [Ef El].
  apply Nat.ltb_ge in Ef. apply Nat.ltb_ge in El.
  apply bytes_eqb_eq in H.
  rewrite Join_crlf_snoc in HJ by discriminate.
  exists (strings.Join (first :: init) CRLF), last.
  split; [|split].
  - rewrite <- HJ. rewrite <- !app_assoc. reflexivity.
  - exact Hfree.
  - exists (skipn 4 last).
    assert (Hb3 : firstn 3 (p ++ CRLF) = firstn 3 first).
    { destruct (Join_crlf_head first init) as [x Hx].
      rewrite <- HJ, Hx, <- !app_assoc.
      rewrite firstn_app.
      replace (3 - length first) with 0 by lia.
      simpl firstn at 2. apply app_nil_r. }
    rewrite Hb3, <- H. symmetry. apply firstn_skipn.
Qed.

Lemma multi_line_rule_ends_with b : multi_line_rule b -> ends_with b CRLF.
Proof.
  intros [_ (head & last & -> & _)]. exists (head ++ CRLF ++ last).
  rewrite <- !app_assoc. reflexivity.
Qed.

(** The line before the closing CR-LF is determined by the buffer. *)
Lemma last_line_unique head last head' last' :
  crlf_free last -> crlf_free last' ->
  head ++ CRLF ++ last ++ CRLF = head' ++ CRLF ++ last' ++ CRLF ->
  last = last'.
Proof.
  intros Hf Hf' E.
  assert (H : forall h l, crlf_free l ->
            strings.Split (h ++ CRLF ++ l ++ CRLF) CRLF
            = (strings.Split h CRLF ++ [l]) ++ [[]]).
  { intros h l Hl. rewrite Split_crlf_app.
    rewrite <- (app_nil_r (l ++ CRLF)), <- (app_assoc l).
    rewrite Split_crlf_cons by exact Hl. rewrite <- app_assoc. reflexivity. }
  apply (f_equal (fun s => strings.Split s CRLF)) in E.
  rewrite !H in E by assumption.
  apply app_inj_tail in E as [E _]. apply app_inj_tail in E as [_ E]. exact E.
Qed.

(** The cases of [ftp_test.go] for the framer. *)
Example isCompleteResponse_tests :
  isCompleteResponse (B "123 optional text" ++ CRLF) = true /\
  isCompleteResponse (B "456 " ++ CRLF) = true /\
  isCompleteResponse [] = false /\
  isCompleteResponse (B "12") = false /\
  isCompleteResponse (B "456") = false /\
  isCompleteResponse (B "789 ") = false /\
  isCompleteResponse (B "321 " ++ [CR]) = false /\
  isCompleteResponse (B "564 " ++ [LF]) = false /\
  isCompleteResponse (B "98 " ++ CRLF) = false /\
  isCompleteResponse (B "123-some text" ++ CRLF ++ B "123 " ++ CRLF) = true /\
  isCompleteResponse (B "123-" ++ CRLF ++ B "line2" ++ CRLF
                      ++ B "123no space" ++ CRLF ++ B "123 " ++ CRLF) = true /\
  isCompleteResponse (B "123-some text" ++ CRLF ++ B "next line" ++ CRLF
                      ++ B "123 " ++ CRLF) = true /\
  isCompleteResponse (B "123-some text" ++ CRLF) = false /\
  isCompleteResponse (B "123-some text" ++ CRLF ++ B "123" ++ CRLF) = false /\
  isCompleteResponse (B "123-some text" ++ CRLF ++ B "123 " ++ [CR]) = false /\
  isCompleteResponse (B "123-some text" ++ CRLF ++ B "123no space" ++ CRLF) = false /\
  isCompleteResponse (B "123-STAT" ++ CRLF) = false.
Proof. repeat split; vm_compute; reflexivity. Qed.

Lemma lastLine_iff_segments b :
  lastLineEndsInSameCodeAsFirstLine b = true <->
  3 <= length (strings.Split b CRLF) /\
  3 <= length (nth 0 (strings.Split b CRLF) []) /\
  starts_with
    (nth (length (strings.Split b CRLF) - 2) (strings.Split b CRLF) [])
    (firstn 3 (nth 0 (strings.Split b CRLF) []) ++ [SP]).
Proof.
  unfold lastLineEndsInSameCodeAsFirstLine. cbv zeta.
  set (lines := strings.Split b CRLF).
  set (first := nth 0 lines []). set (last := nth (length lines - 2) lines []).
  destruct (length lines <? 3) eqn:E3.
  - apply Nat.ltb_lt in E3. split; [discriminate | intros [H _]; lia].
  - apply Nat.ltb_ge in E3.
    destruct (length first <? 3) eqn:Ef; cbn [orb].
    + apply Nat.ltb_lt in Ef. split; [discriminate | intros (_ & H & _); lia].
    + apply Nat.ltb_ge in Ef.
      assert (Hc : length (firstn 3 first ++ [SP]) = 4)
        by (rewrite length_app, length_firstn, Nat.min_l by lia; reflexivity).
      destruct (length last <? 4) eqn:El.
      * apply Nat.ltb_lt in El. split; [discriminate|].
        intros (_ & _ & [t Ht]). apply (f_equal (@length ascii)) in Ht.
        rewrite !length_app, length_firstn in Ht. cbn [length] in Ht. lia.
      * rewrite bytes_eqb_eq. split.
        -- intros H. repeat split; auto. exists (skipn 4 last).
           rewrite <- H. symmetry. apply firstn_skipn.
        -- intros (_ & _ & [t Ht]). rewrite Ht.
           rewrite firstn_app, Hc. simpl firstn at 2. rewrite app_nil_r.
           rewrite <- Hc. apply firstn_all.
Qed.

(** C1 (as amended). For every buffer that ends with CR-LF, or whose byte
    at index 3 is not a hyphen, [isCompleteResponse] holds exactly when the
    buffer obeys the single-line rule (at least 4 bytes, a space at index
    3, CR-LF at the end) or the multi-line rule (a hyphen at index 3, at
    least 3 CR-LF segments, and the next-to-last segment starts with the
    three-byte code of the first line followed by a space); and that
    next-to-last segment is the line immediately before the closing
    CR-LF. *)
Theorem isCompleteResponse_rules (b : bytes) :
  ends_with b CRLF \/ nth_error b 3 <> Some HYPHEN ->
  (isCompleteResponse b = true <->
   single_line_rule b \/ multi_line_rule_segments b) /\
  (multi_line_rule_segments b <-> multi_line_rule b).
Proof.
  intros Hb.
  assert (Hseg : multi_line_rule_segments b <->
                 nth_error b 3 = Some HYPHEN /\
                 lastLineEndsInSameCodeAsFirstLine b = true)
    by (unfold multi_line_rule_segments; rewrite lastLine_iff_segments; tauto).
  split.
  - unfold isCompleteResponse, isCompleteMultiLineResponse.
    rewrite orb_true_iff, andb_true_iff, isCompleteSingleLineResponse_iff,
      isMultiLineResponse_iff, Hseg. tauto.
  - rewrite Hseg. split.
    + intros [H3 Hl]. destruct Hb as [He | Hn]; [|contradiction].
      apply multi_line_rule_of_lastLine; assumption.
    + intros Hm. split; [exact (proj1 Hm)|].
      apply lastLine_of_multi_line_rule. exact Hm.
Qed.

(** Without any assumption on the buffer, the framer is the single-line
    rule or the rule on the segments. *)
Lemma isCompleteResponse_iff_segments b :
  isCompleteResponse b = true <->
  single_line_rule b \/ multi_line_rule_segments b.
Proof.
  unfold isCompleteResponse, isCompleteMultiLineResponse, multi_line_rule_segments.
  rewrite orb_true_iff, andb_true_iff, isCompleteSingleLineResponse_iff,
    isMultiLineResponse_iff, lastLine_iff_segments. tauto.
Qed.

Lemma isCompleteResponse_iff_rules b :
  ends_with b CRLF \/ nth_error b 3 <> Some HYPHEN ->
  (isCompleteResponse b = true <-> single_line_rule b \/ multi_line_rule b).
Proof.
  intros Hb.
  assert (Hseg : multi_line_rule_segments b <->
                 nth_error b 3 = Some HYPHEN /\
                 lastLineEndsInSameCodeAsFirstLine b = true)
    by (unfold multi_line_rule_segments; rewrite lastLine_iff_segments; tauto).
  unfold isCompleteResponse, isCompleteMultiLineResponse.
  rewrite orb_true_iff, andb_true_iff, isCompleteSingleLineResponse_iff,
    isMultiLineResponse_iff.
  split.
  - intros [Hs | [H3 Hl]]; [left; exact Hs | right].
    destruct Hb as [He | Hn]; [|contradiction].
    apply multi_line_rule_of_lastLine; assumption.
  - intros [Hs | Hm]; [left; exact Hs | right].
    split; [exact (proj1 Hm) | apply lastLine_of_multi_line_rule; exact Hm].
Qed.

Lemma isCompleteResponse_rules_witness :
  (isCompleteResponse (B "123-some text" ++ CRLF ++ B "123 " ++ CRLF) = true <->
   single_line_rule (B "123-some text" ++ CRLF ++ B "123 " ++ CRLF) \/
   multi_line_rule_segments (B "123-some text" ++ CRLF ++ B "123 " ++ CRLF)) /\
  (multi_line_rule_segments (B "123-some text" ++ CRLF ++ B "123 " ++ CRLF) <->
   multi_line_rule (B "123-some text" ++ CRLF ++ B "123 " ++ CRLF)).
Proof.
  apply (isCompleteResponse_rules (B "123-some text" ++ CRLF ++ B "123 " ++ CRLF)).
  left. exists (B "123-some text" ++ CRLF ++ B "123 "). reflexivity.
Defined.

(** In particular, a closing line that starts with the code of the first
    line but is not followed by a space does not complete the reply ... *)
Lemma continuation_without_space_incomplete head last :
  crlf_free last ->
  nth_error (head ++ CRLF ++ last ++ CRLF) 3 = Some HYPHEN ->
  ~ starts_with last (firstn 3 (head ++ CRLF ++ last ++ CRLF) ++ [SP]) ->
  isCompleteResponse (head ++ CRLF ++ last ++ CRLF) = false.
Proof.
  intros Hf H3 Hn.
  destruct (isCompleteResponse (head ++ CRLF ++ last ++ CRLF)) eqn:E; [|reflexivity].
  exfalso. apply isCompleteResponse_iff_rules in E.
  - destruct E as [(_ & Hs & _) | (_ & head' & last' & Hb & Hf' & Hst)].
    + rewrite H3 in Hs. discriminate.
    + apply last_line_unique in Hb; [|assumption|assumption].
      subst last'. contradiction.
  - left. exists (head ++ CRLF ++ last). rewrite <- !app_assoc. reflexivity.
Qed.

(** ... and an empty line among the continuation lines is allowed. *)
Lemma empty_continuation_line_allowed c1 c2 c3 text rest :
  crlf_free (c1 :: c2 :: c3 :: SP :: rest) ->
  isCompleteResponse
    ([c1; c2; c3; HYPHEN] ++ text ++ CRLF ++ CRLF
       ++ (c1 :: c2 :: c3 :: SP :: rest) ++ CRLF) = true.
Proof.
  intros Hf. apply isCompleteResponse_iff_rules.
  - left. exists ([c1; c2; c3; HYPHEN] ++ text ++ CRLF ++ CRLF
                  ++ (c1 :: c2 :: c3 :: SP :: rest)).
    rewrite <- !app_assoc. reflexivity.
  - right. split; [reflexivity|].
    exists ([c1; c2; c3; HYPHEN] ++ text ++ CRLF), (c1 :: c2 :: c3 :: SP :: rest).
    split; [rewrite <- !app_assoc; reflexivity|].
    split; [exact Hf|]. exists rest. reflexivity.
Qed.

Lemma isCompleteResponse_last_nonempty_counterexample :
  ~ (isCompleteResponse reply_with_trailing_empty_line = true <->
     single_line_rule reply_with_trailing_empty_line \/
     multi_line_rule_last_nonempty reply_with_trailing_empty_line).
Proof.
  intros [_ H].
  assert (E : isCompleteResponse reply_with_trailing_empty_line = false)
    by (vm_compute; reflexivity).
  rewrite E in H. enough (false = true) by discriminate. apply H.
  right. split; [reflexivity|]. split; [vm_compute; lia|].
  exists (B "123-a"), (B "123 "). repeat split.
  - vm_compute; lia.
  - exists []. reflexivity.
Qed.

(* ===================================================================== *)
(** * Payload extraction *)
(* ===================================================================== *)

Lemma slice_from_app p r : slice_from (p ++ r) (Z.of_nat (length p)) = Some r.
Proof.
  unfold slice_from. rewrite length_app, Nat2Z.id.
  destruct ((0 <=? Z.of_nat (length p))%Z
            && (Z.of_nat (length p) <=? Z.of_nat (length p + length r))%Z) eqn:E.
  - rewrite skipn_app, skipn_all, Nat.sub_diag. reflexivity.
  - apply andb_false_iff in E as [E | E];
      [apply Z.leb_gt in E | apply Z.leb_gt in E]; lia.
Qed.

Lemma slice_to_app p r : slice_to (p ++ r) (Z.of_nat (length p)) = Some p.
Proof.
  unfold slice_to. rewrite length_app, Nat2Z.id.
  destruct ((0 <=? Z.of_nat (length p))%Z
            && (Z.of_nat (length p) <=? Z.of_nat (length p + length r))%Z) eqn:E.
  - rewrite firstn_app, firstn_all, Nat.sub_diag. simpl. rewrite app_nil_r.
    reflexivity.
  - apply andb_false_iff in E as [E | E];
      [apply Z.leb_gt in E | apply Z.leb_gt in E]; lia.
Qed.

Lemma slice_from_out_of_range s lo :
  (Z.of_nat (length s) < lo)%Z -> slice_from s lo = None.
Proof.
  intros H. unfold slice_from.
  destruct (0 <=? lo)%Z; simpl; [|reflexivity].
  destruct (lo <=? Z.of_nat (length s))%Z eqn:E; [|reflexivity].
  apply Z.leb_le in E. lia.
Qed.

Lemma ends_with_app_short x w suf :
  ends_with (x ++ w) suf -> length suf <= length w -> ends_with w suf.
Proof.
  intros [p Hp] Hl. apply app_eq_app in Hp as [l [[Hx Hs] | [Hx Hs]]].
  - assert (l = []).
    { apply (f_equal (@length ascii)) in Hs. rewrite length_app in Hs.
      destruct l; [reflexivity | simpl in Hs; lia]. }
    subst l. simpl in Hs. subst suf. exists []. reflexivity.
  - exists l. exact Hs.
Qed.

(** A text that continues behind a CR-LF with a non-empty line free of
    CR-LF does not end with CR-LF. *)
Lemma not_ends_with_crlf_line x w :
  crlf_free w -> w <> [] -> ~ ends_with (x ++ CRLF ++ w) CRLF.
Proof.
  intros Hf Hw He.
  apply ends_with_app_short in He; [|simpl; destruct w; [contradiction|simpl; lia]].
  destruct He as [q Hq].
  destruct q as [|a [|b q]]; simpl in Hq.
  - inversion Hq; subst. contradiction.
  - inversion Hq.
  - inversion Hq; subst. apply Hf. exists q, []. reflexivity.
Qed.

Lemma crlf_free_app_not_ends_with x w :
  crlf_free w -> 2 <= length w -> ~ ends_with (x ++ w) CRLF.
Proof.
  intros Hf Hl He. apply ends_with_app_short in He; [|exact Hl].
  exact (crlf_free_not_ends_with w Hf He).
Qed.

Lemma crlf_free_app_r x w : crlf_free (x ++ w) -> crlf_free w.
Proof.
  intros H Hc. apply H. apply strings_facts.contains_app_r. exact Hc.
Qed.

Lemma slice_from_4 c1 c2 c3 c4 r :
  slice_from ([c1; c2; c3; c4] ++ r) 4 = Some r.
Proof. exact (slice_from_app [c1; c2; c3; c4] r). Qed.

(** The text of the single-line reply [code SP text CR LF]. *)
Lemma removeControlSymbols_single_line c1 c2 c3 text :
  removeControlSymbols ([c1; c2; c3; SP] ++ text ++ CRLF) = Some text.
Proof.
  unfold removeControlSymbols.
  rewrite slice_from_4.
  rewrite strings_facts.TrimSuffix_app. reflexivity.
Qed.

(** The text of a multi-line reply whose closing line is
    [marker ++ last], with a 4-byte marker: the lines before it, then
    [last]; the CR-LF in front of an empty [last] goes as well. *)
Lemma removeControlSymbols_spliced c1 c2 c3 body m1 m2 m3 m4 last tail :
  crlf_free ([m1; m2; m3; m4] ++ last) ->
  strings.TrimSuffix (body ++ CRLF ++ [m1; m2; m3; m4] ++ last ++ tail) CRLF
  = body ++ CRLF ++ [m1; m2; m3; m4] ++ last ->
  removeControlSymbols
    ([c1; c2; c3; HYPHEN] ++ body ++ CRLF ++ [m1; m2; m3; m4] ++ last ++ tail)
  = Some (match last with
          | [] => body
          | _ :: _ => body ++ CRLF ++ last
          end).
Proof.
  intros Hf Htrim. unfold removeControlSymbols.
  rewrite slice_from_4. rewrite Htrim.
  assert (Hs : isSingleLineResponse
            ([c1; c2; c3; HYPHEN] ++ body ++ CRLF ++ [m1; m2; m3; m4] ++ last ++ tail)
          = false) by reflexivity.
  rewrite Hs. unfold strings.LastIndex.
  rewrite (lastIndex_app_crlf body _ Hf).
  replace (Z.of_nat (length body) + 2)%Z
    with (Z.of_nat (length (body ++ CRLF)))
    by (rewrite length_app; simpl; lia).
  replace (Z.of_nat (length body) + 6)%Z
    with (Z.of_nat (length (body ++ CRLF ++ [m1; m2; m3; m4])))
    by (rewrite length_app; simpl; lia).
  replace (body ++ CRLF ++ [m1; m2; m3; m4] ++ last)
    with ((body ++ CRLF) ++ [m1; m2; m3; m4] ++ last) at 1
    by (rewrite <- !app_assoc; reflexivity).
  rewrite slice_to_app.
  replace (body ++ CRLF ++ [m1; m2; m3; m4] ++ last)
    with ((body ++ CRLF ++ [m1; m2; m3; m4]) ++ last)
    by (rewrite <- !app_assoc; reflexivity).
  rewrite slice_from_app. f_equal.
  destruct last as [|l last].
  - rewrite app_nil_r. apply strings_facts.TrimSuffix_app.
  - rewrite <- app_assoc. apply strings_facts.TrimSuffix_id.
    apply not_ends_with_crlf_line; [|discriminate].
    exact (crlf_free_app_r _ _ Hf).
Qed.

Example removeControlSymbols_tests :
  removeControlSymbols (B "214 some help text" ++ CRLF)
  = Some (B "some help text") /\
  removeControlSymbols (B "214-multi line" ++ CRLF ++ B "help" ++ CRLF
                        ++ B "214 over" ++ CRLF)
  = Some (B "multi line" ++ CRLF ++ B "help" ++ CRLF ++ B "over") /\
  removeControlSymbols (B "214-last line is empty" ++ CRLF ++ B "thus stripped"
                        ++ CRLF ++ B "214 ")
  = Some (B "last line is empty" ++ CRLF ++ B "thus stripped").
Proof. repeat split. Qed.

(** C3. [removeControlSymbols] drops the leading four bytes (code and
    separator) and the closing CR-LF; for a multi-line reply it also drops
    the code-and-space marker of the closing line and joins what is
    before and behind it, as the recipe of the specification says,
    whenever the closing line has a text.  When the closing line has no
    text, the CR-LF in front of it is dropped as well: the payload is the
    lines before the closing line.  In particular "214 text CRLF" gives
    "text" and "214-a CRLF b CRLF 214 c" (no closing CR-LF) gives
    "a CRLF b CRLF c". *)
Theorem removeControlSymbols_payload (c1 c2 c3 : ascii) (text body last : bytes) :
  crlf_free ([c1; c2; c3; SP] ++ last) ->
  removeControlSymbols ([c1; c2; c3; SP] ++ text ++ CRLF) = Some text /\
  (last <> [] ->
   removeControlSymbols
     ([c1; c2; c3; HYPHEN] ++ body ++ CRLF ++ [c1; c2; c3; SP] ++ last ++ CRLF)
   = Some (payload_by_recipe body last) /\
   removeControlSymbols
     ([c1; c2; c3; HYPHEN] ++ body ++ CRLF ++ [c1; c2; c3; SP] ++ last)
   = Some (payload_by_recipe body last)) /\
  (last = [] ->
   removeControlSymbols
     ([c1; c2; c3; HYPHEN] ++ body ++ CRLF ++ [c1; c2; c3; SP] ++ last ++ CRLF)
   = Some body /\
   removeControlSymbols
     ([c1; c2; c3; HYPHEN] ++ body ++ CRLF ++ [c1; c2; c3; SP] ++ last)
   = Some body) /\
  removeControlSymbols (B "214 text" ++ CRLF) = Some (B "text") /\
  removeControlSymbols (B "214-a" ++ CRLF ++ B "b" ++ CRLF ++ B "214 c")
  = Some (B "a" ++ CRLF ++ B "b" ++ CRLF ++ B "c").
Proof.
  intros Hf.
  assert (H1 : removeControlSymbols
                 ([c1; c2; c3; HYPHEN] ++ body ++ CRLF
                    ++ [c1; c2; c3; SP] ++ last ++ CRLF)
               = Some (match last with
                       | [] => body
                       | _ :: _ => body ++ CRLF ++ last
                       end)).
  { apply removeControlSymbols_spliced; [exact Hf|].
    replace (body ++ CRLF ++ [c1; c2; c3; SP] ++ last ++ CRLF)
      with ((body ++ CRLF ++ [c1; c2; c3; SP] ++ last) ++ CRLF)
      by (rewrite <- !app_assoc; reflexivity).
    apply strings_facts.TrimSuffix_app. }
  assert (H2 : removeControlSymbols
                 ([c1; c2; c3; HYPHEN] ++ body ++ CRLF
                    ++ [c1; c2; c3; SP] ++ last)
               = Some (match last with
                       | [] => body
                       | _ :: _ => body ++ CRLF ++ last
                       end)).
  { rewrite <- (app_nil_r last) at 1.
    apply removeControlSymbols_spliced; [exact Hf|].
    rewrite app_nil_r. apply strings_facts.TrimSuffix_id.
    apply crlf_free_app_not_ends_with
      with (x := body ++ CRLF) (w := [c1; c2; c3; SP] ++ last) in Hf.
    - rewrite <- app_assoc in Hf. exact Hf.
    - simpl. lia. }
  split; [apply removeControlSymbols_single_line|].
  split.
  { intros Hne. destruct last as [|l last]; [contradiction|].
    unfold payload_by_recipe. split; [exact H1 | exact H2]. }
  split.
  { intros E. subst last. split; [exact H1 | exact H2]. }
  split; reflexivity.
Qed.

Lemma removeControlSymbols_payload_witness :
  removeControlSymbols (B "214 text" ++ CRLF) = Some (B "text") /\
  removeControlSymbols (B "214-a" ++ CRLF ++ B "b" ++ CRLF ++ B "214 c" ++ CRLF)
  = Some (B "a" ++ CRLF ++ B "b" ++ CRLF ++ B "c").
Proof.
  assert (Hf : crlf_free ([ "2"; "1"; "4"; SP ]%char ++ B "c")).
  { apply strings_facts.index_None. reflexivity. }
  assert (Hne : B "c" <> []) by discriminate.
  destruct (removeControlSymbols_payload "2"%char "1"%char "4"%char
              (B "text") (B "a" ++ CRLF ++ B "b") (B "c") Hf)
    as (H1 & H2 & _).
  split; [exact H1 | exact (proj1 (H2 Hne))].
Defined.

(** The recipe keeps the CR-LF in front of a closing line without text;
    [removeControlSymbols] drops it, as the third case of the test of
    the help texts expects. *)
Lemma removeControlSymbols_empty_closing_text_counterexample :
  reply_with_empty_closing_text
  = [ "2"; "1"; "4"; HYPHEN ]%char ++ B "a" ++ CRLF
      ++ [ "2"; "1"; "4"; SP ]%char ++ [] ++ CRLF /\
  removeControlSymbols reply_with_empty_closing_text = Some (B "a") /\
  payload_by_recipe (B "a") [] = B "a" ++ CRLF /\
  removeControlSymbols reply_with_empty_closing_text
  <> Some (payload_by_recipe (B "a") []).
Proof.
  split; [reflexivity|]. split; [reflexivity|]. split; [reflexivity|].
  vm_compute. discriminate.
Qed.

(* ===================================================================== *)
(** * Running the operations *)
(* ===================================================================== *)

(** Symbolic execution: unfold the monad and the primitives, and split
    on whatever the run inspects next. *)
Ltac unfold_run :=
  cbv beta iota zeta delta
    [returns bind ret panic with_defer get_conn set_conn get_world set_world
     emit log conn_Write net_Dial data_Close io_Copy ioutil_ReadAll
     send sendWithoutEmptyString readResponse receive sendAndReceive
     executeGetResponse execute call_removeControlSymbols
     conn world logger transferType_of
     ctl_in ctl_out dial_res xfer_res close_res next_id open_data events logged
     next_write next_reply fst snd negb transferType_eqb] in *.

Ltac no_match_inside x :=
  lazymatch x with
  | context [match _ with _ => _ end] => fail
  | _ => idtac
  end.

Ltac split_run :=
  match goal with
  | |- context [match ?x with _ => _ end] =>
      no_match_inside x; first [is_var x; destruct x | destruct x eqn:?]
  end.

Ltac run := unfold_run; repeat (split_run; unfold_run).

Ltac destruct_state s :=
  let lg := fresh "lg" in let ty := fresh "ty" in
  let ci := fresh "ci" in let co := fresh "co" in
  let dr := fresh "dr" in let xr := fresh "xr" in let cr := fresh "cr" in
  let ni := fresh "ni" in let od := fresh "od" in
  let ev := fresh "ev" in let lgd := fresh "lgd" in
  destruct s as [[lg ty] [ci co dr xr cr ni od ev lgd]].

(* ===================================================================== *)
(** * The command/reply engine *)
(* ===================================================================== *)

Lemma executeGetResponse_run expectedCode verb args s :
  let msg := strings.Join (verb :: args) (B " ") ++ CRLF in
  let resp := fst (next_reply s) in
  returns (executeGetResponse expectedCode (verb :: args)) s
    (fun r s' =>
       conn s' = conn s /\
       match next_write s with
       | Some e =>
           r = ([], Some e) /\
           events (world s') = EvWrite msg (Some e) :: events (world s)
       | None =>
           events (world s')
           = EvReply resp (snd (next_reply s)) :: EvWrite msg None
               :: events (world s) /\
           match snd (next_reply s) with
           | Some e => r = ([], Some e)
           | None =>
               if bytes_eqb (extractCode resp) expectedCode
               then r = (resp, None)
               else r = ([], Some (errorMessage verb resp))
           end
       end).
Proof.
  destruct_state s. intros msg resp. subst msg resp. unfold executeGetResponse.
  run; auto.
Qed.

Lemma written_write msg err evs :
  written (EvWrite msg err :: evs) = written evs ++ [msg].
Proof. reflexivity. Qed.

Lemma written_reply msg err evs : written (EvReply msg err :: evs) = written evs.
Proof. unfold written. simpl. reflexivity. Qed.

Lemma written_dial addr res evs : written (EvDial addr res :: evs) = written evs.
Proof. unfold written. simpl. reflexivity. Qed.

Lemma written_copy dst src data err evs :
  written (EvCopy dst src data err :: evs) = written evs.
Proof. unfold written. simpl. reflexivity. Qed.

Lemma written_readall src data err evs :
  written (EvReadAll src data err :: evs) = written evs.
Proof. unfold written. simpl. reflexivity. Qed.

Lemma written_close id err evs : written (EvClose id err :: evs) = written evs.
Proof. unfold written. simpl. reflexivity. Qed.

Lemma written_close_control evs : written (EvCloseControl :: evs) = written evs.
Proof. unfold written. simpl. reflexivity. Qed.

Create Rewrite HintDb history.
#[local] Hint Rewrite written_write written_reply written_dial written_copy
  written_readall written_close written_close_control : history.

(** A reply that [readResponse] hands over without error is framed. *)
Lemma readResponseLoop_complete input : forall all msg rest,
  readResponseLoop all input = (msg, None, rest) ->
  isCompleteResponse msg = true.
Proof.
  induction input as [|[chunk | e] input IH]; intros all msg rest H; simpl in H.
  - discriminate.
  - destruct (isCompleteResponse (all ++ chunk)) eqn:E.
    + inversion H; subst. exact E.
    + eapply IH; eassumption.
  - discriminate.
Qed.

Lemma next_reply_complete s :
  snd (next_reply s) = None -> isCompleteResponse (fst (next_reply s)) = true.
Proof.
  unfold next_reply.
  destruct (readResponseLoop [] (ctl_in (world s))) as [[msg err] rest] eqn:E.
  simpl. intros ->. eapply readResponseLoop_complete; eassumption.
Qed.

Lemma execute_run expectedCode verb args s :
  let msg := strings.Join (verb :: args) (B " ") ++ CRLF in
  let resp := fst (next_reply s) in
  returns (execute expectedCode (verb :: args)) s
    (fun err s' =>
       conn s' = conn s /\
       match next_write s with
       | Some e =>
           err = Some e /\
           events (world s') = EvWrite msg (Some e) :: events (world s)
       | None =>
           events (world s')
           = EvReply resp (snd (next_reply s)) :: EvWrite msg None
               :: events (world s) /\
           match snd (next_reply s) with
           | Some e => err = Some e
           | None =>
               if bytes_eqb (extractCode resp) expectedCode
               then err = None
               else err = Some (errorMessage verb resp)
           end
       end).
Proof.
  destruct_state s. intros msg resp. subst msg resp.
  unfold execute, executeGetResponse. run; auto.
Qed.

Lemma sendWithoutEmptyString_run cmd arg s :
  returns (sendWithoutEmptyString cmd arg) s
    (fun err s' =>
       conn s' = conn s /\ err = next_write s /\
       events (world s')
       = EvWrite (match arg with
                  | [] => cmd ++ CRLF
                  | _ :: _ => cmd ++ B " " ++ arg ++ CRLF
                  end) (next_write s) :: events (world s)).
Proof.
  destruct_state s.
  destruct arg as [|a arg]; unfold sendWithoutEmptyString; cbn [bytes_eqb];
    run; simpl; rewrite <- ?app_assoc; auto.
Qed.

(** C2 (as amended). [executeGetResponse] (and [execute], which drops the
    reply) writes the one line made of the verb and all its arguments
    joined by single spaces, closed by CR-LF; an empty argument is joined
    like any other, the elision of an empty argument being the business
    of [sendWithoutEmptyString].  If the write fails, its error is
    returned and no reply is awaited.  Otherwise exactly one framed reply
    is awaited: a transport error is returned as it is; else the call
    succeeds, with the reply, exactly when the code of the reply equals
    the expected code, and any other code gives the error that carries
    the verb and the full reply text. *)
Theorem executeGetResponse_contract
        (expectedCode : responseCode) (verb : bytes) (args : list bytes) (s : St) :
  let msg := strings.Join (verb :: args) (B " ") ++ CRLF in
  let resp := fst (next_reply s) in
  let failure :=
    errorString (B "FTP server responded to " ++ verb ++ B " with error: " ++ resp) in
  returns (executeGetResponse expectedCode (verb :: args)) s
    (fun r s' =>
       match next_write s with
       | Some e =>
           r = ([], Some e) /\
           events (world s') = EvWrite msg (Some e) :: events (world s)
       | None =>
           events (world s')
           = EvReply resp (snd (next_reply s)) :: EvWrite msg None
               :: events (world s) /\
           match snd (next_reply s) with
           | Some e => r = ([], Some e)
           | None =>
               isCompleteResponse resp = true /\
               (extractCode resp = expectedCode -> r = (resp, None)) /\
               (extractCode resp <> expectedCode -> r = ([], Some failure))
           end
       end) /\
  returns (execute expectedCode (verb :: args)) s
    (fun err s' =>
       (err = None <->
        next_write s = None /\ snd (next_reply s) = None /\
        extractCode resp = expectedCode) /\
       written (events (world s')) = written (events (world s)) ++ [msg]) /\
  returns (sendWithoutEmptyString verb []) s
    (fun _ s' =>
       written (events (world s')) = written (events (world s)) ++ [verb ++ CRLF]).
Proof.
  intros msg resp failure. split; [|split].
  - pose proof (executeGetResponse_run expectedCode verb args s) as H.
    pose proof (next_reply_complete s) as Hc.
    unfold returns in *. cbv zeta in H.
    destruct (executeGetResponse expectedCode (verb :: args) s) as [r s'|]; auto.
    destruct H as [_ H]. fold msg resp in H.
    destruct (next_write s); auto.
    destruct H as [He H]. split; [exact He|].
    destruct (snd (next_reply s)); auto.
    split; [auto|].
    destruct (bytes_eqb (extractCode resp) expectedCode) eqn:E.
    + apply bytes_eqb_eq in E. split; [auto | intros; contradiction].
    + apply bytes_eqb_neq in E. split; [intros; contradiction | auto].
  - pose proof (execute_run expectedCode verb args s) as H.
    unfold returns in *. cbv zeta in H.
    destruct (execute expectedCode (verb :: args) s) as [err s'|]; auto.
    destruct H as [_ H]. fold msg resp in H.
    destruct (next_write s) as [e|].
    + destruct H as [-> ->]. split.
      * split; [discriminate | intros [? _]; discriminate].
      * autorewrite with history. reflexivity.
    + destruct H as [-> H]. split.
      * destruct (snd (next_reply s)) as [e|].
        -- subst err. split; [discriminate | intros (_ & ? & _); discriminate].
        -- destruct (bytes_eqb (extractCode resp) expectedCode) eqn:E; subst err.
           ++ apply bytes_eqb_eq in E. tauto.
           ++ apply bytes_eqb_neq in E.
              split; [discriminate | intros (_ & _ & ?); contradiction].
      * autorewrite with history. reflexivity.
  - pose proof (sendWithoutEmptyString_run verb [] s) as H.
    unfold returns in *.
    destruct (sendWithoutEmptyString verb [] s) as [err s'|]; auto.
    destruct H as (_ & _ & ->). autorewrite with history. reflexivity.
Qed.

(** An empty sole argument is not elided by [execute]: the line written
    for [CWD] with the empty path keeps the separating space. *)
Lemma execute_empty_argument_counterexample :
  ~ returns (execute fileActionCompleted [B "CWD"; []])
      (st0 transferASCII [inl (B "250 ok" ++ CRLF)])
      (fun _ s' => written (events (world s')) = [B "CWD" ++ CRLF]).
Proof. vm_compute. discriminate. Qed.

Example execute_empty_argument_line :
  returns (execute fileActionCompleted [B "CWD"; []])
    (st0 transferASCII [inl (B "250 ok" ++ CRLF)])
    (fun err s' =>
       err = None /\ written (events (world s')) = [B "CWD " ++ CRLF]).
Proof. vm_compute. split; reflexivity. Qed.

(* ===================================================================== *)
(** * The backtracking matcher finds exactly the matches *)
(* ===================================================================== *)

Module regexp_facts.
Import regexp regexp_spec.

Lemma star_greedy_sound (R : Type) p s (k : bytes -> option R) res :
  star_greedy p s k = Some res ->
  exists w s', s = w ++ s' /\ all_in p w /\ k s' = Some res.
Proof.
  induction s as [|c s IH]; simpl; intros H.
  - exists [], []. repeat split; [constructor | exact H].
  - destruct (p c) eqn:Ep.
    + destruct (star_greedy p s k) as [r|] eqn:Es.
      * inversion H; subst. destruct (IH eq_refl) as (w & s' & -> & Hw & Hk).
        exists (c :: w), s'. repeat split; [constructor; assumption | exact Hk].
      * exists [], (c :: s). repeat split; [constructor | exact H].
    + exists [], (c :: s). repeat split; [constructor | exact H].
Qed.

Lemma star_greedy_none (R : Type) p s (k : bytes -> option R) :
  k s <> None -> star_greedy p s k <> None.
Proof.
  destruct s as [|c s]; simpl; intros H; [exact H|].
  destruct (p c); [|exact H].
  destruct (star_greedy p s k); [discriminate | exact H].
Qed.

Lemma star_greedy_complete (R : Type) p w s' (k : bytes -> option R) :
  all_in p w -> k s' <> None -> star_greedy p (w ++ s') k <> None.
Proof.
  intros Hw Hk. induction Hw as [|c w Hc Hw IH].
  - apply star_greedy_none. exact Hk.
  - simpl. rewrite Hc.
    destruct (star_greedy p (w ++ s') k); [discriminate | contradiction].
Qed.

Lemma run_sound (R : Type) r : forall s caps (k : bytes -> captures -> option R) res,
  run r s caps k = Some res ->
  exists w s' caps',
    s = w ++ s' /\ matches r w caps caps' /\ k s' caps' = Some res.
Proof.
  induction r as [c | p | p | p | r1 IH1 r2 IH2 | i r IH];
    intros s caps k res H; simpl in H.
  - destruct s as [|x s]; [discriminate|].
    destruct (byte_eqb x c) eqn:E; [|discriminate].
    apply byte_eqb_eq in E. subst x.
    exists [c], s, caps. simpl. auto.
  - destruct s as [|x s]; [discriminate|].
    destruct (p x) eqn:E; [|discriminate].
    exists [x], s, caps. simpl. eauto 6.
  - apply star_greedy_sound in H as (w & s' & -> & Hw & Hk).
    exists w, s', caps. simpl. auto.
  - destruct s as [|x s]; [discriminate|].
    destruct (p x) eqn:E; [|discriminate].
    apply star_greedy_sound in H as (w & s' & -> & Hw & Hk).
    exists (x :: w), s', caps. simpl. repeat split; auto.
    + discriminate.
    + constructor; assumption.
  - apply IH1 in H as (w1 & s1 & c1 & -> & H1 & H).
    apply IH2 in H as (w2 & s2 & c2 & -> & H2 & H).
    exists (w1 ++ w2), s2, c2. rewrite <- app_assoc. repeat split; auto.
    simpl. exists w1, w2, c1. auto.
  - apply IH in H as (w & s' & c' & -> & Hm & H).
    rewrite length_app in H.
    replace (length w + length s' - length s') with (length w + 0) in H by lia.
    rewrite firstn_app_2 in H. simpl in H. rewrite app_nil_r in H.
    exists w, s', ((i, w) :: c'). repeat split; auto.
    simpl. exists c'. auto.
Qed.

Lemma run_complete (R : Type) r : forall w c0 c1,
  matches r w c0 c1 ->
  forall s' caps (k : bytes -> captures -> option R),
    (forall c, k s' c <> None) -> run r (w ++ s') caps k <> None.
Proof.
  induction r as [c | p | p | p | r1 IH1 r2 IH2 | i r IH];
    intros w c0 c1 Hm s' caps k Hk; simpl in Hm; simpl.
  - destruct Hm as [-> _]. simpl. rewrite byte_eqb_refl. apply Hk.
  - destruct Hm as [(c & -> & Hp) _]. simpl. rewrite Hp. apply Hk.
  - destruct Hm as [Hw _]. apply star_greedy_complete; auto.
  - destruct Hm as (Hne & Hw & _). destruct w as [|x w]; [contradiction|].
    inversion Hw; subst. simpl.
    match goal with H : p x = true |- _ => rewrite H end.
    apply star_greedy_complete; auto.
  - destruct Hm as (w1 & w2 & cm & -> & H1 & H2).
    rewrite <- app_assoc. eapply IH1; [exact H1|].
    intros c. eapply IH2; [exact H2 | exact Hk].
  - destruct Hm as (cm & Hm & _). eapply IH; [exact Hm|].
    intros c. apply Hk.
Qed.

(** [search] reports a match exactly when some part of the text matches,
    and its submatches are those of a match. *)
Lemma search_sound r s caps :
  search r s = Some caps ->
  exists pre w post, s = pre ++ w ++ post /\ matches r w [] caps.
Proof.
  induction s as [|x s IH]; simpl; intros H.
  - destruct (run r [] [] (fun _ c => Some c)) as [c|] eqn:E; [|discriminate].
    inversion H; subst.
    apply run_sound in E as (w & s' & c' & Hs & Hm & Hk).
    inversion Hk; subst. exists [], w, s'. auto.
  - destruct (run r (x :: s) [] (fun _ c => Some c)) as [c|] eqn:E.
    + inversion H; subst.
      apply run_sound in E as (w & s' & c' & Hs & Hm & Hk).
      inversion Hk; subst. exists [], w, s'. auto.
    + destruct (IH H) as (pre & w & post & -> & Hm).
      exists (x :: pre), w, post. auto.
Qed.

Lemma search_complete r pre w post c0 c1 :
  matches r w c0 c1 -> search r (pre ++ w ++ post) <> None.
Proof.
  intros Hm. induction pre as [|x pre IH].
  - assert (H : run r (w ++ post) [] (fun _ c => Some c) <> None)
      by (eapply run_complete; [exact Hm | discriminate]).
    simpl app. destruct (w ++ post); simpl;
      destruct (run r _ [] (fun _ c => Some c)); try discriminate; contradiction.
  - simpl. destruct (run r (x :: pre ++ w ++ post) [] (fun _ c => Some c));
      [discriminate | exact IH].
Qed.

End regexp_facts.

(* ===================================================================== *)
(** * Passive address extraction *)
(* ===================================================================== *)

Lemma digit_not c x : regexp.digit c = true -> regexp.digit x = false -> c <> x.
Proof. intros H1 H2 ->. congruence. Qed.

Lemma all_digits_not_in w x :
  regexp_spec.all_in regexp.digit w -> regexp.digit x = false -> ~ In x w.
Proof.
  intros Hw Hx Hin. unfold regexp_spec.all_in in Hw.
  rewrite Forall_forall in Hw. apply Hw in Hin. congruence.
Qed.

Lemma parse_digits_value w : forall acc,
  regexp_spec.all_in regexp.digit w ->
  strconv.parse_digits acc w
  = Some (fold_left (fun acc ch => (10 * acc + (Z.of_nat (nat_of_ascii ch) - 48))%Z)
                    w acc).
Proof.
  induction w as [|c w IH]; intros acc Hw; [reflexivity|].
  inversion Hw as [|? ? Hc Hw']; subst. simpl.
  unfold strconv.digit_val. rewrite Hc. rewrite IH by exact Hw'.
  do 2 f_equal. unfold regexp.digit in Hc.
  apply andb_true_iff in Hc as [Hc _]. apply Nat.leb_le in Hc. lia.
Qed.

Lemma Atoi_numeral w :
  numeral w -> fst (strconv.Atoi w) = Z.min (numeral_value w) strconv.maxInt.
Proof.
  intros [Hne Hw]. unfold strconv.Atoi. destruct w as [|c w]; [contradiction|].
  rewrite (parse_digits_value _ _ Hw). fold (numeral_value (c :: w)).
  destruct (numeral_value (c :: w) <=? strconv.maxInt)%Z eqn:E; simpl.
  - apply Z.leb_le in E. lia.
  - apply Z.leb_gt in E. lia.
Qed.

Lemma numeral_value_nonneg w :
  regexp_spec.all_in regexp.digit w -> (0 <= numeral_value w)%Z.
Proof.
  unfold numeral_value. intros Hw.
  assert (H : forall acc, (0 <= acc)%Z ->
            (0 <= fold_left (fun acc ch => (10 * acc + (Z.of_nat (nat_of_ascii ch) - 48))%Z)
                            w acc)%Z).
  { induction Hw as [|c w Hc Hw IH]; intros acc Ha; [exact Ha|].
    cbn [fold_left]. apply IH. unfold regexp.digit in Hc.
    apply andb_true_iff in Hc as [Hc _]. apply Nat.leb_le in Hc. lia. }
  apply H. lia.
Qed.

(** Within the range of [int] the port is [hi * 256 + lo]. *)
Lemma port_of_exact hi lo :
  numeral hi -> numeral lo ->
  (256 * numeral_value hi + numeral_value lo <= strconv.maxInt)%Z ->
  port_of hi lo = (numeral_value hi * 256 + numeral_value lo)%Z.
Proof.
  intros [_ Hh] [_ Hl] Hfit.
  pose proof (numeral_value_nonneg hi Hh). pose proof (numeral_value_nonneg lo Hl).
  unfold port_of, int_add, int_mul, int_wrap, strconv.maxInt in *.
  rewrite !Z.min_l by lia.
  rewrite (Z.mod_small (256 * numeral_value hi + 2 ^ 63)) by lia.
  replace (256 * numeral_value hi + 2 ^ 63 - 2 ^ 63 + numeral_value lo + 2 ^ 63)%Z
    with (256 * numeral_value hi + numeral_value lo + 2 ^ 63)%Z by lia.
  rewrite Z.mod_small by lia. lia.
Qed.

Lemma comma_nonempty : B "," <> [].
Proof. discriminate. Qed.

Lemma numeral_comma_free w : numeral w -> ~ contains w (B ",").
Proof.
  intros [_ Hw] Hc. apply (contains_single ","%char) in Hc.
  exact (all_digits_not_in w ","%char Hw eq_refl Hc).
Qed.

(** The four numerals of the address, with dots for the commas. *)
Lemma ReplaceAll_commas a b c d :
  numeral a -> numeral b -> numeral c -> numeral d ->
  strings.ReplaceAll (a ++ B "," ++ b ++ B "," ++ c ++ B "," ++ d) (B ",") (B ".")
  = a ++ B "." ++ b ++ B "." ++ c ++ B "." ++ d.
Proof.
  intros Ha Hb Hc Hd. unfold strings.ReplaceAll.
  pose proof (single_byte_first ","%char) as Hfirst.
  rewrite !(Split_cons (B ",") comma_nonempty Hfirst)
    by (apply numeral_comma_free; assumption).
  rewrite (Split_free (B ",") comma_nonempty Hfirst)
    by (apply numeral_comma_free; assumption).
  reflexivity.
Qed.

Ltac break_matches :=
  repeat match goal with
         | H : exists _, _ |- _ => destruct H
         | H : _ /\ _ |- _ => destruct H
         end.

(** What the address pattern matches, and the submatches it leaves. *)
Lemma addrMatcher_sound w caps :
  regexp_spec.matches addrMatcher w [] caps ->
  exists d1 a b c d hi lo d2,
    numeral a /\ numeral b /\ numeral c /\ numeral d /\
    numeral hi /\ numeral lo /\
    w = d1 ++ tuple_text a b c d hi lo ++ d2 /\
    caps = [(3, lo); (2, hi); (1, a ++ B "," ++ b ++ B "," ++ c ++ B "," ++ d)].
Proof.
  unfold addrMatcher. cbn [regexp.cat regexp_spec.matches].
  intros H. break_matches. subst.
  match goal with
  | |- exists _ _ _ _ _ _ _ _, _ /\ _ /\ _ /\ _ /\ _ /\ _ /\
         ?d1 ++ _ ++ (?a ++ _ ++ ?b ++ _ ++ ?c ++ _ ++ ?d) ++ _ ++ ?hi ++ _ ++ ?lo ++ _ ++ ?d2 = _ /\ _ =>
      exists d1, a, b, c, d, hi, lo, d2
  end.
  unfold numeral, tuple_text. repeat split; auto.
  unfold B. cbn [String.list_ascii_of_string]. rewrite <- !app_assoc. reflexivity.
Qed.

Lemma addrMatcher_complete a b c d hi lo :
  numeral a -> numeral b -> numeral c -> numeral d ->
  numeral hi -> numeral lo ->
  exists caps, regexp_spec.matches addrMatcher (tuple_text a b c d hi lo) [] caps.
Proof.
  intros [Ha1 Ha2] [Hb1 Hb2] [Hc1 Hc2] [Hd1 Hd2] [Hh1 Hh2] [Hl1 Hl2].
  assert (E : tuple_text a b c d hi lo
              = [] ++ B "(" ++ (a ++ B "," ++ b ++ B "," ++ c ++ B "," ++ d)
                   ++ B "," ++ hi ++ B "," ++ lo ++ B ")" ++ []).
  { unfold tuple_text. rewrite <- !app_assoc. rewrite app_nil_r. reflexivity. }
  rewrite E. clear E. eexists.
  unfold addrMatcher. cbn [regexp.cat regexp_spec.matches].
  exists [].
  do 2 eexists. split; [reflexivity|]. split; [split; [constructor | reflexivity]|].
  exists (B "(").
  do 2 eexists. split; [reflexivity|]. split; [split; reflexivity|].
  exists (a ++ B "," ++ b ++ B "," ++ c ++ B "," ++ d).
  do 2 eexists. split; [reflexivity|]. split.
  { eexists. split; [|reflexivity].
    exists a. do 2 eexists. split; [reflexivity|]. split; [repeat split; auto|].
    exists (B ","). do 2 eexists. split; [reflexivity|]. split; [split; reflexivity|].
    exists b. do 2 eexists. split; [reflexivity|]. split; [repeat split; auto|].
    exists (B ","). do 2 eexists. split; [reflexivity|]. split; [split; reflexivity|].
    exists c. do 2 eexists. split; [reflexivity|]. split; [repeat split; auto|].
    exists (B ","). do 2 eexists. split; [reflexivity|]. split; [split; reflexivity|].
    repeat split; auto. }
  exists (B ",").
  do 2 eexists. split; [reflexivity|]. split; [split; reflexivity|].
  exists hi.
  do 2 eexists. split; [reflexivity|]. split.
  { eexists. split; [|reflexivity]. repeat split; auto. }
  exists (B ",").
  do 2 eexists. split; [reflexivity|]. split; [split; reflexivity|].
  exists lo.
  do 2 eexists. split; [reflexivity|]. split.
  { eexists. split; [|reflexivity]. repeat split; auto. }
  exists (B ")").
  do 2 eexists. split; [reflexivity|]. split; [split; reflexivity|].
  split; [constructor | reflexivity].
Qed.

(** The pattern is found exactly in the replies that hold a tuple. *)
Lemma addrMatcher_Match msg :
  regexp.Match addrMatcher msg = true <-> has_tuple msg.
Proof.
  unfold regexp.Match. split.
  - destruct (regexp.search addrMatcher msg) as [caps|] eqn:E; [|discriminate].
    intros _. apply regexp_facts.search_sound in E as (pre & w & post & -> & Hm).
    apply addrMatcher_sound in Hm
      as (d1 & a & b & c & d & hi & lo & d2 & Ha & Hb & Hc & Hd & Hh & Hl & -> & _).
    exists (pre ++ d1), a, b, c, d, hi, lo, (d2 ++ post).
    repeat (split; [assumption|]). rewrite <- !app_assoc. reflexivity.
  - intros (pre & a & b & c & d & hi & lo & post & Ha & Hb & Hc & Hd & Hh & Hl & ->).
    destruct (addrMatcher_complete a b c d hi lo) as [caps Hm]; auto.
    pose proof (regexp_facts.search_complete addrMatcher pre _ post _ _ Hm) as H.
    destruct (regexp.search addrMatcher (pre ++ tuple_text a b c d hi lo ++ post));
      [reflexivity | contradiction].
Qed.

(** What [getAddressOfPasvResponse] answers, for every reply. *)
Lemma getAddressOfPasvResponse_cases msg :
  (~ has_tuple msg /\
   getAddressOfPasvResponse msg
   = ([], Some (errorMessage (B "address extraction") msg))) \/
  (exists pre a b c d hi lo post,
     numeral a /\ numeral b /\ numeral c /\ numeral d /\
     numeral hi /\ numeral lo /\
     msg = pre ++ tuple_text a b c d hi lo ++ post /\
     getAddressOfPasvResponse msg
     = (address_text a b c d (port_of hi lo), None)).
Proof.
  unfold getAddressOfPasvResponse.
  destruct (regexp.Match addrMatcher msg) eqn:EM.
  - right. simpl negb. cbv iota. unfold regexp.Match in EM. unfold regexp.FindSubmatch.
    destruct (regexp.search addrMatcher msg) as [caps|] eqn:E; [|discriminate].
    apply regexp_facts.search_sound in E as (pre & w & post & -> & Hm).
    apply addrMatcher_sound in Hm
      as (d1 & a & b & c & d & hi & lo & d2 & Ha & Hb & Hc & Hd & Hh & Hl & -> & ->).
    exists (pre ++ d1), a, b, c, d, hi, lo, (d2 ++ post).
    repeat (split; [assumption|]).
    split; [rewrite <- !app_assoc; reflexivity|].
    cbn [regexp.submatch Nat.eqb].
    rewrite ReplaceAll_commas by assumption.
    rewrite !Atoi_numeral by assumption.
    unfold address_text, port_of. rewrite <- !app_assoc. reflexivity.
  - left. split; [|reflexivity].
    intros H. apply addrMatcher_Match in H. congruence.
Qed.

Lemma split_at_unique (ch : ascii) x y x' y' :
  ~ In ch x -> ~ In ch y -> x ++ ch :: y = x' ++ ch :: y' -> x = x' /\ y = y'.
Proof.
  revert x'; induction x as [|u x IH]; intros x' Hx Hy E.
  - destruct x' as [|u' x']; simpl in E; inversion E; subst; [auto|].
    exfalso. apply Hy. apply in_or_app. right. left. reflexivity.
  - destruct x' as [|u' x']; simpl in E; inversion E; subst.
    + exfalso. apply Hx. left. reflexivity.
    + destruct (IH x') as [-> ->]; auto.
      intros Hin. apply Hx. right. exact Hin.
Qed.

Lemma prefix_unique (ch : ascii) x y x' y' :
  ~ In ch x -> ~ In ch x' -> x ++ ch :: y = x' ++ ch :: y' -> x = x' /\ y = y'.
Proof.
  revert x'; induction x as [|u x IH]; intros x' Hx Hx' E.
  - destruct x' as [|u' x']; simpl in E; inversion E; subst; [auto|].
    exfalso. apply Hx'. left. reflexivity.
  - destruct x' as [|u' x']; simpl in E; inversion E; subst.
    + exfalso. apply Hx. left. reflexivity.
    + destruct (IH x') as [-> ->]; auto.
      * intros Hin. apply Hx. right. exact Hin.
      * intros Hin. apply Hx'. right. exact Hin.
Qed.

Lemma numeral_not_in w x : numeral w -> regexp.digit x = false -> ~ In x w.
Proof. intros [_ Hw]. apply all_digits_not_in. exact Hw. Qed.

Lemma tuple_unique a b c d hi lo post a' b' c' d' hi' lo' post' :
  numeral a -> numeral b -> numeral c -> numeral d -> numeral hi -> numeral lo ->
  numeral a' -> numeral b' -> numeral c' -> numeral d' -> numeral hi' ->
  numeral lo' ->
  tuple_text a b c d hi lo ++ post = tuple_text a' b' c' d' hi' lo' ++ post' ->
  a = a' /\ b = b' /\ c = c' /\ d = d' /\ hi = hi' /\ lo = lo' /\ post = post'.
Proof.
  intros Ha Hb Hc Hd Hh Hl Ha' Hb' Hc' Hd' Hh' Hl' E.
  unfold tuple_text, B in E. cbn [String.list_ascii_of_string] in E.
  rewrite <- !app_assoc in E. simpl in E. inversion E as [E1]. clear E.
  apply prefix_unique in E1 as [-> E1];
    [|apply numeral_not_in; [assumption | reflexivity] ..].
  apply prefix_unique in E1 as [-> E1];
    [|apply numeral_not_in; [assumption | reflexivity] ..].
  apply prefix_unique in E1 as [-> E1];
    [|apply numeral_not_in; [assumption | reflexivity] ..].
  apply prefix_unique in E1 as [-> E1];
    [|apply numeral_not_in; [assumption | reflexivity] ..].
  apply prefix_unique in E1 as [-> E1];
    [|apply numeral_not_in; [assumption | reflexivity] ..].
  apply prefix_unique in E1 as [-> E1];
    [|apply numeral_not_in; [assumption | reflexivity] ..].
  auto 10.
Qed.

Lemma tuple_tail_no_paren a b c d hi lo post :
  numeral a -> numeral b -> numeral c -> numeral d -> numeral hi -> numeral lo ->
  ~ In "("%char post ->
  exists rest,
    tuple_text a b c d hi lo ++ post = "("%char :: rest /\ ~ In "("%char rest.
Proof.
  intros Ha Hb Hc Hd Hh Hl Hp.
  exists (a ++ B "," ++ b ++ B "," ++ c ++ B "," ++ d ++ B ","
            ++ hi ++ B "," ++ lo ++ B ")" ++ post).
  split.
  - unfold tuple_text. rewrite <- !app_assoc. reflexivity.
  - assert (Hn : forall w, numeral w -> ~ In "("%char w)
      by (intros w Hw; apply numeral_not_in; [exact Hw | reflexivity]).
    intros Hin.
    repeat (apply in_app_or in Hin as [Hin | Hin];
            [first [ match goal with
                     | Hw : numeral ?w, Hi : In _ ?w |- _ => exact (Hn w Hw Hi)
                     end
                   | simpl in Hin; destruct Hin as [Hin | []]; discriminate ] |]).
    contradiction.
Qed.

(** C4 (as amended). A reply without a parenthesized 6-tuple of decimal
    numerals gives the protocol error of the address extraction.  A reply
    with such a tuple gives the address [a.b.c.d:port] of a tuple
    [(a,b,c,d,hi,lo)] of the reply, the one of the reply when no other
    parenthesis is around; the port is [hi*256+lo] as long as this number
    fits a 64-bit [int], and beyond that the value [Atoi] stops at and
    the wrapped sum.  So [(0,0,0,0,0,0)] gives [0.0.0.0:0] and
    [(127,12,0,1,1,2)] gives [127.12.0.1:258]. *)
Theorem getAddressOfPasvResponse_spec (msg : bytes) :
  (~ has_tuple msg ->
   getAddressOfPasvResponse msg
   = ([], Some (errorMessage (B "address extraction") msg))) /\
  (has_tuple msg ->
   exists pre a b c d hi lo post,
     numeral a /\ numeral b /\ numeral c /\ numeral d /\
     numeral hi /\ numeral lo /\
     msg = pre ++ tuple_text a b c d hi lo ++ post /\
     getAddressOfPasvResponse msg
     = (address_text a b c d (port_of hi lo), None) /\
     ((256 * numeral_value hi + numeral_value lo <= strconv.maxInt)%Z ->
      port_of hi lo = (numeral_value hi * 256 + numeral_value lo)%Z)) /\
  (forall pre a b c d hi lo post,
     numeral a -> numeral b -> numeral c -> numeral d ->
     numeral hi -> numeral lo ->
     msg = pre ++ tuple_text a b c d hi lo ++ post ->
     ~ In "("%char pre -> ~ In "("%char post ->
     (256 * numeral_value hi + numeral_value lo <= strconv.maxInt)%Z ->
     getAddressOfPasvResponse msg
     = (address_text a b c d (numeral_value hi * 256 + numeral_value lo), None)) /\
  getAddressOfPasvResponse (B "227 passive mode (0,0,0,0,0,0) " ++ CRLF)
  = (B "0.0.0.0:0", None) /\
  getAddressOfPasvResponse (B "227 passive mode (127,12,0,1,1,2) " ++ CRLF)
  = (B "127.12.0.1:258", None).
Proof.
  split; [|split; [|split; [|split; vm_compute; reflexivity]]].
  - intros Hn.
    destruct (getAddressOfPasvResponse_cases msg) as [[_ H] | H]; [exact H|].
    exfalso. apply Hn.
    destruct H as (pre & a & b & c & d & hi & lo & post & H).
    exists pre, a, b, c, d, hi, lo, post. tauto.
  - intros Ht.
    destruct (getAddressOfPasvResponse_cases msg) as [[Hn _] | H]; [contradiction|].
    destruct H as (pre & a & b & c & d & hi & lo & post
                   & Ha & Hb & Hc & Hd & Hh & Hl & Hm & Hg).
    exists pre, a, b, c, d, hi, lo, post.
    repeat (split; [assumption|]). apply port_of_exact; assumption.
  - intros pre a b c d hi lo post Ha Hb Hc Hd Hh Hl Hm Hpre Hpost Hfit.
    destruct (getAddressOfPasvResponse_cases msg) as [[Hn _] | H].
    + exfalso. apply Hn. exists pre, a, b, c, d, hi, lo, post. tauto.
    + destruct H as (pre' & a' & b' & c' & d' & hi' & lo' & post'
                     & Ha' & Hb' & Hc' & Hd' & Hh' & Hl' & Hm' & Hg).
      rewrite Hg. rewrite Hm in Hm'.
      destruct (tuple_tail_no_paren a b c d hi lo post) as (rest & Er & Hr);
        try assumption.
      destruct (tuple_tail_no_paren a' b' c' d' hi' lo' []) as (rest' & Er' & _);
        try assumption; [intros []|].
      assert (Em : pre ++ "("%char :: rest = pre' ++ "("%char :: (rest' ++ post')).
      { rewrite <- Er, Hm'. rewrite app_nil_r in Er'. rewrite Er'.
        reflexivity. }
      apply split_at_unique in Em as [<- Em]; [|assumption|assumption].
      apply app_inv_head in Hm'.
      apply tuple_unique in Hm' as (<- & <- & <- & <- & <- & <- & _);
        try assumption.
      rewrite port_of_exact by assumption. reflexivity.
Qed.

Lemma getAddressOfPasvResponse_spec_witness :
  getAddressOfPasvResponse (B "227 passive mode (127,12,0,1,1,2) " ++ CRLF)
  = (address_text (B "127") (B "12") (B "0") (B "1")
       (numeral_value (B "1") * 256 + numeral_value (B "2")), None).
Proof.
  assert (Hn : forall w, w <> [] -> forallb regexp.digit w = true -> numeral w).
  { intros w H1 H2. split; [exact H1|]. apply Forall_forall.
    rewrite forallb_forall in H2. exact H2. }
  apply (proj1 (proj2 (proj2
           (getAddressOfPasvResponse_spec
              (B "227 passive mode (127,12,0,1,1,2) " ++ CRLF))))
           (B "227 passive mode ") (B "127") (B "12") (B "0") (B "1")
           (B "1") (B "2") (B " " ++ CRLF));
    try (apply Hn; [discriminate | reflexivity]).
  - reflexivity.
  - vm_compute. intuition discriminate.
  - vm_compute. intuition discriminate.
  - vm_compute. discriminate.
Defined.

(** With a high byte of 2^55 the product leaves the range of [int]: the
    address does not carry the port [hi*256+lo]. *)
Lemma getAddressOfPasvResponse_port_counterexample :
  has_tuple reply_with_huge_port /\
  getAddressOfPasvResponse reply_with_huge_port
  <> (address_text (B "0") (B "0") (B "0") (B "0")
        (numeral_value (B "36028797018963968") * 256 + numeral_value (B "0")),
      None).
Proof.
  split.
  - apply addrMatcher_Match. vm_compute. reflexivity.
  - vm_compute. discriminate.
Qed.

(* ===================================================================== *)
(** * Transfers *)
(* ===================================================================== *)

Ltac run_transfer :=
  unfold Download, upload, readListCommandData, Rev0.Download, Rev0.upload,
    Rev0.readListCommandData, setBinaryTransfer, setASCIITransfer, setTransferTypeTo, enterPassiveMode;
  run.

Ltac close_confirmation :=
  split;
  [ intros; try discriminate; eauto 10
  | let Hev := fresh "Hev" in let Hok := fresh "Hok" in
    intros ? ? ? ? Hev Hok; inversion Hev; subst; try congruence ].

Lemma Rev0_success_ok c : Rev0.success c = ok c.
Proof.
  unfold Rev0.success, ok. destruct (length c =? 3); reflexivity.
Qed.

Lemma Download_confirmation path dest s :
  returns (Download path dest) s
    (confirmed_transfer (B "RETR") (fun _ => dest) DataConn s).
Proof.
  destruct_state s. unfold confirmed_transfer.
  destruct ty; run_transfer; close_confirmation.
Qed.

Lemma upload_confirmation cmd path source s :
  returns (upload cmd path source) s
    (confirmed_transfer cmd DataConn (fun _ => source) s).
Proof.
  destruct_state s. unfold confirmed_transfer.
  destruct ty; run_transfer; close_confirmation.
Qed.

Lemma Rev0_Download_confirmation path dest s :
  returns (Rev0.Download path dest) s
    (confirmed_transfer (B "RETR") (fun _ => dest) DataConn s).
Proof.
  destruct_state s. unfold confirmed_transfer.
  destruct ty; run_transfer; rewrite ?Rev0_success_ok in *; close_confirmation.
Qed.

Lemma Rev0_upload_confirmation cmd path source s :
  returns (Rev0.upload cmd path source) s
    (confirmed_transfer cmd DataConn (fun _ => source) s).
Proof.
  destruct_state s. unfold confirmed_transfer.
  destruct ty; run_transfer; rewrite ?Rev0_success_ok in *; close_confirmation.
Qed.

(** C5. A download or an upload whose copy over the data connection went
    through still reports failure when the final reply on the control
    connection carries no success code, and it reports success only
    after that final reply has arrived with a success code; in both
    revisions of the file. *)
Theorem transfer_needs_final_confirmation
        (cmd path : bytes) (stream : endpoint) (s : St) :
  returns (Download path stream) s
    (confirmed_transfer (B "RETR") (fun _ => stream) DataConn s) /\
  returns (upload cmd path stream) s
    (confirmed_transfer cmd DataConn (fun _ => stream) s) /\
  returns (Rev0.Download path stream) s
    (confirmed_transfer (B "RETR") (fun _ => stream) DataConn s) /\
  returns (Rev0.upload cmd path stream) s
    (confirmed_transfer cmd DataConn (fun _ => stream) s).
Proof.
  split; [apply Download_confirmation|].
  split; [apply upload_confirmation|].
  split; [apply Rev0_Download_confirmation | apply Rev0_upload_confirmation].
Qed.

(** The scenario of the spec: the copy of a download completes, the final
    reply is a failure, the download reports the failure. *)
Example Download_failed_confirmation :
  returns (Download (B "file.bin") (Caller 0))
    (st0 transferBinary
       [inl (B "227 Entering Passive Mode (127,0,0,1,4,1)" ++ CRLF);
        inl (B "150 Opening data connection" ++ CRLF);
        inl (B "451 Requested action aborted" ++ CRLF)])
    (fun err s' =>
       err = Some (errorMessage (B "RETR")
                     (B "451 Requested action aborted" ++ CRLF)) /\
       open_data (world s') = []).
Proof. vm_compute. split; reflexivity. Qed.

(* ===================================================================== *)
(** * The data connection is given back *)
(* ===================================================================== *)

Lemma filter_fresh ni od :
  (forall j, In j od -> j < ni) ->
  filter (fun j => negb (j =? ni)) od = od.
Proof.
  induction od as [|j od IH]; intros H; [reflexivity|].
  simpl. assert (Hj : j < ni) by (apply H; left; reflexivity).
  destruct (j =? ni) eqn:E; [apply Nat.eqb_eq in E; lia|].
  simpl. f_equal. apply IH. intros k Hk. apply H. right. exact Hk.
Qed.

Ltac close_open_data :=
  try reflexivity;
  cbn [filter]; rewrite Nat.eqb_refl; cbn [negb];
  apply filter_fresh; assumption.

(** In the later revision no transfer leaves its data connection open. *)
Lemma Download_closes path dest s :
  ids_fresh s ->
  returns (Download path dest) s
    (fun _ s' => open_data (world s') = open_data (world s)).
Proof.
  destruct_state s. unfold ids_fresh; cbn [world open_data next_id]. intros Hf.
  destruct ty; run_transfer; close_open_data.
Qed.

Lemma upload_closes cmd path source s :
  ids_fresh s ->
  returns (upload cmd path source) s
    (fun _ s' => open_data (world s') = open_data (world s)).
Proof.
  destruct_state s. unfold ids_fresh; cbn [world open_data next_id]. intros Hf.
  destruct ty; run_transfer; close_open_data.
Qed.

Lemma readListCommandData_closes cmd path s :
  ids_fresh s ->
  returns (readListCommandData cmd path) s
    (fun _ s' => open_data (world s') = open_data (world s)).
Proof.
  destruct_state s. unfold ids_fresh; cbn [world open_data next_id]. intros Hf.
  destruct ty; run_transfer; close_open_data.
Qed.

(** The listing of the earlier revision gives it back as well. *)
Lemma Rev0_readListCommandData_closes cmd path s :
  ids_fresh s ->
  returns (Rev0.readListCommandData cmd path) s
    (fun _ s' => open_data (world s') = open_data (world s)).
Proof.
  destruct_state s. unfold ids_fresh; cbn [world open_data next_id]. intros Hf.
  destruct ty; run_transfer; close_open_data.
Qed.

(** C6, the defect. In the earlier revision [Download] and [upload]
    return without closing the data connection they have dialled when
    the reply to the transfer command cannot be read or carries no success
    code: the connection 0 is still open when the operation has returned.
    (The later revision closes it on these paths, and so does the listing
    of both revisions, through [defer].) *)
Theorem Rev0_Download_leaves_data_connection_open :
  returns (Rev0.Download (B "file.bin") (Caller 0))
    (st0 transferBinary vanishing_server)
    (fun err s' => err = Some EOF /\ open_data (world s') = [0]) /\
  returns (Rev0.upload (B "STOR") (B "file.bin") (Caller 0))
    (st0 transferBinary vanishing_server)
    (fun err s' => err = Some EOF /\ open_data (world s') = [0]) /\
  returns (Rev0.Download (B "missing.bin") (Caller 0))
    (st0 transferBinary refusing_server)
    (fun err s' =>
       err = Some (errorMessage (B "RETR") (B "550 No such file" ++ CRLF)) /\
       open_data (world s') = [0]) /\
  returns (Download (B "file.bin") (Caller 0))
    (st0 transferBinary vanishing_server)
    (fun err s' => err = Some EOF /\ open_data (world s') = []) /\
  returns (Download (B "missing.bin") (Caller 0))
    (st0 transferBinary refusing_server)
    (fun err s' =>
       err = Some (errorMessage (B "RETR") (B "550 No such file" ++ CRLF)) /\
       open_data (world s') = []) /\
  returns (Rev0.readListCommandData (B "LIST") (B "missing"))
    (st0 transferASCII refusing_server)
    (fun r s' =>
       snd r = Some (errorMessage (B "LIST") (B "550 No such file" ++ CRLF)) /\
       open_data (world s') = []).
Proof. vm_compute. repeat split. Qed.

(* ===================================================================== *)
(** * Abort *)
(* ===================================================================== *)

(** Turn the comparisons of codes into equations, and settle goals that
    hinge on two codes being different. *)
Ltac decide_codes :=
  repeat match goal with
         | H : _ || _ = true |- _ => apply orb_true_iff in H; destruct H
         | H : _ || _ = false |- _ => apply orb_false_iff in H; destruct H
         | H : bytes_eqb _ _ = true |- _ => apply bytes_eqb_eq in H
         | H : bytes_eqb _ _ = false |- _ => apply bytes_eqb_neq in H
         | H : _ \/ _ |- _ => destruct H
         end.

Ltac compare_codes :=
  unfold commandOk, systemStatusOrHelpReply, directoryStatus, fileStatus,
    helpMessage, systemName, serviceReadyForNewUser, noTransferInProgress,
    closingDataConnection, enteringPassiveMode, userLoggedIn_Proceed,
    userNameOK_NeedPassword, connectionClosed_TransferAborter, B in *;
  cbn [String.list_ascii_of_string] in *;
  try congruence; try tauto.

(** [Abort] of the later revision, for an [ABOR] that could be written
    and a first reply that could be read. *)
Lemma Abort_contract s :
  next_write s = None -> snd (next_reply s) = None ->
  let resp1 := fst (next_reply s) in
  let code1 := extractCode resp1 in
  let resp2 := fst (second_reply s) in
  returns Abort s
    (fun err s' =>
       (code1 = noTransferInProgress \/ code1 = closingDataConnection ->
        err = None /\
        events (world s')
        = EvReply resp1 None :: EvWrite ABOR_line None :: events (world s)) /\
       (code1 = connectionClosed_TransferAborter ->
        events (world s')
        = EvReply resp2 (snd (second_reply s)) :: EvReply resp1 None
            :: EvWrite ABOR_line None :: events (world s) /\
        (snd (second_reply s) = None ->
         (extractCode resp2 = closingDataConnection <-> err = None) /\
         (extractCode resp2 <> closingDataConnection ->
          err = Some (errorMessage (B "ABOR") resp2)))) /\
       (code1 <> noTransferInProgress -> code1 <> closingDataConnection ->
        code1 <> connectionClosed_TransferAborter ->
        err = Some (errorMessage (B "ABOR") resp1) /\
        events (world s')
        = EvReply resp1 None :: EvWrite ABOR_line None :: events (world s))).
Proof.
  destruct_state s. intros Hw Hr. cbv zeta. unfold second_reply, Abort. run;
    repeat split; intros; decide_codes; try reflexivity; compare_codes.
Qed.

(** C7, the defect. In the earlier revision [Abort] takes the
    intermediate reply 426 for the answer: it reports a protocol error
    and leaves the reply 226 unread on the control connection.  The later
    revision reads the second reply and reports success. *)
Theorem Rev0_Abort_stops_at_intermediate_reply :
  returns Rev0.Abort (st0 transferBinary aborting_server)
    (fun err s' =>
       err = Some (errorMessage (B "ABOR")
                     (B "426 Connection closed; transfer aborted" ++ CRLF)) /\
       replies (events (world s'))
       = [B "426 Connection closed; transfer aborted" ++ CRLF] /\
       ctl_in (world s') = [inl (B "226 Abort successful" ++ CRLF)]) /\
  returns Abort (st0 transferBinary aborting_server)
    (fun err s' =>
       err = None /\
       replies (events (world s'))
       = [B "426 Connection closed; transfer aborted" ++ CRLF;
          B "226 Abort successful" ++ CRLF] /\
       ctl_in (world s') = []).
Proof. vm_compute. repeat split. Qed.

(* ===================================================================== *)
(** * The transfer representation *)
(* ===================================================================== *)

Lemma setTransferTypeTo_same t symbol s :
  representation s = t -> setTransferTypeTo t symbol s = Done None s.
Proof.
  destruct_state s. unfold representation. cbn [conn transferType_of].
  intros ->. unfold setTransferTypeTo, bind, get_conn. cbn [conn transferType_of].
  destruct t; reflexivity.
Qed.

Lemma setTransferTypeTo_switch t symbol s :
  representation s <> t ->
  returns (setTransferTypeTo t symbol) s
    (fun err s' =>
       written (events (world s'))
       = written (events (world s)) ++ [command_line [B "TYPE"; symbol]] /\
       (err = None <->
        next_write s = None /\ snd (next_reply s) = None /\
        extractCode (fst (next_reply s)) = commandOk) /\
       (err = None -> representation s' = t) /\
       (err <> None -> representation s' = representation s)).
Proof.
  destruct_state s. unfold representation. cbn [conn transferType_of]. intros Hne.
  unfold setTransferTypeTo.
  destruct ty, t; try contradiction; run;
    autorewrite with history; decide_codes;
    repeat split; intros; try reflexivity; try congruence; try tauto;
    try (exfalso; intuition congruence).
Qed.

Ltac run_keeps :=
  let s := fresh "s" in
  intros s; destruct_state s; unfold representation;
  unfold Login, ChangeWorkingDirTo, ChangeDirUp, StructureMount, Reinitialize,
    Quit, RenameFromTo, Delete, MakeDirectory, RemoveDirectory, NoOperation,
    Help, HelpAbout, Status, StatusOf, System, PrintWorkingDirectory, Abort,
    Rev0.Abort, Close, enterPassiveMode;
  run; reflexivity.

Lemma keeps_send words : keeps_representation (send words).
Proof. run_keeps. Qed.

Lemma keeps_sendWithoutEmptyString cmd arg :
  keeps_representation (sendWithoutEmptyString cmd arg).
Proof. run_keeps. Qed.

Lemma keeps_receive : keeps_representation receive.
Proof. run_keeps. Qed.

Lemma keeps_sendAndReceive words : keeps_representation (sendAndReceive words).
Proof. run_keeps. Qed.

Lemma keeps_enterPassiveMode : keeps_representation enterPassiveMode.
Proof. run_keeps. Qed.

Lemma keeps_Close : keeps_representation Close.
Proof. run_keeps. Qed.

Lemma keeps_Login user password : keeps_representation (Login user password).
Proof. run_keeps. Qed.

Lemma keeps_execute code args : keeps_representation (execute code args).
Proof. run_keeps. Qed.

Lemma keeps_executeGetResponse code args :
  keeps_representation (executeGetResponse code args).
Proof. run_keeps. Qed.

Lemma keeps_RenameFromTo from to : keeps_representation (RenameFromTo from to).
Proof. run_keeps. Qed.

Lemma keeps_MakeDirectory path : keeps_representation (MakeDirectory path).
Proof. run_keeps. Qed.

Lemma keeps_HelpAbout topic : keeps_representation (HelpAbout topic).
Proof. run_keeps. Qed.

Lemma keeps_StatusOf path : keeps_representation (StatusOf path).
Proof. run_keeps. Qed.

Lemma keeps_System : keeps_representation System.
Proof. run_keeps. Qed.

Lemma keeps_PrintWorkingDirectory : keeps_representation PrintWorkingDirectory.
Proof. run_keeps. Qed.

Lemma keeps_Abort : keeps_representation Abort.
Proof. run_keeps. Qed.

Lemma keeps_Rev0_Abort : keeps_representation Rev0.Abort.
Proof. run_keeps. Qed.

Ltac close_switch :=
  first
    [ left; reflexivity
    | right; decide_codes;
      repeat (split;
              [first [reflexivity | discriminate | assumption | congruence]|]);
      eexists; autorewrite with history; rewrite <- ?app_assoc; cbn [app];
      reflexivity ].

Ltac run_switch :=
  let s := fresh "s" in
  intros s; destruct_state s; unfold representation;
  unfold ListFilesIn, ListFileNamesIn, Upload, UploadUnique, Append;
  match goal with ty : transferType |- _ => destruct ty end;
  run_transfer; close_switch.

Lemma switch_readListCommandData cmd path :
  switches_by_TYPE_only (readListCommandData cmd path) transferASCII (B "A").
Proof. run_switch. Qed.

Lemma switch_ListFileNamesIn path :
  switches_by_TYPE_only (ListFileNamesIn path) transferASCII (B "A").
Proof. run_switch. Qed.

Lemma switch_Download path dest :
  switches_by_TYPE_only (Download path dest) transferBinary (B "I").
Proof. run_switch. Qed.

Lemma switch_upload cmd path source :
  switches_by_TYPE_only (upload cmd path source) transferBinary (B "I").
Proof. run_switch. Qed.

Lemma switch_Rev0_Download path dest :
  switches_by_TYPE_only (Rev0.Download path dest) transferBinary (B "I").
Proof. run_switch. Qed.

Lemma switch_Rev0_upload cmd path source :
  switches_by_TYPE_only (Rev0.upload cmd path source) transferBinary (B "I").
Proof. run_switch. Qed.

(** C8. The switch of the representation writes nothing when the session
    is in the requested representation already; otherwise it writes one
    [TYPE] command and stores the requested representation exactly when
    that command succeeds.  No other operation stores a representation:
    the operations without data connection leave it alone, and the
    listings and transfers change it through this switch only. *)
Theorem representation_changes_only_by_switch
        (t : transferType) (symbol : bytes) (s : St) :
  (representation s = t -> setTransferTypeTo t symbol s = Done None s) /\
  (representation s <> t ->
   returns (setTransferTypeTo t symbol) s
     (fun err s' =>
        written (events (world s'))
        = written (events (world s)) ++ [command_line [B "TYPE"; symbol]] /\
        (err = None <->
         next_write s = None /\ snd (next_reply s) = None /\
         extractCode (fst (next_reply s)) = commandOk) /\
        (err = None -> representation s' = t) /\
        (err <> None -> representation s' = representation s))) /\
  (forall user password path from to code args,
     keeps_representation (send args) /\
     keeps_representation (sendWithoutEmptyString from to) /\
     keeps_representation receive /\
     keeps_representation (sendAndReceive args) /\
     keeps_representation enterPassiveMode /\
     keeps_representation Close /\
     keeps_representation (Login user password) /\
     keeps_representation (execute code args) /\
     keeps_representation (executeGetResponse code args) /\
     keeps_representation (ChangeWorkingDirTo path) /\
     keeps_representation ChangeDirUp /\
     keeps_representation (StructureMount path) /\
     keeps_representation Reinitialize /\
     keeps_representation Quit /\
     keeps_representation (RenameFromTo from to) /\
     keeps_representation (Delete path) /\
     keeps_representation (MakeDirectory path) /\
     keeps_representation (RemoveDirectory path) /\
     keeps_representation NoOperation /\
     keeps_representation Help /\
     keeps_representation (HelpAbout path) /\
     keeps_representation Status /\
     keeps_representation (StatusOf path) /\
     keeps_representation System /\
     keeps_representation PrintWorkingDirectory /\
     keeps_representation Abort /\
     keeps_representation Rev0.Abort) /\
  (forall cmd path stream,
     switches_by_TYPE_only (ListFilesIn path) transferASCII (B "A") /\
     switches_by_TYPE_only (ListFileNamesIn path) transferASCII (B "A") /\
     switches_by_TYPE_only (Download path stream) transferBinary (B "I") /\
     switches_by_TYPE_only (upload cmd path stream) transferBinary (B "I") /\
     switches_by_TYPE_only (Rev0.Download path stream) transferBinary (B "I") /\
     switches_by_TYPE_only (Rev0.upload cmd path stream) transferBinary (B "I")).
Proof.
  split; [apply setTransferTypeTo_same|].
  split; [apply setTransferTypeTo_switch|].
  split.
  - intros user password path from to code args.
    repeat match goal with
           | |- _ /\ _ => split
           end;
      first [ apply keeps_send | apply keeps_sendWithoutEmptyString
            | apply keeps_receive | apply keeps_sendAndReceive
            | apply keeps_enterPassiveMode | apply keeps_Close
            | apply keeps_Login | apply keeps_execute
            | apply keeps_executeGetResponse | apply keeps_RenameFromTo
            | apply keeps_MakeDirectory | apply keeps_HelpAbout
            | apply keeps_StatusOf | apply keeps_System
            | apply keeps_PrintWorkingDirectory | apply keeps_Abort
            | apply keeps_Rev0_Abort ].
  - intros cmd path stream.
    repeat match goal with
           | |- _ /\ _ => split
           end;
      first [ apply switch_readListCommandData | apply switch_ListFileNamesIn
            | apply switch_Download | apply switch_upload
            | apply switch_Rev0_Download | apply switch_Rev0_upload ].
Qed.

Lemma representation_changes_only_by_switch_witness :
  setTransferTypeTo transferASCII (B "A") (st0 transferASCII [])
  = Done None (st0 transferASCII []).
Proof.
  apply (proj1 (representation_changes_only_by_switch
                  transferASCII (B "A") (st0 transferASCII []))).
  reflexivity.
Defined.

(* ===================================================================== *)
(** * The first transfer of a fresh session *)
(* ===================================================================== *)

Lemma newConnection_run lg s :
  returns (newConnection lg) s
    (fun r s' =>
       conn s' = mkConnection lg transferASCII /\
       forall c, r = (Some c, None) ->
                 c = conn s' /\
                 snd (next_reply s) = None /\
                 extractCode (fst (next_reply s)) = serviceReadyForNewUser).
Proof.
  destruct_state s. unfold newConnection. run;
    (split; [reflexivity|]); intros c Hc; inversion Hc; subst;
    decide_codes; auto.
Qed.

(** A greeting with the code 220 that was read without error makes a
    session, in the ASCII representation and with the logger given. *)
Lemma newConnection_accepts lg s :
  returns (newConnection lg) s
    (fun r _ =>
       snd (next_reply s) = None ->
       extractCode (fst (next_reply s)) = serviceReadyForNewUser ->
       r = (Some (mkConnection lg transferASCII), None)).
Proof.
  destruct_state s. unfold newConnection. run;
    intros Hn Hc; decide_codes; try discriminate; try reflexivity;
    contradiction.
Qed.

Ltac close_commands :=
  unfold listing_commands, switching_transfer_commands, optional_line,
    PASV_line, TYPE_line;
  cbn [world events];
  autorewrite with history; rewrite <- ?app_assoc; cbn [app];
  repeat match goal with
         | H : bytes_eqb ?x [] = _ |- context [bytes_eqb ?x []] => rewrite H
         end;
  first [ reflexivity
        | left; reflexivity
        | right; reflexivity
        | right; left; reflexivity
        | right; right; reflexivity ].

Ltac run_commands :=
  let s := fresh "s" in let H := fresh "H" in
  intros s H; destruct_state s; unfold representation in H;
  cbn [conn transferType_of] in H; subst;
  unfold ListFilesIn, ListFileNamesIn, Upload, UploadUnique, Append;
  run_transfer; close_commands.

Lemma listing_first_commands cmd path : forall s,
  representation s = transferASCII ->
  returns (readListCommandData cmd path) s (fun _ => listing_commands cmd path s).
Proof. run_commands. Qed.

Lemma ListFileNamesIn_first_commands path : forall s,
  representation s = transferASCII ->
  returns (ListFileNamesIn path) s (fun _ => listing_commands (B "NLST") path s).
Proof. run_commands. Qed.

Lemma Download_first_commands path dest : forall s,
  representation s = transferASCII ->
  returns (Download path dest) s
    (fun _ => switching_transfer_commands (command_line [B "RETR"; path]) s).
Proof. run_commands. Qed.

Lemma upload_first_commands cmd path source : forall s,
  representation s = transferASCII ->
  returns (upload cmd path source) s
    (fun _ => switching_transfer_commands (optional_line cmd path) s).
Proof. run_commands. Qed.

Lemma Rev0_Download_first_commands path dest : forall s,
  representation s = transferASCII ->
  returns (Rev0.Download path dest) s
    (fun _ => switching_transfer_commands (command_line [B "RETR"; path]) s).
Proof. run_commands. Qed.

Lemma Rev0_upload_first_commands cmd path source : forall s,
  representation s = transferASCII ->
  returns (Rev0.upload cmd path source) s
    (fun _ => switching_transfer_commands (optional_line cmd path) s).
Proof. run_commands. Qed.

(** C9. The handshake of [newConnection] creates a session exactly when
    the greeting is read without error and carries the code 220, and a
    session that it has created is in the ASCII representation.  Hence a
    listing run first on it writes [PASV] as its first command, with no
    [TYPE] before it, and a download or an upload run first on it writes
    exactly one [TYPE] command, before [PASV]. *)
Theorem fresh_session_first_commands
        (lg : bool) (path : bytes) (stream : endpoint) (s0 : St) :
  returns (newConnection lg) s0
    (fun r s =>
       ((exists c, r = (Some c, None)) <->
        snd (next_reply s0) = None /\
        extractCode (fst (next_reply s0)) = serviceReadyForNewUser) /\
       forall c, r = (Some c, None) ->
         conn s = c /\
         transferType_of c = transferASCII /\
         returns (ListFilesIn path) s
           (fun _ => listing_commands (B "LIST") path s) /\
         returns (ListFileNamesIn path) s
           (fun _ => listing_commands (B "NLST") path s) /\
         returns (Download path stream) s
           (fun _ => switching_transfer_commands (command_line [B "RETR"; path]) s) /\
         returns (Upload stream path) s
           (fun _ => switching_transfer_commands (optional_line (B "STOR") path) s) /\
         returns (UploadUnique stream) s
           (fun _ => switching_transfer_commands (command_line [B "STOU"]) s) /\
         returns (Append stream path) s
           (fun _ => switching_transfer_commands (optional_line (B "APPE") path) s) /\
         returns (Rev0.Download path stream) s
           (fun _ => switching_transfer_commands (command_line [B "RETR"; path]) s) /\
         returns (Rev0.upload (B "STOR") path stream) s
           (fun _ => switching_transfer_commands (optional_line (B "STOR") path) s)).
Proof.
  pose proof (newConnection_run lg s0) as H.
  pose proof (newConnection_accepts lg s0) as A.
  unfold returns in H, A |- *.
  destruct (newConnection lg s0) as [r s|]; [|exact H].
  destruct H as [Hc Hr']. split.
  { split.
    - intros [c Hr]. destruct (Hr' c Hr) as (_ & Hn & Hcode).
      split; assumption.
    - intros [Hn Hcode]. exists (mkConnection lg transferASCII).
      exact (A Hn Hcode). }
  intros c Hr. destruct (Hr' c Hr) as [-> _].
  assert (Hrep : representation s = transferASCII)
    by (unfold representation; rewrite Hc; reflexivity).
  split; [reflexivity|]. split; [rewrite Hc; reflexivity|].
  split; [exact (listing_first_commands (B "LIST") path s Hrep)|].
  split; [exact (ListFileNamesIn_first_commands path s Hrep)|].
  split; [exact (Download_first_commands path stream s Hrep)|].
  split; [exact (upload_first_commands (B "STOR") path stream s Hrep)|].
  split; [exact (upload_first_commands (B "STOU") [] stream s Hrep)|].
  split; [exact (upload_first_commands (B "APPE") path stream s Hrep)|].
  split; [exact (Rev0_Download_first_commands path stream s Hrep)|].
  exact (Rev0_upload_first_commands (B "STOR") path stream s Hrep).
Qed.

(** A greeting 220 yields a session, in the ASCII representation, on
    which a first listing writes [PASV] first. *)
Lemma fresh_session_first_commands_witness :
  returns (newConnection false) (st0 transferBinary greeting_server)
    (fun r s =>
       exists c,
         r = (Some c, None) /\
         conn s = c /\
         transferType_of c = transferASCII /\
         returns (ListFilesIn []) s
           (fun _ => listing_commands (B "LIST") [] s) /\
         returns (Download [] (Caller 0)) s
           (fun _ => switching_transfer_commands (command_line [B "RETR"; []]) s)).
Proof.
  pose proof (fresh_session_first_commands
                false [] (Caller 0) (st0 transferBinary greeting_server)) as H.
  unfold returns in H |- *.
  destruct (newConnection false (st0 transferBinary greeting_server))
    as [r s|]; [|exact H].
  destruct H as [Hiff Hall].
  destruct (proj2 Hiff) as [c Hc]; [split; reflexivity|].
  exists c. destruct (Hall c Hc) as (H1 & H2 & H3 & _ & H5 & _).
  repeat (split; [assumption|]). exact H5.
Defined.

(** A handshake and a first listing, then a first download. *)
Example fresh_session_listing :
  returns (_ <- newConnection false ;; ListFiles)
    (st0 transferBinary
       [inl (B "220 Service ready" ++ CRLF);
        inl (B "227 Entering Passive Mode (127,0,0,1,4,1)" ++ CRLF);
        inl (B "150 Here comes the listing" ++ CRLF);
        inl (B "226 Done" ++ CRLF)])
    (fun r s' =>
       snd r = None /\
       written (events (world s')) = [B "PASV" ++ CRLF; B "LIST" ++ CRLF]).
Proof. vm_compute. split; reflexivity. Qed.

Example fresh_session_download :
  returns (_ <- newConnection false ;; Download (B "f") (Caller 0))
    (st0 transferBinary
       [inl (B "220 Service ready" ++ CRLF);
        inl (B "200 Type set to I" ++ CRLF);
        inl (B "227 Entering Passive Mode (127,0,0,1,4,1)" ++ CRLF);
        inl (B "150 Opening connection" ++ CRLF);
        inl (B "226 Done" ++ CRLF)])
    (fun err s' =>
       err = None /\
       written (events (world s'))
       = [B "TYPE I" ++ CRLF; B "PASV" ++ CRLF; B "RETR f" ++ CRLF]).
Proof. vm_compute. split; reflexivity. Qed.

(* ===================================================================== *)
(** * Payload extraction on the replies that are accepted *)
(* ===================================================================== *)

(** On a complete reply that ends with CR-LF the slices of
    [removeControlSymbols] are in range. *)
Lemma removeControlSymbols_in_range resp :
  isCompleteResponse resp = true -> ends_with resp CRLF ->
  removeControlSymbols resp <> None.
Proof.
  intros Hc He. apply isCompleteResponse_iff_rules in Hc; [|left; exact He].
  destruct Hc as [(Hlen & H3 & [p Hp]) | (H3 & head & last & Hb & Hf & [t Ht])].
  - subst resp.
    destruct p as [|c1 [|c2 [|c3 [|c4 text]]]];
      try (simpl in Hlen; lia); try (cbv in H3; discriminate).
    simpl in H3. inversion H3; subst.
    change ((c1 :: c2 :: c3 :: SP :: text) ++ CRLF)
      with ([c1; c2; c3; SP] ++ text ++ CRLF).
    rewrite removeControlSymbols_single_line. discriminate.
  - subst resp.
    destruct head as [|c1 [|c2 [|c3 [|c4 body]]]];
      try (cbv in H3; discriminate).
    + exfalso. apply Hf. rewrite Ht.
      exists [], (firstn 1 (last ++ CRLF) ++ [SP] ++ t).
      simpl. rewrite <- !app_assoc. reflexivity.
    + exfalso. apply Hf. rewrite Ht. exists [c1], ([SP] ++ t). reflexivity.
    + simpl in H3. inversion H3; subst. simpl in Ht. subst last.
      change ((c1 :: c2 :: c3 :: HYPHEN :: body) ++ CRLF
                ++ (c1 :: c2 :: c3 :: SP :: t) ++ CRLF)
        with ([c1; c2; c3; HYPHEN] ++ body ++ CRLF
                ++ [c1; c2; c3; SP] ++ t ++ CRLF).
      rewrite removeControlSymbols_spliced; [discriminate | exact Hf |].
      replace (body ++ CRLF ++ [c1; c2; c3; SP] ++ t ++ CRLF)
        with ((body ++ CRLF ++ [c1; c2; c3; SP] ++ t) ++ CRLF)
        by (rewrite <- !app_assoc; reflexivity).
      apply strings_facts.TrimSuffix_app.
Qed.

(** C10, the defect. The framer takes a multi-line buffer for complete
    although bytes follow its closing CR-LF; [HelpAbout], [StatusOf] and
    [System] accept such a reply by its code, and [removeControlSymbols]
    then slices beyond the end of the text: the operations panic. *)
Theorem removeControlSymbols_panics_on_accepted_reply :
  isCompleteResponse help_reply_with_trailing_byte = true /\
  extractCode help_reply_with_trailing_byte = helpMessage /\
  removeControlSymbols help_reply_with_trailing_byte = None /\
  panics (HelpAbout []) (st0 transferASCII [inl help_reply_with_trailing_byte]) /\
  panics (StatusOf []) (st0 transferASCII [inl status_reply_with_trailing_byte]) /\
  panics System (st0 transferASCII [inl system_reply_with_trailing_byte]).
Proof. vm_compute. repeat split. Qed.

(* ===================================================================== *)
(** * Further properties of the client *)
(* ===================================================================== *)

Lemma returns_weaken (A : Type) (m : M A) (s : St) (P Q : A -> St -> Prop) :
  returns m s P -> (forall a s', P a s' -> Q a s') -> returns m s Q.
Proof.
  unfold returns. destruct (m s); [|exact (fun H _ => H)].
  intros H HPQ. apply HPQ. exact H.
Qed.

(** ** Codes and framing *)

Lemma extractCode_firstn msg : extractCode msg = firstn 3 msg.
Proof.
  unfold extractCode. destruct (length msg <=? 3) eqn:E; [|reflexivity].
  apply Nat.leb_le in E. symmetry. apply firstn_all2. exact E.
Qed.

(** X1. The code that [extractCode] takes from a reply is a success code
    for [ok] exactly when the reply has at least three bytes and begins
    with the digit 1 or the digit 2; a reply of fewer than three bytes
    never carries a success code. *)
Theorem ok_extractCode (msg : bytes) :
  ok (extractCode msg) = true <->
  3 <= length msg /\
  (nth_error msg 0 = Some "1"%char \/ nth_error msg 0 = Some "2"%char).
Proof.
  rewrite extractCode_firstn. unfold ok.
  destruct msg as [|c0 [|c1 [|c2 rest]]]; cbn;
    try (split; [discriminate | intros [H _]; lia]).
  rewrite orb_true_iff. unfold byte_eqb. rewrite !Ascii.eqb_eq.
  split.
  - intros [H|H]; subst; split; try lia; auto.
  - intros [_ [H|H]]; inversion H; auto.
Qed.

(** X2. A buffer that the framer takes for a complete reply has at least
    four bytes, its fourth byte is a space or a hyphen, and its code is
    made of exactly its first three bytes. *)
Theorem complete_reply_has_code (b : bytes) :
  isCompleteResponse b = true ->
  4 <= length b /\
  length (extractCode b) = 3 /\
  starts_with b (extractCode b) /\
  (nth_error b 3 = Some SP \/ nth_error b 3 = Some HYPHEN).
Proof.
  intros H.
  assert (L : 4 <= length b /\
              (nth_error b 3 = Some SP \/ nth_error b 3 = Some HYPHEN)).
  { unfold isCompleteResponse, isCompleteSingleLineResponse,
      isCompleteMultiLineResponse in H.
    apply orb_true_iff in H. destruct H as [H|H];
      apply andb_true_iff in H; destruct H as [H _].
    - apply isSingleLineResponse_iff in H. tauto.
    - apply isMultiLineResponse_iff in H. split; [|tauto].
      assert (3 < length b) by (apply nth_error_Some; congruence). lia. }
  destruct L as [L K]. split; [exact L|].
  rewrite extractCode_firstn. split; [|split; [|exact K]].
  - rewrite length_firstn. lia.
  - exists (skipn 3 b). symmetry. apply firstn_skipn.
Qed.

Lemma complete_reply_has_code_witness :
  4 <= length (B "220 ok" ++ CRLF) /\
  length (extractCode (B "220 ok" ++ CRLF)) = 3 /\
  starts_with (B "220 ok" ++ CRLF) (extractCode (B "220 ok" ++ CRLF)) /\
  (nth_error (B "220 ok" ++ CRLF) 3 = Some SP \/
   nth_error (B "220 ok" ++ CRLF) 3 = Some HYPHEN).
Proof.
  apply (complete_reply_has_code (B "220 ok" ++ CRLF)). reflexivity.
Defined.

(** The reply that the loop of [readResponse] hands over is made of the
    accumulator and the chunks of the reads it has consumed. *)
Lemma readResponseLoop_chunks input : forall all msg err rest,
  readResponseLoop all input = (msg, err, rest) ->
  exists chunks,
    msg = all ++ gathered chunks /\
    (forall k, 0 < k < length chunks ->
       isCompleteResponse (all ++ gathered (firstn k chunks)) = false) /\
    match err with
    | None => input = map inl chunks ++ rest /\ chunks <> [] /\
              isCompleteResponse msg = true
    | Some e =>
        (chunks = [] \/ isCompleteResponse msg = false) /\
        (input = map inl chunks ++ inr e :: rest \/
         (input = map inl chunks /\ e = EOF /\ rest = []))
    end.
Proof.
  induction input as [|[chunk|e] input IH]; intros all msg err rest H; cbn in H.
  - inversion H; subst. exists []. cbn. rewrite app_nil_r.
    repeat split; auto. intros k Hk; lia.
  - destruct (isCompleteResponse (all ++ chunk)) eqn:E.
    + inversion H; subst. exists [chunk]. unfold gathered. cbn.
      rewrite app_nil_r. repeat split; auto; try discriminate.
      intros k Hk; lia.
    + apply IH in H. destruct H as (chunks & Hmsg & Hmin & Herr).
      exists (chunk :: chunks). unfold gathered in *. cbn [concat].
      rewrite app_assoc. split; [exact Hmsg|]. split.
      * intros k Hk. destruct k as [|k]; [lia|]. cbn [firstn concat].
        destruct k as [|k].
        -- cbn. rewrite app_nil_r. exact E.
        -- rewrite app_assoc. apply Hmin. cbn in Hk. lia.
      * destruct err as [e|].
        -- destruct Herr as [Hc Hin]. split.
           ++ destruct Hc as [Hc|Hc]; [|right; exact Hc].
              subst chunks. right. rewrite Hmsg. cbn. rewrite app_nil_r.
              exact E.
           ++ destruct Hin as [Hin|(Hin & He & Hr)]; [left|right]; subst;
                cbn; auto.
        -- destruct Herr as (Hin & Hne & Hc). subst input. cbn.
           repeat split; auto. discriminate.
  - inversion H; subst. exists []. cbn. rewrite app_nil_r.
    repeat split; auto. intros k Hk; lia.
Qed.

(** X3. [readResponse] hands over whole reads: the bytes it returns are
    the chunks of the reads it has consumed, one after the other, and no
    shorter run of these chunks was a complete reply.  Without error, at
    least one chunk was read, the bytes are a complete reply, and the
    reads behind it are left for the next call; with an error, the chunks
    read before the failing read are returned with it, and they are no
    complete reply. *)
Theorem readResponse_takes_whole_reads (input : list (bytes + error))
        (msg : bytes) (err : option error) (rest : list (bytes + error)) :
  readResponseLoop [] input = (msg, err, rest) ->
  exists chunks,
    msg = gathered chunks /\
    (forall k, 0 < k < length chunks ->
       isCompleteResponse (gathered (firstn k chunks)) = false) /\
    match err with
    | None => input = map inl chunks ++ rest /\ chunks <> [] /\
              isCompleteResponse msg = true
    | Some e =>
        (chunks = [] \/ isCompleteResponse msg = false) /\
        (input = map inl chunks ++ inr e :: rest \/
         (input = map inl chunks /\ e = EOF /\ rest = []))
    end.
Proof.
  intros H. apply readResponseLoop_chunks in H. exact H.
Qed.

Lemma readResponse_takes_whole_reads_witness :
  exists chunks,
    B "220-a" ++ CRLF ++ B "220 b" ++ CRLF = gathered chunks /\
    (forall k, 0 < k < length chunks ->
       isCompleteResponse (gathered (firstn k chunks)) = false) /\
    ([inl (B "220-a" ++ CRLF); inl (B "220 b" ++ CRLF); inl (B "230 c" ++ CRLF)]
       : list (bytes + error))
      = map inl chunks ++ [inl (B "230 c" ++ CRLF)] /\
    chunks <> [] /\
    isCompleteResponse (B "220-a" ++ CRLF ++ B "220 b" ++ CRLF) = true.
Proof.
  apply (readResponse_takes_whole_reads
           [inl (B "220-a" ++ CRLF); inl (B "220 b" ++ CRLF); inl (B "230 c" ++ CRLF)]
           (B "220-a" ++ CRLF ++ B "220 b" ++ CRLF) None
           [inl (B "230 c" ++ CRLF)]).
  reflexivity.
Defined.

(** X4. Two replies that arrive in one read are handed over as one
    reply: when a read delivers a text with a space as its fourth byte,
    followed in the same read by anything that ends with CR-LF,
    [readResponse] returns the whole chunk, and nothing of it is left
    for the next call. *)
Theorem replies_of_one_read_are_one_reply
        (r1 r2 : bytes) (rest : list (bytes + error)) :
  4 <= length r1 -> nth_error r1 3 = Some SP -> ends_with r2 CRLF ->
  length (r1 ++ r2) <= 1024 ->
  readResponseLoop [] (inl (r1 ++ r2) :: rest) = (r1 ++ r2, None, rest).
Proof.
  intros Hl H3 [p ->] _. cbn [readResponseLoop app].
  assert (E : isCompleteResponse (r1 ++ p ++ CRLF) = true).
  { apply isCompleteResponse_iff_segments. left. repeat split.
    - rewrite length_app. lia.
    - rewrite nth_error_app1 by lia. exact H3.
    - exists (r1 ++ p). rewrite <- app_assoc. reflexivity. }
  rewrite E. reflexivity.
Qed.

Lemma replies_of_one_read_are_one_reply_witness :
  readResponseLoop []
    [inl ((B "150 Opening" ++ CRLF) ++ (B "226 Done" ++ CRLF))]
  = ((B "150 Opening" ++ CRLF) ++ (B "226 Done" ++ CRLF), None, []).
Proof.
  apply (replies_of_one_read_are_one_reply
           (B "150 Opening" ++ CRLF) (B "226 Done" ++ CRLF) []).
  - cbn. lia.
  - reflexivity.
  - exists (B "226 Done"). reflexivity.
  - cbn. lia.
Defined.

(** ** The text of a reply *)

(** X5. The bounds of [removeControlSymbols]: on a reply of fewer than
    four bytes its first slice is out of range and it panics; on a reply
    with a space as its fourth byte, complete or not, it does not panic
    and returns the bytes behind the fourth, without one closing CR-LF. *)
Theorem removeControlSymbols_bounds (resp : bytes) :
  (length resp < 4 -> removeControlSymbols resp = None) /\
  (nth_error resp 3 = Some SP ->
   removeControlSymbols resp = Some (strings.TrimSuffix (skipn 4 resp) CRLF)).
Proof.
  split.
  - intros H. unfold removeControlSymbols.
    rewrite slice_from_out_of_range by lia. reflexivity.
  - intros H.
    assert (L : 3 < length resp) by (apply nth_error_Some; congruence).
    unfold removeControlSymbols, slice_from.
    replace ((0 <=? 4)%Z && (4 <=? Z.of_nat (length resp))%Z) with true
      by (symmetry; apply andb_true_iff; split; apply Z.leb_le; lia).
    replace (isSingleLineResponse resp) with true
      by (symmetry; apply isSingleLineResponse_iff; split; [lia | exact H]).
    reflexivity.
Qed.

Lemma removeControlSymbols_bounds_witness :
  removeControlSymbols (B "21") = None /\
  removeControlSymbols (B "214 text") =
    Some (strings.TrimSuffix (skipn 4 (B "214 text")) CRLF).
Proof.
  split.
  - apply (proj1 (removeControlSymbols_bounds (B "21"))). cbn. lia.
  - apply (proj2 (removeControlSymbols_bounds (B "214 text"))). reflexivity.
Defined.

(** A reply that was read without error and ends with CR-LF is in the
    range of [removeControlSymbols]; the codes decide the rest. *)
Ltac close_text :=
  cbn [fst snd] in *;
  try match goal with
      | Hp : readResponseLoop [] _ = (?b, None, _),
        Hr : removeControlSymbols ?b = None,
        He : ends_with ?b CRLF |- _ =>
          exfalso;
          apply (removeControlSymbols_in_range b);
          [eapply readResponseLoop_complete; exact Hp | exact He | exact Hr]
      end;
  decide_codes;
  repeat split; intros;
  repeat match goal with
         | H : _ /\ _ |- _ => destruct H
         | H : _ \/ _ |- _ => destruct H
         | H : (_, _) = (_, _) |- _ => inversion H; clear H
         end;
  subst; try discriminate; try reflexivity; try congruence; auto;
  try solve [exfalso; compare_codes].

(** X6. When the reply that comes next ends with CR-LF, [HelpAbout],
    [StatusOf] and [System] return, they do not panic.  Each succeeds
    exactly when its command was written, the reply was read, and the
    reply carries one of its codes (211 or 214 for HELP; 211, 212 or 213
    for STAT; 215 for SYST); the text is then the one of
    [removeControlSymbols], and the kind of status follows the code.
    With an error the text, and the kind, are empty. *)
Theorem text_operations_return_on_closed_replies
        (topic path : bytes) (s : St) :
  ends_with (fst (next_reply s)) CRLF ->
  let resp := fst (next_reply s) in
  let answered := next_write s = None /\ snd (next_reply s) = None in
  returns (HelpAbout topic) s
    (fun r _ =>
       (snd r = None <->
        answered /\ (extractCode resp = systemStatusOrHelpReply \/
                     extractCode resp = helpMessage)) /\
       (snd r = None -> removeControlSymbols resp = Some (fst r)) /\
       (snd r <> None -> fst r = [])) /\
  returns (StatusOf path) s
    (fun r _ =>
       (snd r = None <->
        answered /\ (extractCode resp = systemStatusOrHelpReply \/
                     extractCode resp = directoryStatus \/
                     extractCode resp = fileStatus)) /\
       (snd r = None ->
        removeControlSymbols resp = Some (snd (fst r)) /\
        (extractCode resp = systemStatusOrHelpReply -> fst (fst r) = GeneralStatus) /\
        (extractCode resp = directoryStatus -> fst (fst r) = DirectoryStatus) /\
        (extractCode resp = fileStatus -> fst (fst r) = FileStatus)) /\
       (snd r <> None -> fst r = ([], []))) /\
  returns System s
    (fun r _ =>
       (snd r = None <-> answered /\ extractCode resp = systemName) /\
       (snd r = None -> removeControlSymbols resp = Some (fst r)) /\
       (snd r <> None -> fst r = [])).
Proof.
  destruct_state s. intros He. cbv zeta.
  split; [|split].
  - unfold HelpAbout. run; close_text.
  - unfold StatusOf, statusTypeOfCode. run; close_text.
  - unfold System. run; close_text.
Qed.

Lemma text_operations_return_on_closed_replies_witness :
  ends_with (fst (next_reply (st0 transferASCII helping_server))) CRLF /\
  returns (HelpAbout []) (st0 transferASCII helping_server)
    (fun r _ => r = (B "Help OK", None)).
Proof.
  assert (He : ends_with (fst (next_reply (st0 transferASCII helping_server))) CRLF)
    by (exists (B "214 Help OK"); reflexivity).
  split; [exact He|].
  apply (returns_weaken _ _ _ _ _
           (proj1 (text_operations_return_on_closed_replies
                     [] [] (st0 transferASCII helping_server) He))).
  intros [text err] _ (Hs & Ht & _). cbn [fst snd] in *.
  assert (E : err = None).
  { apply Hs. split; [split; reflexivity | right; reflexivity]. }
  subst err. specialize (Ht eq_refl).
  vm_compute in Ht. inversion Ht. reflexivity.
Defined.

(** ** Names of a listing *)

Lemma LF_nonempty : [LF] <> [].
Proof. discriminate. Qed.

Lemma lf_free_crlf_free n : ~ In LF n -> crlf_free n.
Proof.
  intros H (pre & post & ->). apply H. apply in_or_app. right.
  right. left. reflexivity.
Qed.

Lemma cr_free_crlf_free n : ~ In CR n -> crlf_free n.
Proof.
  intros H (pre & post & ->). apply H. apply in_or_app. right.
  left. reflexivity.
Qed.

Lemma lf_free_free_of n : ~ In LF n -> free_of [LF] n.
Proof. intros H Hc. apply contains_single in Hc. exact (H Hc). Qed.

Lemma Split_lf_cons u t :
  ~ In LF u -> strings.Split (u ++ [LF] ++ t) [LF] = u :: strings.Split t [LF].
Proof.
  intros H. apply Split_cons;
    [exact LF_nonempty | exact (single_byte_first LF) | exact (lf_free_free_of _ H)].
Qed.

Lemma Split_lf_free u : ~ In LF u -> strings.Split u [LF] = [u].
Proof.
  intros H. apply Split_free;
    [exact LF_nonempty | exact (single_byte_first LF) | exact (lf_free_free_of _ H)].
Qed.

Lemma Split_terminated_crlf names last :
  Forall (fun n => ~ In LF n) names ->
  strings.Split (terminated CRLF names ++ last) CRLF =
  names ++ strings.Split last CRLF.
Proof.
  induction 1 as [|n names Hn _ IH]; [reflexivity|].
  unfold terminated in *. cbn [map concat].
  rewrite <- !app_assoc. rewrite Split_crlf_cons by (apply lf_free_crlf_free; exact Hn).
  rewrite IH. reflexivity.
Qed.

Lemma Split_terminated_lf names last :
  Forall (fun n => ~ In LF n) names ->
  strings.Split (terminated [LF] names ++ last) [LF] =
  names ++ strings.Split last [LF].
Proof.
  induction 1 as [|n names Hn _ IH]; [reflexivity|].
  unfold terminated in *. cbn [map concat].
  rewrite <- !app_assoc. rewrite Split_lf_cons by exact Hn.
  rewrite IH. reflexivity.
Qed.

Lemma Join_snoc_lf names last :
  strings.Join (names ++ [last]) [LF] = terminated [LF] names ++ last.
Proof.
  induction names as [|n names IH]; [reflexivity|].
  change ((n :: names) ++ [last]) with (n :: (names ++ [last])).
  rewrite Join_cons by (destruct names; discriminate).
  rewrite IH. unfold terminated. cbn [map concat].
  rewrite <- !app_assoc. reflexivity.
Qed.

(** Replacing CR-LF by LF turns the CR-LF terminators into LF. *)
Lemma ReplaceAll_terminated names last :
  Forall (fun n => ~ In LF n) names -> ~ In LF last ->
  strings.ReplaceAll (terminated CRLF names ++ last) CRLF [LF] =
  terminated [LF] names ++ last.
Proof.
  intros Hn Hl. unfold strings.ReplaceAll.
  rewrite Split_terminated_crlf by exact Hn.
  rewrite Split_crlf_free by (apply lf_free_crlf_free; exact Hl).
  apply Join_snoc_lf.
Qed.

Lemma terminated_lf_cr_free names last :
  Forall (fun n => ~ In CR n) names -> ~ In CR last ->
  ~ In CR (terminated [LF] names ++ last).
Proof.
  induction 1 as [|n names Hn _ IH]; intros Hl; [exact Hl|].
  unfold terminated in *. cbn [map concat]. rewrite <- !app_assoc.
  intros Hin. apply in_app_or in Hin as [Hin|Hin]; [exact (Hn Hin)|].
  cbn in Hin. destruct Hin as [Hin|Hin]; [discriminate|].
  exact (IH Hl Hin).
Qed.

(** [parseNLST] drops the last line when it is empty, and only then. *)
Lemma parseNLST_of_lines data names last :
  strings.Split (strings.ReplaceAll data CRLF [LF]) [LF] = names ++ [last] ->
  parseNLST data = match last with [] => names | _ :: _ => names ++ [last] end.
Proof.
  intros E. unfold parseNLST. rewrite E.
  rewrite length_app. cbn [length].
  replace (length names + 1 - 1) with (length names) by lia.
  rewrite app_nth2, Nat.sub_diag by lia. cbn [nth].
  replace (0 <? length names + 1) with true by (symmetry; apply Nat.ltb_lt; lia).
  destruct last as [|c last]; cbn [bytes_eqb andb]; [|reflexivity].
  rewrite firstn_app, Nat.sub_diag, firstn_all. cbn. apply app_nil_r.
Qed.

Lemma parseNLST_lf_free (data : bytes) :
  Forall (fun n => ~ In LF n) (parseNLST data).
Proof.
  assert (H : Forall (fun n => ~ In LF n)
                (strings.Split (strings.ReplaceAll data CRLF [LF]) [LF])).
  { eapply Forall_impl;
      [|apply (Split_sep_free [LF] LF_nonempty (single_byte_first LF))].
    intros n Hf Hin. apply Hf. apply contains_single. exact Hin. }
  unfold parseNLST.
  destruct ((0 <? _) && _); [|exact H].
  apply Forall_forall. intros n Hin. rewrite Forall_forall in H. apply H.
  match goal with
  | Hin : In n (firstn ?k ?l) |- _ =>
      rewrite <- (firstn_skipn k l); apply in_or_app; left; exact Hin
  end.
Qed.

(** X7. [parseNLST] gives back the names of a listing: for names without
    line feed, each closed by CR-LF, and possibly a last name that is not
    closed, the result is the list of these names in order (an empty
    unclosed rest is no name); in particular the empty listing has no
    names.  The same holds for names closed by a bare line feed when
    they contain no carriage return either. *)
Theorem parseNLST_round_trip (names : list bytes) (last : bytes) :
  Forall (fun n => ~ In LF n) names -> ~ In LF last ->
  parseNLST (terminated CRLF names ++ last) =
    match last with [] => names | _ :: _ => names ++ [last] end /\
  (Forall (fun n => ~ In CR n) names -> ~ In CR last ->
   parseNLST (terminated [LF] names ++ last) =
     match last with [] => names | _ :: _ => names ++ [last] end).
Proof.
  intros Hn Hl. split.
  - apply parseNLST_of_lines.
    rewrite ReplaceAll_terminated by assumption.
    rewrite Split_terminated_lf by exact Hn.
    rewrite Split_lf_free by exact Hl. reflexivity.
  - intros Hc Hcl. apply parseNLST_of_lines.
    unfold strings.ReplaceAll.
    rewrite Split_crlf_free
      by (apply cr_free_crlf_free, terminated_lf_cr_free; assumption).
    cbn [strings.Join].
    rewrite Split_terminated_lf by exact Hn.
    rewrite Split_lf_free by exact Hl. reflexivity.
Qed.

Lemma parseNLST_round_trip_witness :
  parseNLST (terminated CRLF [B "a.txt"; B "b c"] ++ B "d") =
    [B "a.txt"; B "b c"; B "d"] /\
  parseNLST (terminated [LF] [B "a.txt"; B "b c"] ++ []) =
    [B "a.txt"; B "b c"].
Proof.
  assert (Hn : Forall (fun n => ~ In LF n) [B "a.txt"; B "b c"]).
  { repeat constructor; cbv; intros H;
      repeat (destruct H as [H|H]; [discriminate|]); exact H. }
  assert (Hc : Forall (fun n => ~ In CR n) [B "a.txt"; B "b c"]).
  { repeat constructor; cbv; intros H;
      repeat (destruct H as [H|H]; [discriminate|]); exact H. }
  split.
  - refine (proj1 (parseNLST_round_trip [B "a.txt"; B "b c"] (B "d") Hn _)).
    cbv; intros H; repeat (destruct H as [H|H]; [discriminate|]); exact H.
  - refine (proj2 (parseNLST_round_trip [B "a.txt"; B "b c"] [] Hn _) Hc _);
      cbv; intros H; exact H.
Defined.

(** ** Quoted paths *)

Lemma all_dot_iff w : regexp_spec.all_in regexp.dot w <-> ~ In LF w.
Proof.
  unfold regexp_spec.all_in, regexp.dot. rewrite Forall_forall. split.
  - intros H Hin. apply H in Hin. cbv in Hin. discriminate.
  - intros H c Hin. apply negb_true_iff. apply byte_eqb_neq.
    intros ->. exact (H Hin).
Qed.

(** What the path pattern matches, and the submatch it leaves. *)
Lemma pathMatcher_sound w caps :
  regexp_spec.matches pathMatcher w [] caps ->
  exists d1 d2 d3 sp path rest,
    regexp.digit d1 = true /\ regexp.digit d2 = true /\
    regexp.digit d3 = true /\ path_separator sp = true /\
    path <> [] /\ ~ In LF path /\ ~ In LF rest /\
    w = quoted_path_text d1 d2 d3 sp path rest /\
    caps = [(1, path)].
Proof.
  unfold pathMatcher. cbn [regexp.cat regexp_spec.matches].
  intros H. break_matches. subst.
  match goal with
  | |- exists _ _ _ _ _ _, _ /\ _ /\ _ /\ _ /\ _ /\ _ /\ _ /\
         [?d1] ++ [?d2] ++ [?d3] ++ [?sp] ++ _ ++ ?p ++ _ ++ ?r ++ _ = _ /\ _ =>
      exists d1, d2, d3, sp, p, r
  end.
  repeat (split; [first [assumption | apply all_dot_iff; assumption]|]).
  split; reflexivity.
Qed.

Lemma pathMatcher_complete d1 d2 d3 sp path rest :
  regexp.digit d1 = true -> regexp.digit d2 = true ->
  regexp.digit d3 = true -> path_separator sp = true ->
  path <> [] -> ~ In LF path -> ~ In LF rest ->
  regexp_spec.matches pathMatcher (quoted_path_text d1 d2 d3 sp path rest)
                      [] [(1, path)].
Proof.
  intros H1 H2 H3 Hs Hp Hlp Hlr.
  apply all_dot_iff in Hlp. apply all_dot_iff in Hlr.
  unfold pathMatcher, quoted_path_text. cbn [regexp.cat regexp_spec.matches].
  exists [d1]. do 2 eexists. split; [reflexivity|]. split; [split; eauto|].
  exists [d2]. do 2 eexists. split; [reflexivity|]. split; [split; eauto|].
  exists [d3]. do 2 eexists. split; [reflexivity|]. split; [split; eauto|].
  exists [sp]. do 2 eexists. split; [reflexivity|]. split; [split; eauto|].
  exists [QUOTE]. do 2 eexists. split; [reflexivity|]. split; [split; reflexivity|].
  exists path. do 2 eexists. split; [reflexivity|]. split.
  { eexists. split; [|reflexivity]. repeat split; auto. }
  exists [QUOTE]. do 2 eexists. split; [reflexivity|]. split; [split; reflexivity|].
  exists rest. do 2 eexists. split; [reflexivity|]. split; [split; [exact Hlr|reflexivity]|].
  exists [CR]. do 2 eexists. split; [reflexivity|]. split; [split; reflexivity|].
  split; reflexivity.
Qed.

(** What [getPathFromResponse] answers, for every reply. *)
Lemma getPathFromResponse_cases msg :
  (~ has_quoted_path msg /\
   getPathFromResponse msg
   = ([], Some (errorMessage (B "path extraction") msg))) \/
  (exists pre d1 d2 d3 sp path rest post,
     regexp.digit d1 = true /\ regexp.digit d2 = true /\
     regexp.digit d3 = true /\ path_separator sp = true /\
     path <> [] /\ ~ In LF path /\ ~ In LF rest /\
     msg = pre ++ quoted_path_text d1 d2 d3 sp path rest ++ post /\
     getPathFromResponse msg = (path, None)).
Proof.
  unfold getPathFromResponse, regexp.Match, regexp.FindSubmatch.
  destruct (regexp.search pathMatcher msg) as [caps|] eqn:E.
  - right. cbn [negb].
    apply regexp_facts.search_sound in E as (pre & w & post & -> & Hm).
    apply pathMatcher_sound in Hm
      as (d1 & d2 & d3 & sp & path & rest & H1 & H2 & H3 & Hs & Hp & Hlp & Hlr & -> & ->).
    exists pre, d1, d2, d3, sp, path, rest, post.
    repeat (split; [assumption|]). split; reflexivity.
  - left. split; [|reflexivity].
    intros (pre & d1 & d2 & d3 & sp & path & rest & post
            & H1 & H2 & H3 & Hs & Hp & Hlp & Hlr & ->).
    pose proof (pathMatcher_complete d1 d2 d3 sp path rest H1 H2 H3 Hs Hp Hlp Hlr) as Hm.
    exact (regexp_facts.search_complete pathMatcher pre _ post _ _ Hm E).
Qed.

Lemma path_separator_not_quote sp : path_separator sp = true -> sp <> QUOTE.
Proof.
  unfold path_separator. rewrite !orb_true_iff. unfold byte_eqb.
  rewrite !Ascii.eqb_eq. intros [[H|H]|H]; subst; discriminate.
Qed.

Lemma digit_not_quote d : regexp.digit d = true -> d <> QUOTE.
Proof. intros H. apply (digit_not d QUOTE H). reflexivity. Qed.

Lemma count_quote_zero l : count_occ ascii_dec l QUOTE = 0 <-> ~ In QUOTE l.
Proof. symmetry. apply count_occ_not_In. Qed.

Lemma count_quoted_path_text d1 d2 d3 sp path rest :
  regexp.digit d1 = true -> regexp.digit d2 = true ->
  regexp.digit d3 = true -> path_separator sp = true ->
  count_occ ascii_dec (quoted_path_text d1 d2 d3 sp path rest) QUOTE =
  2 + count_occ ascii_dec path QUOTE + count_occ ascii_dec rest QUOTE.
Proof.
  intros H1 H2 H3 Hs.
  apply digit_not_quote in H1, H2, H3. apply path_separator_not_quote in Hs.
  unfold quoted_path_text. rewrite !count_occ_app.
  cbn [count_occ].
  destruct (ascii_dec d1 QUOTE); [contradiction|].
  destruct (ascii_dec d2 QUOTE); [contradiction|].
  destruct (ascii_dec d3 QUOTE); [contradiction|].
  destruct (ascii_dec sp QUOTE); [contradiction|].
  destruct (ascii_dec QUOTE QUOTE); [|contradiction].
  replace (count_occ ascii_dec CRLF QUOTE) with 0 by reflexivity. lia.
Qed.

(** X8. [getPathFromResponse] returns the quoted path of a reply: when
    a line of the reply is made of three digits, one of space, bar and
    hyphen, a double quote, a non-empty path, a double quote and the rest
    of the line up to CR-LF, and the reply holds no other double quote,
    the result is that path, without error.  This covers the replies of
    the tests, the single-line reply and the multi-line one. *)
Theorem getPathFromResponse_quoted_path
        (pre : bytes) (d1 d2 d3 sp : ascii) (path rest post : bytes) :
  regexp.digit d1 = true -> regexp.digit d2 = true ->
  regexp.digit d3 = true -> path_separator sp = true ->
  path <> [] -> ~ In LF path -> ~ In LF rest ->
  ~ In QUOTE pre -> ~ In QUOTE path -> ~ In QUOTE rest -> ~ In QUOTE post ->
  getPathFromResponse (pre ++ quoted_path_text d1 d2 d3 sp path rest ++ post)
  = (path, None).
Proof.
  intros H1 H2 H3 Hs Hp Hlp Hlr Qpre Qpath Qrest Qpost.
  set (msg := pre ++ quoted_path_text d1 d2 d3 sp path rest ++ post).
  destruct (getPathFromResponse_cases msg)
    as [[Hno _] | (pre' & e1 & e2 & e3 & sp' & p & r & post'
                   & E1 & E2 & E3 & Es & Ep & Elp & Elr & Emsg & Eres)].
  - exfalso. apply Hno.
    exists pre, d1, d2, d3, sp, path, rest, post.
    repeat (split; [assumption|]). reflexivity.
  - rewrite Eres. f_equal.
    assert (C : count_occ ascii_dec msg QUOTE = 2).
    { unfold msg. rewrite !count_occ_app, count_quoted_path_text by assumption.
      apply count_quote_zero in Qpre, Qpath, Qrest, Qpost. lia. }
    assert (C' : count_occ ascii_dec pre' QUOTE = 0 /\
                 count_occ ascii_dec p QUOTE = 0).
    { rewrite Emsg in C.
      rewrite !count_occ_app, count_quoted_path_text in C by assumption. lia. }
    destruct C' as [Qpre' Qp]. apply count_quote_zero in Qpre', Qp.
    pose proof (digit_not_quote _ H1). pose proof (digit_not_quote _ H2).
    pose proof (digit_not_quote _ H3). pose proof (path_separator_not_quote _ Hs).
    pose proof (digit_not_quote _ E1). pose proof (digit_not_quote _ E2).
    pose proof (digit_not_quote _ E3). pose proof (path_separator_not_quote _ Es).
    assert (E : (pre ++ [d1; d2; d3; sp]) ++ QUOTE :: (path ++ QUOTE :: rest ++ CRLF ++ post)
                = (pre' ++ [e1; e2; e3; sp']) ++ QUOTE :: (p ++ QUOTE :: r ++ CRLF ++ post')).
    { unfold msg, quoted_path_text in Emsg. rewrite <- !app_assoc in *.
      exact Emsg. }
    apply prefix_unique in E as [_ E].
    + apply prefix_unique in E as [E _]; [symmetry; exact E | assumption | assumption].
    + intros Hin. apply in_app_or in Hin as [Hin|Hin]; [exact (Qpre Hin)|].
      cbn in Hin. intuition congruence.
    + intros Hin. apply in_app_or in Hin as [Hin|Hin]; [exact (Qpre' Hin)|].
      cbn in Hin. intuition congruence.
Qed.

Lemma getPathFromResponse_quoted_path_witness :
  getPathFromResponse
    ([] ++ quoted_path_text "2" "5" "7" SP (B "path") [] ++ []) = (B "path", None) /\
  getPathFromResponse
    ([] ++ quoted_path_text "2" "5" "7" HYPHEN (B "path") [] ++ (B "257 " ++ CRLF))
  = (B "path", None).
Proof.
  split.
  - apply (getPathFromResponse_quoted_path [] "2" "5" "7" SP (B "path") [] []);
      try reflexivity; try discriminate;
      cbv; intros H; repeat (destruct H as [H|H]; [discriminate|]); exact H.
  - apply (getPathFromResponse_quoted_path [] "2" "5" "7" HYPHEN (B "path") []
             (B "257 " ++ CRLF));
      try reflexivity; try discriminate;
      cbv; intros H; repeat (destruct H as [H|H]; [discriminate|]); exact H.
Defined.

Lemma getPathFromResponse_facts msg :
  (snd (getPathFromResponse msg) = None <-> has_quoted_path msg) /\
  (snd (getPathFromResponse msg) <> None ->
   getPathFromResponse msg
   = ([], Some (errorMessage (B "path extraction") msg))) /\
  (snd (getPathFromResponse msg) = None ->
   fst (getPathFromResponse msg) <> [] /\
   ~ In LF (fst (getPathFromResponse msg)) /\
   contains msg ([QUOTE] ++ fst (getPathFromResponse msg) ++ [QUOTE])).
Proof.
  destruct (getPathFromResponse_cases msg)
    as [[Hno ->] | (pre & d1 & d2 & d3 & sp & path & rest & post
                    & H1 & H2 & H3 & Hs & Hp & Hlp & Hlr & Hmsg & ->)];
    cbn [fst snd].
  - split; [split; [discriminate | intros H; contradiction]|].
    split; [reflexivity | discriminate].
  - assert (Hh : has_quoted_path msg).
    { exists pre, d1, d2, d3, sp, path, rest, post.
      repeat (split; [assumption|]). exact Hmsg. }
    split; [split; [intros _; exact Hh | reflexivity]|].
    split; [intros H; contradiction|].
    intros _. split; [exact Hp|]. split; [exact Hlp|].
    rewrite Hmsg. unfold quoted_path_text.
    exists (pre ++ [d1; d2; d3; sp]), (rest ++ CRLF ++ post).
    rewrite <- !app_assoc. reflexivity.
Qed.

Lemma has_quoted_path_marks msg :
  has_quoted_path msg -> In QUOTE msg /\ contains msg CRLF.
Proof.
  intros (pre & d1 & d2 & d3 & sp & path & rest & post & _ & _ & _ & _ & _ & _ & _ & ->).
  unfold quoted_path_text. split.
  - apply in_or_app. right. apply in_or_app. left.
    do 4 right. left. reflexivity.
  - exists (pre ++ [d1; d2; d3; sp] ++ [QUOTE] ++ path ++ [QUOTE] ++ rest), post.
    rewrite <- !app_assoc. reflexivity.
Qed.

(** X9. [getPathFromResponse] succeeds exactly on the replies with a
    quoted path on one of their lines.  On every other reply, among them
    every reply without a double quote and every reply without CR-LF, it
    returns the empty path and the error for the path extraction.  A
    path that it returns is never empty, holds no line feed, and stands
    between two double quotes in the reply. *)
Theorem getPathFromResponse_outcome (msg : bytes) :
  (snd (getPathFromResponse msg) = None <-> has_quoted_path msg) /\
  (snd (getPathFromResponse msg) <> None ->
   getPathFromResponse msg
   = ([], Some (errorMessage (B "path extraction") msg))) /\
  (snd (getPathFromResponse msg) = None ->
   fst (getPathFromResponse msg) <> [] /\
   ~ In LF (fst (getPathFromResponse msg)) /\
   contains msg ([QUOTE] ++ fst (getPathFromResponse msg) ++ [QUOTE])) /\
  (~ In QUOTE msg -> snd (getPathFromResponse msg) <> None) /\
  (~ contains msg CRLF -> snd (getPathFromResponse msg) <> None).
Proof.
  destruct (getPathFromResponse_facts msg) as (F1 & F2 & F3).
  split; [exact F1|]. split; [exact F2|]. split; [exact F3|].
  split; intros Hn E; apply Hn; apply has_quoted_path_marks; apply F1; exact E.
Qed.

Ltac close_path :=
  cbn [fst snd] in *; decide_codes;
  try match goal with
      | Hp : getPathFromResponse ?b = _ |- _ =>
          let F1 := fresh "F" in let F2 := fresh "F" in let F3 := fresh "F" in
          destruct (getPathFromResponse_facts b) as (F1 & F2 & F3);
          rewrite Hp in F1, F2, F3; cbn [fst snd] in F1, F2, F3
      end;
  repeat split; intros;
  repeat match goal with
         | H : _ /\ _ |- _ => destruct H
         end;
  try discriminate; try reflexivity; try congruence; auto;
  try solve [exfalso; compare_codes];
  try solve [intuition congruence].

(** X10. [MakeDirectory] and [PrintWorkingDirectory] return a path only
    when the command was written, the reply was read and carries the
    code 257; the path is then not empty and stands between double
    quotes in the reply.  With an error the path is empty.  A reply 257
    without a quoted path is not a success: it gives the error for the
    path extraction. *)
Theorem path_operations_return_quoted_path (path : bytes) (s : St) :
  let resp := fst (next_reply s) in
  let answered :=
    next_write s = None /\ snd (next_reply s) = None /\
    extractCode resp = pathNameCreated in
  let outcome (r : bytes * option error) :=
    (snd r = None ->
     answered /\ fst r <> [] /\ ~ In LF (fst r) /\
     contains resp ([QUOTE] ++ fst r ++ [QUOTE])) /\
    (snd r <> None -> fst r = []) /\
    (answered -> (snd r = None <-> has_quoted_path resp)) /\
    (answered -> ~ has_quoted_path resp ->
     r = ([], Some (errorMessage (B "path extraction") resp))) in
  returns (MakeDirectory path) s (fun r _ => outcome r) /\
  returns PrintWorkingDirectory s (fun r _ => outcome r).
Proof.
  destruct_state s. cbv zeta. split.
  - unfold MakeDirectory. run; close_path.
  - unfold PrintWorkingDirectory. run; close_path.
Qed.

(** ** The lines and the replies of a run *)

Lemma skipn_length_app (A : Type) (l m : list A) : skipn (length l) (l ++ m) = m.
Proof. rewrite skipn_app, skipn_all, Nat.sub_diag. reflexivity. Qed.

Lemma skipn_length_self (A : Type) (l : list A) : skipn (length l) l = [].
Proof. apply skipn_all. Qed.

Lemma replies_write msg err evs : replies (EvWrite msg err :: evs) = replies evs.
Proof. reflexivity. Qed.

Lemma replies_reply msg err evs :
  replies (EvReply msg err :: evs) = replies evs ++ [msg].
Proof. reflexivity. Qed.

Lemma replies_dial addr res evs : replies (EvDial addr res :: evs) = replies evs.
Proof. reflexivity. Qed.

Lemma replies_copy dst src data err evs :
  replies (EvCopy dst src data err :: evs) = replies evs.
Proof. reflexivity. Qed.

Lemma replies_readall src data err evs :
  replies (EvReadAll src data err :: evs) = replies evs.
Proof. reflexivity. Qed.

Lemma replies_close id err evs : replies (EvClose id err :: evs) = replies evs.
Proof. reflexivity. Qed.

Lemma replies_close_control evs : replies (EvCloseControl :: evs) = replies evs.
Proof. reflexivity. Qed.

#[local] Hint Rewrite replies_write replies_reply replies_dial replies_copy
  replies_readall replies_close replies_close_control : history.

(** The lines written and the replies read during a run, read off the
    two histories. *)
Ltac new_lines :=
  unfold new_written, new_replies, USER_line, PASS_line, command_line in *;
  cbn [world events] in *;
  autorewrite with history in *; rewrite <- ?app_assoc in *;
  rewrite ?skipn_length_app, ?skipn_length_self in *; cbn [app] in *.

Ltac close_login :=
  repeat match goal with
         | H : bytes_eqb _ _ = true |- _ => apply bytes_eqb_eq in H
         | H : bytes_eqb _ _ = false |- _ => apply bytes_eqb_neq in H
         end;
  repeat split; intros;
  repeat match goal with
         | H : _ /\ _ |- _ => destruct H
         end;
  subst; try discriminate; try congruence; auto.

(** X11. The handshake of [newConnection] writes nothing and reads one
    reply.  It succeeds exactly when that reply was read without error
    and carries the code 220; the session is then in the ASCII
    representation, with the logger it was given.  A greeting with any
    other code gives the error for connect with the reply in it, and no
    session. *)
Theorem newConnection_greeting (lg : bool) (s : St) :
  returns (newConnection lg) s
    (fun r s' =>
       let resp := fst (next_reply s) in
       new_written s s' = [] /\
       new_replies s s' = [resp] /\
       (snd r = None <->
        snd (next_reply s) = None /\
        extractCode resp = serviceReadyForNewUser) /\
       (snd r = None -> fst r = Some (mkConnection lg transferASCII)) /\
       (snd r <> None -> fst r = None) /\
       (snd (next_reply s) = None ->
        extractCode resp <> serviceReadyForNewUser ->
        snd r = Some (errorMessage (B "connect") resp))).
Proof.
  destruct_state s. unfold newConnection. cbv zeta.
  run; new_lines; decide_codes;
    repeat split; intros;
    repeat match goal with
           | H : _ /\ _ |- _ => destruct H
           end;
    try discriminate; try reflexivity; try congruence; auto.
Qed.

(** X12. [Login] writes the USER line and, behind it, at most the PASS
    line.  The password goes over the wire exactly when the USER line
    was written and answered with the code 331.  A login that succeeds
    was answered 230 to USER, or 331 to USER and 230 to PASS; and a 230
    to USER is a success without any PASS. *)
Theorem Login_sends_password_on_request (user password : bytes) (s : St) :
  returns (Login user password) s
    (fun err s' =>
       let sent := new_written s s' in
       let code := extractCode (fst (next_reply s)) in
       (sent = [USER_line user] \/
        sent = [USER_line user; PASS_line password]) /\
       (sent = [USER_line user; PASS_line password] <->
        next_write s = None /\ snd (next_reply s) = None /\
        code = userNameOK_NeedPassword) /\
       (err = None ->
        code = userLoggedIn_Proceed \/
        (code = userNameOK_NeedPassword /\
         extractCode (fst (second_reply s)) = userLoggedIn_Proceed)) /\
       (next_write s = None -> snd (next_reply s) = None ->
        code = userLoggedIn_Proceed -> err = None)).
Proof.
  destruct_state s. unfold Login, second_reply. cbv zeta.
  run; new_lines; close_login.
  all: try (right; split; congruence).
  all: try solve [exfalso; compare_codes].
Qed.

(** X13. [RenameFromTo] writes the RNFR line and, behind it, at most the
    RNTO line: the new name is sent exactly when RNFR was written and
    answered with the code 350.  The renaming succeeds only when RNFR
    was answered 350 and RNTO was answered 250. *)
Theorem RenameFromTo_names_target_after_source (from to : bytes) (s : St) :
  returns (RenameFromTo from to) s
    (fun err s' =>
       let sent := new_written s s' in
       let code := extractCode (fst (next_reply s)) in
       (sent = [command_line [B "RNFR"; from]] \/
        sent = [command_line [B "RNFR"; from]; command_line [B "RNTO"; to]]) /\
       (sent = [command_line [B "RNFR"; from]; command_line [B "RNTO"; to]] <->
        next_write s = None /\ snd (next_reply s) = None /\
        code = fileActionPending) /\
       (err = None ->
        code = fileActionPending /\
        snd (second_reply s) = None /\
        extractCode (fst (second_reply s)) = fileActionCompleted)).
Proof.
  destruct_state s. unfold RenameFromTo, second_reply. cbv zeta.
  run; new_lines; close_login.
Qed.

(** X14. [Abort] of the later revision writes one line, ABOR.  It reads
    a second reply exactly when ABOR was written and the first reply
    carries the code 426; otherwise it reads one reply, or none when the
    line could not be written.  It succeeds exactly when the first reply
    carries 225 or 226, or carries 426 and the second reply carries 226. *)
Theorem Abort_outcome (s : St) :
  returns Abort s
    (fun err s' =>
       let resp1 := fst (next_reply s) in
       let resp2 := fst (second_reply s) in
       new_written s s' = [ABOR_line] /\
       (err = None <->
        next_write s = None /\ snd (next_reply s) = None /\
        (extractCode resp1 = noTransferInProgress \/
         extractCode resp1 = closingDataConnection \/
         (extractCode resp1 = connectionClosed_TransferAborter /\
          snd (second_reply s) = None /\
          extractCode resp2 = closingDataConnection))) /\
       (new_replies s s' = [] \/ new_replies s s' = [resp1] \/
        new_replies s s' = [resp1; resp2]) /\
       (new_replies s s' = [resp1; resp2] <->
        next_write s = None /\ snd (next_reply s) = None /\
        extractCode resp1 = connectionClosed_TransferAborter)).
Proof.
  destruct_state s. unfold Abort, second_reply, ABOR_line. cbv zeta.
  run; new_lines; decide_codes;
    repeat split; intros;
    repeat match goal with
           | H : _ /\ _ |- _ => destruct H
           | H : _ \/ _ |- _ => destruct H
           end;
    try discriminate; try reflexivity; auto;
    try solve [exfalso; compare_codes].
Qed.

(** ** Data connections *)

(** X15. [enterPassiveMode] dials only what the server has announced:
    a data connection is dialled only after PASV was written and
    answered with the code 227, and to the very address that
    [getAddressOfPasvResponse] reads from that reply.  It returns a
    connection, then without error and newly opened, or an error, then
    with no data connection opened. *)
Theorem enterPassiveMode_dials_extracted_address (s : St) :
  returns enterPassiveMode s
    (fun r s' =>
       let resp := fst (next_reply s) in
       (forall addr res rest,
          events (world s') = EvDial addr res :: rest ->
          next_write s = None /\ snd (next_reply s) = None /\
          extractCode resp = enteringPassiveMode /\
          getAddressOfPasvResponse resp = (addr, None)) /\
       (forall id,
          fst r = Some id ->
          snd r = None /\
          open_data (world s') = id :: open_data (world s) /\
          exists addr rest,
            events (world s') = EvDial addr (inl id) :: rest) /\
       (fst r = None ->
        snd r <> None /\ open_data (world s') = open_data (world s))).
Proof.
  destruct_state s. unfold enterPassiveMode. cbv zeta.
  run; decide_codes;
    (split; [intros ? ? ? Hev; inversion Hev; subst; auto|]);
    (split; [intros ? Hid; inversion Hid; subst; eauto 10|]);
    intros Hn; try discriminate; (split; [discriminate | reflexivity]).
Qed.

(** X16. A listing of the later revision reports success only after
    both replies, the one before the data and the one behind it, carry
    a success code; it then returns exactly the bytes read from the
    data connection, whatever the closing of that connection answers.
    With an error it returns no data, also when data had been read: a
    final reply without success code gives the error for the listing
    command. *)
Theorem listing_returns_data_after_confirmation (cmd path : bytes) (s : St) :
  returns (readListCommandData cmd path) s
    (fun r s' =>
       (snd r = None ->
        exists id cerr resp first rest,
          events (world s')
          = EvClose id cerr :: EvReply resp None
              :: EvReadAll (DataConn id) (fst r) None
              :: EvReply first None :: rest /\
          ok (extractCode first) = true /\
          ok (extractCode resp) = true) /\
       (snd r <> None -> fst r = []) /\
       (forall id cerr resp data rest,
          events (world s')
          = EvClose id cerr :: EvReply resp None
              :: EvReadAll (DataConn id) data None :: rest ->
          ok (extractCode resp) = false ->
          r = ([], Some (errorMessage cmd resp)))).
Proof.
  destruct_state s.
  destruct ty; run_transfer;
    (split; [intros; try discriminate; eauto 10|]);
    (split; [intros; try reflexivity; congruence|]);
    intros ? ? ? ? ? Hev Hok; inversion Hev; subst; try congruence.
Qed.

(** X17. [ListFileNamesIn] returns, on success, the names that
    [parseNLST] finds in the bytes read from the data connection; with
    an error it returns no names.  No name it returns holds a line
    feed. *)
Theorem ListFileNamesIn_parses_the_data (path : bytes) (s : St) :
  returns (ListFileNamesIn path) s
    (fun r s' =>
       (snd r = None ->
        exists id cerr resp data rest,
          events (world s')
          = EvClose id cerr :: EvReply resp None
              :: EvReadAll (DataConn id) data None :: rest /\
          fst r = parseNLST data) /\
       (snd r <> None -> fst r = []) /\
       Forall (fun n => ~ In LF n) (fst r)).
Proof.
  destruct_state s. unfold ListFileNamesIn.
  destruct ty; run_transfer;
    (split; [intros; try discriminate; eauto 10|]);
    (split; [intros; try reflexivity; congruence|]);
    first [apply parseNLST_lf_free | constructor].
Qed.

Ltac close_fresh Hf :=
  cbn [world open_data next_id];
  match goal with
  | |- ?l = ?od /\ _ =>
      let E := fresh "E" in
      assert (E : l = od) by close_open_data;
      split; [exact E|];
      let j := fresh "j" in let Hj := fresh "Hj" in
      intros j Hj; try rewrite E in Hj; specialize (Hf j Hj); lia
  end.

(** X18. In the later revision a download, an upload and a listing give
    back the data connection they have opened, on every path: the open
    data connections are the same after the operation as before, and
    their identifiers stay below the next one to be handed out, so that
    the same holds for the operation that follows. *)
Theorem data_operations_close_their_connection
        (cmd path : bytes) (stream : endpoint) (s : St) :
  ids_fresh s ->
  let closed (s' : St) :=
    open_data (world s') = open_data (world s) /\ ids_fresh s' in
  returns (Download path stream) s (fun _ s' => closed s') /\
  returns (upload cmd path stream) s (fun _ s' => closed s') /\
  returns (readListCommandData cmd path) s (fun _ s' => closed s') /\
  returns (ListFileNamesIn path) s (fun _ s' => closed s').
Proof.
  destruct_state s. unfold ids_fresh; cbn [world open_data next_id]. intros Hf.
  cbv zeta. unfold ListFileNamesIn.
  repeat match goal with |- _ /\ _ => split end;
    destruct ty; run_transfer; close_fresh Hf.
Qed.

Lemma data_operations_close_their_connection_witness :
  returns (Download (B "f") (Caller 0)) (st0 transferBinary refusing_server)
    (fun _ s' => open_data (world s') = []) /\
  returns (readListCommandData (B "LIST") []) (st0 transferASCII serving_server)
    (fun _ s' => open_data (world s') = []).
Proof.
  assert (Hb : ids_fresh (st0 transferBinary refusing_server))
    by (intros j Hj; destruct Hj).
  assert (Ha : ids_fresh (st0 transferASCII serving_server))
    by (intros j Hj; destruct Hj).
  split.
  - apply (returns_weaken _ _ _ _ _
             (proj1 (data_operations_close_their_connection
                       (B "STOR") (B "f") (Caller 0)
                       (st0 transferBinary refusing_server) Hb))).
    intros _ s' [H _]. exact H.
  - apply (returns_weaken _ _ _ _ _
             (proj1 (proj2 (proj2 (data_operations_close_their_connection
                       (B "LIST") [] (Caller 0)
                       (st0 transferASCII serving_server) Ha))))).
    intros _ s' [H _]. exact H.
Defined.

Ltac close_settled :=
  unfold representation; cbn [conn transferType_of];
  intros; try discriminate; try reflexivity; try congruence.

(** X19. A download or an upload that succeeds leaves the session in
    the binary representation, a listing that succeeds in the ASCII
    one.  And on a session in the binary representation a download or
    an upload writes no TYPE command: its first line is PASV, its second
    one, if any, the transfer command. *)
Theorem successful_data_operations_settle_representation
        (cmd path : bytes) (stream : endpoint) (s : St) :
  returns (Download path stream) s
    (fun err s' => err = None -> representation s' = transferBinary) /\
  returns (upload cmd path stream) s
    (fun err s' => err = None -> representation s' = transferBinary) /\
  returns (readListCommandData cmd path) s
    (fun r s' => snd r = None -> representation s' = transferASCII) /\
  (representation s = transferBinary ->
   returns (Download path stream) s
     (fun _ s' =>
        new_written s s' = [PASV_line] \/
        new_written s s' = [PASV_line; command_line [B "RETR"; path]]) /\
   returns (upload cmd path stream) s
     (fun _ s' =>
        new_written s s' = [PASV_line] \/
        new_written s s' = [PASV_line; optional_line cmd path])).
Proof.
  destruct_state s.
  split; [destruct ty; run_transfer; close_settled|].
  split; [destruct ty; run_transfer; close_settled|].
  split; [destruct ty; run_transfer; close_settled|].
  unfold representation; cbn [conn transferType_of]. intros ->.
  split; run_transfer; unfold PASV_line, optional_line; new_lines;
    repeat match goal with
           | H : bytes_eqb ?x [] = _ |- context [bytes_eqb ?x []] => rewrite H
           end; auto.
Qed.

Lemma successful_data_operations_settle_representation_witness :
  returns (Download (B "f") (Caller 0)) (st0 transferBinary serving_server)
    (fun _ s' =>
       new_written (st0 transferBinary serving_server) s' = [PASV_line] \/
       new_written (st0 transferBinary serving_server) s'
       = [PASV_line; command_line [B "RETR"; B "f"]]).
Proof.
  exact (proj1 (proj2 (proj2 (proj2
           (successful_data_operations_settle_representation
              (B "STOR") (B "f") (Caller 0) (st0 transferBinary serving_server))))
           eq_refl)).
Defined.

Ltac close_guarded :=
  cbn [world events transfers_guarded] in *;
  repeat split; try assumption; try congruence.

(** X20. No data moves before the server has agreed: in a download, an
    upload and a listing, the copy from or to the data connection comes
    right after a reply that was read without error and carries a
    success code.  A history in which every bulk transfer is guarded in
    this way stays so. *)
Theorem data_moves_only_after_a_success_reply
        (cmd path : bytes) (stream : endpoint) (s : St) :
  transfers_guarded (events (world s)) ->
  let guarded (s' : St) := transfers_guarded (events (world s')) in
  returns (Download path stream) s (fun _ s' => guarded s') /\
  returns (upload cmd path stream) s (fun _ s' => guarded s') /\
  returns (readListCommandData cmd path) s (fun _ s' => guarded s').
Proof.
  destruct_state s. cbn [world events]. intros Hg. cbv zeta.
  split; [|split]; destruct ty; run_transfer; close_guarded.
Qed.

Lemma data_moves_only_after_a_success_reply_witness :
  returns (Download (B "f") (Caller 0)) (st0 transferBinary serving_server)
    (fun _ s' => transfers_guarded (events (world s'))).
Proof.
  exact (proj1 (data_moves_only_after_a_success_reply
                  (B "STOR") (B "f") (Caller 0)
                  (st0 transferBinary serving_server) I)).
Defined.

(** ** The logger *)

Ltac unfold_operations :=
  unfold Login, ChangeWorkingDirTo, ChangeDirUp, StructureMount, Reinitialize,
    Quit, RenameFromTo, Delete, MakeDirectory, RemoveDirectory, NoOperation,
    Help, HelpAbout, Status, StatusOf, statusTypeOfCode, System,
    PrintWorkingDirectory, Abort, Close, ListFiles, ListFileNames,
    ListFilesIn, ListFileNamesIn, Upload, UploadUnique, Append.

Ltac run_keeps_log :=
  let s := fresh "s" in let Hlg := fresh "Hlg" in let Hlog := fresh "Hlog" in
  intros s Hlg Hlog; destruct_state s;
  cbn [conn world logger events logged] in Hlg, Hlog; subst;
  unfold_operations;
  match goal with ty : transferType |- _ => destruct ty end;
  run_transfer; split; reflexivity.

(** X22. An installed logger is told everything that crosses the control
    connection, and nothing else: when its record held each line written
    and each reply read so far, each with the error of its write or
    read and in the order of the history, it does so again after every
    operation.  No operation removes the logger. *)
Theorem logger_is_told_every_line_and_reply
        (user password path from to topic : bytes) (stream : endpoint) :
  keeps_log (Login user password) /\
  keeps_log (ChangeWorkingDirTo path) /\
  keeps_log ChangeDirUp /\
  keeps_log (StructureMount path) /\
  keeps_log Reinitialize /\
  keeps_log Quit /\
  keeps_log (RenameFromTo from to) /\
  keeps_log (Delete path) /\
  keeps_log (MakeDirectory path) /\
  keeps_log (RemoveDirectory path) /\
  keeps_log NoOperation /\
  keeps_log (HelpAbout topic) /\
  keeps_log (StatusOf path) /\
  keeps_log System /\
  keeps_log PrintWorkingDirectory /\
  keeps_log Abort /\
  keeps_log (ListFilesIn path) /\
  keeps_log (ListFileNamesIn path) /\
  keeps_log (Download path stream) /\
  keeps_log (Upload stream path) /\
  keeps_log (UploadUnique stream) /\
  keeps_log (Append stream path) /\
  keeps_log Close.
Proof.
  unfold keeps_log.
  repeat match goal with |- _ /\ _ => split end; run_keeps_log.
Qed.

(** ** The two revisions *)

(** X23. Where the two revisions of [ftp.go] word an operation
    differently without meaning to change it, they behave alike:
    [StatusOf] with the three comparisons in place and [StatusOf] with
    [statusTypeOfCode] have the same outcome in every state; and the two
    revisions of [Abort] have the same outcome unless ABOR was written
    and answered with the code 426. *)
Theorem revisions_agree (path : bytes) (s : St) :
  Rev0.StatusOf path s = StatusOf path s /\
  (next_write s <> None \/ snd (next_reply s) <> None \/
   extractCode (fst (next_reply s)) <> connectionClosed_TransferAborter ->
   Rev0.Abort s = Abort s).
Proof.
  destruct_state s. split.
  - unfold Rev0.StatusOf, StatusOf, statusTypeOfCode. run; reflexivity.
  - unfold Rev0.Abort, Abort. run; intros H; decide_codes;
      try reflexivity; exfalso; congruence.
Qed.

Lemma revisions_agree_witness :
  Rev0.Abort (st0 transferBinary serving_server)
  = Abort (st0 transferBinary serving_server).
Proof.
  apply (proj2 (revisions_agree [] (st0 transferBinary serving_server))).
  right. right. discriminate.
Defined.
